(** * Data-quality analysis and cleaning engine of [backend/server.js]

    A shallow embedding of [analyzeCSVQuality], [cleanCSVData] and the
    statistical helpers they call, followed by the properties of the
    specification that concern them.

    Conventions of the embedding.

    - A CSV cell is a [string], a sequence of 8-bit characters; white space
      and letter case are those of ASCII.  A row is the JavaScript object
      the parser builds: the list of its properties, (column, value) pairs,
      in the order in which they are enumerated.  [row[column]] is [get],
      an assignment [row[column] = v] is [set].
    - The rows live in a store (a list of rows addressed by position): the
      arrays [results] and [cleanedData] hold references into it, so that
      the in-place writes of the cleaner are visible through both.
    - A JavaScript number is a [number]: a finite value (an exact rational,
      kept in lowest terms), or NaN, or one of the two infinities, which a
      division by zero produces and which the word [Infinity] denotes in a
      cell.  The arithmetic of the finite values is exact, and [toString]
      and [toFixed] print the exact value: rounding to a double, overflow,
      underflow and the sign of zero are outside this model.
    - [Date.parse], [new URL] and the finite part of [Math.sqrt] are
      services of the runtime that the embedding takes as parameters
      ([Runtime]).  The module [Correlation] repeats [calculateCorrelation]
      over the real numbers, on the finite values that the cells hold. *)

From Stdlib Require Import QArith Qround Qabs Lia ZArith String Ascii List DecimalString.
From Stdlib Require Import Sorting.Sorted Sorting.Permutation.
From Stdlib Require Reals Lra.
From Stdlib Require Import Lqa.
From Stdlib Require DecimalPos.
From stdpp Require Import base list strings.
Import ListNotations.

Local Open Scope string_scope.
Local Open Scope list_scope.

(** ** Strings *)

Module Str.

Definition code (c : ascii) : nat := nat_of_ascii c.

Definition between (lo hi : nat) (c : ascii) : bool :=
  Nat.leb lo (code c) && Nat.leb (code c) hi.

(** [\s]: tab, line feed, vertical tab, form feed, carriage return, space. *)
Definition is_white_space (c : ascii) : bool :=
  between 9 13 c || Nat.eqb (code c) 32.

(** [\d] and [\w]. *)
Definition is_digit (c : ascii) : bool := between 48 57 c.

Definition is_word (c : ascii) : bool :=
  is_digit c || between 65 90 c || between 97 122 c || Nat.eqb (code c) 95.

Definition chars (s : string) : list ascii := list_ascii_of_string s.
Definition of_chars (l : list ascii) : string := string_of_list_ascii l.

Fixpoint drop_spaces (l : list ascii) : list ascii :=
  match l with
  | c :: l' => if is_white_space c then drop_spaces l' else l
  | [] => []
  end.

(** [s.trim()] *)
Definition trim (s : string) : string :=
  of_chars (rev (drop_spaces (rev (drop_spaces (chars s))))).

Definition lower_char (c : ascii) : ascii :=
  if between 65 90 c then ascii_of_nat (code c + 32) else c.

(** [s.toLowerCase()] *)
Definition toLowerCase (s : string) : string :=
  of_chars (map lower_char (chars s)).

Fixpoint is_prefix (p l : list ascii) : bool :=
  match p, l with
  | [], _ => true
  | a :: p', b :: l' => Ascii.eqb a b && is_prefix p' l'
  | _ :: _, [] => false
  end.

Fixpoint includes_chars (needle l : list ascii) : bool :=
  is_prefix needle l ||
  match l with
  | [] => false
  | _ :: l' => includes_chars needle l'
  end.

(** [s.includes(needle)] *)
Definition includes (s needle : string) : bool :=
  includes_chars (chars needle) (chars s).

(** [s.replace(/[^...]/g, '')]: the characters of the class are kept. *)
Definition keep (class : ascii -> bool) (s : string) : string :=
  of_chars (List.filter class (chars s)).

Definition is_one_of (set : string) (c : ascii) : bool :=
  existsb (Ascii.eqb c) (chars set).

Definition string_of_nat (n : nat) : string :=
  NilZero.string_of_uint (Nat.to_uint n).

Definition string_of_Z (z : Z) : string :=
  NilZero.string_of_int (Z.to_int z).

End Str.

(** ** Numbers *)

Module Num.
Import Str.
Local Open Scope Q_scope.

Inductive number : Type :=
| Fin (q : Q)
| PInf
| NInf
| NaN.

Definition fin (q : Q) : number := Fin (Qred q).
Definition of_nat (n : nat) : number := Fin (inject_Z (Z.of_nat n)).
Definition of_Z (z : Z) : number := Fin (inject_Z z).

Definition isNaN (x : number) : bool :=
  match x with NaN => true | _ => false end.

Definition is_finite (x : number) : bool :=
  match x with Fin _ => true | _ => false end.

Definition Qzero (q : Q) : bool := Z.eqb (Qnum q) 0%Z.
Definition Qneg (q : Q) : bool := Z.ltb (Qnum q) 0%Z.

Definition neg (x : number) : number :=
  match x with
  | Fin q => fin (- q)
  | PInf => NInf
  | NInf => PInf
  | NaN => NaN
  end.

(** [x + y] *)
Definition add (x y : number) : number :=
  match x, y with
  | NaN, _ | _, NaN => NaN
  | Fin a, Fin b => fin (a + b)
  | PInf, NInf | NInf, PInf => NaN
  | PInf, _ | _, PInf => PInf
  | NInf, _ | _, NInf => NInf
  end.

(** [x - y] *)
Definition sub (x y : number) : number := add x (neg y).

(** An infinity carrying the sign of the finite factor [q]; NaN at zero. *)
Definition signed_inf (positive : bool) (q : Q) : number :=
  if Qzero q then NaN
  else if Bool.eqb positive (negb (Qneg q)) then PInf else NInf.

(** [x * y] *)
Definition mul (x y : number) : number :=
  match x, y with
  | NaN, _ | _, NaN => NaN
  | Fin a, Fin b => fin (a * b)
  | PInf, Fin q | Fin q, PInf => signed_inf true q
  | NInf, Fin q | Fin q, NInf => signed_inf false q
  | PInf, PInf | NInf, NInf => PInf
  | PInf, NInf | NInf, PInf => NInf
  end.

(** [x / y]: a zero divisor gives an infinity, or NaN for [0 / 0]. *)
Definition div (x y : number) : number :=
  match x, y with
  | NaN, _ | _, NaN => NaN
  | Fin a, Fin b => if Qzero b then signed_inf true a else fin (a / b)
  | Fin _, _ => Fin 0
  | PInf, Fin q => if Qneg q then NInf else PInf
  | NInf, Fin q => if Qneg q then PInf else NInf
  | _, _ => NaN
  end.

(** [x < y], [x > y], [x === y]: false as soon as one side is NaN. *)
Definition lt (x y : number) : bool :=
  match x, y with
  | NaN, _ | _, NaN => false
  | Fin a, Fin b => match a ?= b with Lt => true | _ => false end
  | NInf, NInf | PInf, _ | _, NInf => false
  | _, _ => true
  end.

Definition gt (x y : number) : bool := lt y x.

Definition eq (x y : number) : bool :=
  match x, y with
  | Fin a, Fin b => Qeq_bool a b
  | PInf, PInf | NInf, NInf => true
  | _, _ => false
  end.

(** [Math.pow(x, n)] for the exponents 2, 3 and 4 of the source. *)
Fixpoint pow (x : number) (n : nat) : number :=
  match n with
  | O => Fin 1
  | 1%nat => x
  | S n' => mul x (pow x n')
  end.

Definition abs (x : number) : number :=
  match x with
  | Fin q => fin (Qabs q)
  | NaN => NaN
  | _ => PInf
  end.

(** [Math.max(x, y)] and [Math.min(x, y)] *)
Definition max (x y : number) : number :=
  if isNaN x || isNaN y then NaN else if lt x y then y else x.

Definition min (x y : number) : number :=
  if isNaN x || isNaN y then NaN else if lt y x then y else x.

(** [Math.max(...l)] and [Math.min(...l)] *)
Definition max_list (l : list number) : number := fold_left max l NInf.
Definition min_list (l : list number) : number := fold_left min l PInf.

(** [Math.round(x)]: the integer nearest to [x], ties upwards. *)
Definition round (x : number) : number :=
  match x with
  | Fin q => of_Z (Qfloor (q + (1 # 2)))
  | _ => x
  end.

(** [Number.isInteger(x)] *)
Definition isInteger (x : number) : bool :=
  match x with
  | Fin q => Pos.eqb (Qden (Qred q)) 1
  | _ => false
  end.

(** [l.reduce((a, b) => a + b, 0)] *)
Definition sum (l : list number) : number := fold_left add l (Fin 0).

(** *** Printing *)

Definition digit_char (d : Z) : ascii := ascii_of_nat (48 + Z.to_nat d).

(** The decimals of [r / d], [0 <= r < d], until the expansion ends. *)
Fixpoint decimals (fuel : nat) (r d : Z) : list ascii :=
  match fuel with
  | O => []
  | S fuel' =>
      if Z.eqb r 0%Z then []
      else digit_char (10 * r / d)%Z :: decimals fuel' (10 * r mod d)%Z d
  end.

Definition Q_toString (q : Q) : string :=
  let q := Qred q in
  let a := Z.abs (Qnum q) in
  let d := Zpos (Qden q) in
  let frac := decimals 20 (a mod d)%Z d in
  (if Qneg q then "-" else "") ++ string_of_Z (a / d)%Z ++
  (match frac with [] => "" | _ => "." ++ of_chars frac end).

(** [x.toString()] *)
Definition toString (x : number) : string :=
  match x with
  | Fin q => Q_toString q
  | PInf => "Infinity"
  | NInf => "-Infinity"
  | NaN => "NaN"
  end.

Definition Q_toFixed (k : nat) (q : Q) : string :=
  let scaled := Qabs q * inject_Z (10 ^ Z.of_nat k)%Z in
  let n := Qfloor (scaled + (1 # 2)) in
  let ds := chars (string_of_Z n) in
  let ds := (repeat "0"%char (S k - length ds) ++ ds)%list in
  let ip := firstn (length ds - k)%nat ds in
  let fp := skipn (length ds - k)%nat ds in
  (if Qneg q then "-" else "") ++ of_chars ip ++
  (match k with O => "" | _ => "." ++ of_chars fp end).

(** [x.toFixed(k)] *)
Definition toFixed (k : nat) (x : number) : string :=
  match x with
  | Fin q => Q_toFixed k q
  | PInf => "Infinity"
  | NInf => "-Infinity"
  | NaN => "NaN"
  end.

(** *** Reading *)

Definition digit_value (radix : nat) (c : ascii) : option Z :=
  let v :=
    if is_digit c then Some (code c - 48)%nat
    else if between 97 102 c then Some (code c - 87)%nat
    else if between 65 70 c then Some (code c - 55)%nat
    else None in
  match v with
  | Some n => if Nat.ltb n radix then Some (Z.of_nat n) else None
  | None => None
  end.

(** The longest run of digits at the head of [l]: its value, its length
    and what follows it. *)
Fixpoint digits (radix : nat) (l : list ascii) (acc : Z) (len : nat)
  : Z * nat * list ascii :=
  match l with
  | c :: l' =>
      match digit_value radix c with
      | Some d => digits radix l' (Z.of_nat radix * acc + d)%Z (S len)
      | None => (acc, len, l)
      end
  | [] => (acc, len, l)
  end.

Definition pow10 (e : Z) : Q :=
  if Z.ltb e 0 then 1 / inject_Z (10 ^ (- e))%Z else inject_Z (10 ^ e)%Z.

(** The optional exponent part [e±ddd]; without a digit it is not read. *)
Definition exponent (l : list ascii) : Z * list ascii :=
  match l with
  | c :: l' =>
      if is_one_of "eE" c then
        let '(negative, l'') :=
          match l' with
          | "-"%char :: r => (true, r)
          | "+"%char :: r => (false, r)
          | _ => (false, l')
          end in
        let '(e, len, rest) := digits 10 l'' 0%Z 0%nat in
        if Nat.eqb len 0 then (0%Z, l)
        else ((if negative then - e else e)%Z, rest)
      else (0%Z, l)
  | [] => (0%Z, l)
  end.

(** An unsigned decimal literal at the head of [l] ([12], [12.5], [.5],
    [12.], [1e3]) and what follows it. *)
Definition decimal_literal (l : list ascii) : option (Q * list ascii) :=
  let '(ip, n1, r1) := digits 10 l 0%Z 0%nat in
  let '(fp, n2, r2) :=
    match r1 with
    | "."%char :: r => digits 10 r 0%Z 0%nat
    | _ => (0%Z, 0%nat, r1)
    end in
  if Nat.eqb n1 0 && Nat.eqb n2 0 then None
  else
    let '(e, r3) := exponent r2 in
    Some ((inject_Z ip + inject_Z fp / inject_Z (10 ^ Z.of_nat n2)%Z) * pow10 e,
          r3).

Definition signed (l : list ascii) : bool * list ascii :=
  match l with
  | "-"%char :: r => (true, r)
  | "+"%char :: r => (false, r)
  | _ => (false, l)
  end.

(** [parseFloat(s)]: after leading blanks and a sign, the word [Infinity]
    or the longest decimal literal. *)
Definition parseFloat (s : string) : number :=
  let '(negative, l) := signed (drop_spaces (chars s)) in
  if is_prefix (chars "Infinity") l then (if negative then NInf else PInf)
  else
    match decimal_literal l with
    | Some (q, _) => fin (if negative then - q else q)
    | None => NaN
    end.

(** [parseFloat(v)] for a cell that may be [undefined]. *)
Definition parseFloat_cell (v : option string) : number :=
  match v with
  | Some s => parseFloat s
  | None => NaN
  end.

Definition radix_literal (l : list ascii) : option Q :=
  match l with
  | "0"%char :: c :: r =>
      let radix :=
        if is_one_of "xX" c then 16%nat
        else if is_one_of "oO" c then 8%nat
        else if is_one_of "bB" c then 2%nat
        else 0%nat in
      match digits radix r 0%Z 0%nat with
      | (v, S _, []) => Some (inject_Z v)
      | _ => None
      end
  | _ => None
  end.

(** [Number(s)], the conversion behind [isNaN(s)]: the whole string, blanks
    trimmed, must be a numeric literal or the word [Infinity] with or
    without a sign; the empty string converts to 0. *)
Definition Number (s : string) : number :=
  let l := chars (trim s) in
  match l with
  | [] => Fin 0
  | _ =>
      match radix_literal l with
      | Some q => fin q
      | None =>
          let '(negative, l') := signed l in
          if String.eqb (of_chars l') "Infinity"
          then (if negative then NInf else PInf)
          else
            match decimal_literal l' with
            | Some (q, []) => fin (if negative then - q else q)
            | _ => NaN
            end
      end
  end.

End Num.

(** ** Services of the runtime *)

(** [Date_parse s] is [Date.parse(s)], the time value in milliseconds, or
    [None] for NaN; the formats it accepts beyond ISO dates depend on the
    engine.  [Date_toISODate t] is
    [new Date(t).toISOString().split('T')[0]].  [URL_valid s] tells whether
    [new URL(s)] returns.  [sqrt_finite q] is [Math.sqrt] at a finite
    [q >= 0]. *)
Record Runtime : Type := {
  Date_parse : string -> option Z;
  Date_toISODate : Z -> string;
  URL_valid : string -> bool;
  sqrt_finite : Q -> Q
}.

(** ** Lodash *)

Module Lodash.

Section UniqBy.
Context {A K : Type} `{EqDecision K}.
Variable iteratee : A -> K.

(** [_.uniqBy(array, iteratee)]: an element is kept when its key was not
    computed for an earlier kept element. *)
Fixpoint uniqBy_from (seen : list K) (array : list A) : list A :=
  match array with
  | [] => []
  | x :: rest =>
      if decide (iteratee x ∈ seen) then uniqBy_from seen rest
      else x :: uniqBy_from (iteratee x :: seen) rest
  end.

Definition uniqBy (array : list A) : list A := uniqBy_from [] array.
End UniqBy.

(** A plain object used as a table of counts: its properties in creation
    order. *)
Definition counts : Type := list (string * nat).

Fixpoint increment (key : string) (o : counts) : counts :=
  match o with
  | [] => [(key, 1)]
  | (k, n) :: o' =>
      if String.eqb k key then (k, S n) :: o' else (k, n) :: increment key o'
  end.

(** [_.countBy(values)] *)
Definition countBy (values : list string) : counts :=
  fold_left (fun o v => increment v o) values [].

(** A property name that is an array index: the canonical decimal text of
    an integer below [2^32 - 1]. *)
Definition array_index (key : string) : option N :=
  match Str.chars key with
  | [] => None
  | c :: rest =>
      if forallb Str.is_digit (c :: rest)
         && (negb (Ascii.eqb c "0") || Nat.eqb (length rest) 0)
      then
        let '(v, _, _) := Num.digits 10 (c :: rest) 0%Z 0 in
        if Z.ltb v (2 ^ 32 - 1) then Some (Z.to_N v) else None
      else None
  end.

Fixpoint insert_index {V : Type} (i : N) (p : string * V)
    (l : list (N * (string * V))) : list (N * (string * V)) :=
  match l with
  | [] => [(i, p)]
  | (j, q) :: l' =>
      if N.leb i j then (i, p) :: l else (j, q) :: insert_index i p l'
  end.

(** The order in which the properties of an object are enumerated: the
    array indices in ascending order, then the other names in creation
    order. *)
Definition own_properties {V : Type} (o : list (string * V))
  : list (string * V) :=
  let indexed :=
    fold_left
      (fun acc p =>
         match array_index (fst p) with
         | Some i => insert_index i p acc
         | None => acc
         end) o [] in
  map snd indexed ++
  List.filter (fun p => match array_index (fst p) with
                        | Some _ => false
                        | None => true
                        end) o.

(** [_.toPairs(object)] *)
Definition toPairs (o : counts) : list (string * nat) := own_properties o.

(** [_.maxBy(pairs, 1)]: a later pair replaces the current one only with
    a strictly greater count. *)
Fixpoint maxBy_from (current : string * nat) (pairs : list (string * nat))
  : string * nat :=
  match pairs with
  | [] => current
  | p :: rest =>
      if Nat.ltb (snd current) (snd p) then maxBy_from p rest
      else maxBy_from current rest
  end.

Definition maxBy (pairs : list (string * nat)) : option (string * nat) :=
  match pairs with
  | [] => None
  | p :: rest => Some (maxBy_from p rest)
  end.

End Lodash.

(** ** Rows and the store *)

Definition row : Type := list (string * string).

(** [row[column]]; [None] is [undefined]. *)
Fixpoint get (r : row) (column : string) : option string :=
  match r with
  | [] => None
  | (k, v) :: r' => if String.eqb k column then Some v else get r' column
  end.

(** [row[column] = v] *)
Fixpoint set (r : row) (column v : string) : row :=
  match r with
  | [] => [(column, v)]
  | (k, w) :: r' =>
      if String.eqb k column then (k, v) :: r' else (k, w) :: set r' column v
  end.

(** [Object.keys(row)] *)
Definition keys (r : row) : list string := map fst r.

(** [Object.keys(results[0] || {})] *)
Definition headers_of (results : list row) : list string :=
  match results with
  | first :: _ => keys first
  | [] => []
  end.

(** The row objects, addressed by position; an array of rows is a list of
    positions. *)
Abbreviation store := (list row).

Definition cell (st : store) (ref : nat) (column : string) : option string :=
  match st !! ref with
  | Some r => get r column
  | None => None
  end.

Definition write (st : store) (ref : nat) (column v : string) : store :=
  match st !! ref with
  | Some r => <[ref := set r column v]> st
  | None => st
  end.

(** [JSON.stringify(row)] lists the properties of the row in order, names
    and values quoted and escaped, so two rows have the same text exactly
    when they have the same list of properties: the list is the key. *)
Definition JSON_stringify (st : store) (ref : nat) : option row := st !! ref.

(** A value used as a condition: [undefined] and the empty string are
    false. *)
Definition truthy (v : option string) : bool :=
  match v with
  | Some s => negb (String.eqb s "")
  | None => false
  end.

(** [!v || v.trim() === '' || v.toLowerCase() === 'null'] *)
Definition is_missing (v : option string) : bool :=
  match v with
  | Some s =>
      String.eqb s "" || String.eqb (Str.trim s) ""
      || String.eqb (Str.toLowerCase s) "null"
  | None => true
  end.

(** [val && val.trim() !== ''] *)
Definition is_present (v : option string) : bool :=
  match v with
  | Some s => negb (String.eqb s "") && negb (String.eqb (Str.trim s) "")
  | None => false
  end.

(** [array[i]] in an arithmetic context: [undefined] counts as NaN. *)
Definition at_index (array : list Num.number) (i : nat) : Num.number :=
  nth i array Num.NaN.

(** [array.sort((a, b) => a - b)] *)
Fixpoint insert_sorted (x : Num.number) (l : list Num.number)
  : list Num.number :=
  match l with
  | [] => [x]
  | y :: l' => if Num.lt y x then y :: insert_sorted x l' else x :: l
  end.

Definition sort_numbers (l : list Num.number) : list Num.number :=
  fold_right insert_sorted [] l.

(** [values.map(v => parseFloat(v)).filter(x => !isNaN(x))] *)
Definition parsed (values : list (option string)) : list Num.number :=
  List.filter (fun x => negb (Num.isNaN x)) (map Num.parseFloat_cell values).

Definition count_if {A : Type} (p : A -> bool) (l : list A) : nat :=
  length (List.filter p l).

(** ** Statistics *)

(** The first declaration of [percentile] in the file (it sorts its
    argument).  The later declaration of the same name replaces it
    everywhere, so no call reaches this one. *)
Definition percentile_shadowed (arr : list Num.number) (p : Q) : Num.number :=
  let sorted := sort_numbers arr in
  let index := (p / 100 * (inject_Z (Z.of_nat (length sorted)) - 1))%Q in
  let lower := Qfloor index in
  let upper := Qceiling index in
  let weight := (index - inject_Z lower)%Q in
  if Z.leb (Z.of_nat (length sorted)) upper
  then at_index sorted (length sorted - 1)
  else Num.add (Num.mul (at_index sorted (Z.to_nat lower)) (Num.fin (1 - weight)))
               (Num.mul (at_index sorted (Z.to_nat upper)) (Num.fin weight)).

(** [sortedArray[i]] for an integer [i] that may be negative. *)
Definition at_Z (array : list Num.number) (i : Z) : Num.number :=
  if Z.ltb i 0 then Num.NaN else at_index array (Z.to_nat i).

(** [percentile(sortedArray, p)], the declaration in force: it reads the
    array as it is given. *)
Definition percentile (sortedArray : list Num.number) (p : Q) : Num.number :=
  let index := (p / 100 * (inject_Z (Z.of_nat (length sortedArray)) - 1))%Q in
  if Qeq_bool (inject_Z (Qfloor index)) index then
    at_Z sortedArray (Qfloor index)
  else
    let lower := at_Z sortedArray (Qfloor index) in
    let upper := at_Z sortedArray (Qceiling index) in
    Num.add lower
      (Num.mul (Num.sub upper lower) (Num.fin (index - inject_Z (Qfloor index)))).

Definition outside (lowerBound upperBound val : Num.number) : bool :=
  Num.lt val lowerBound || Num.gt val upperBound.

(** [Q1 - 1.5 * IQR] and [Q3 + 1.5 * IQR] *)
Definition iqr_bounds (Q1 Q3 : Num.number) : Num.number * Num.number :=
  let IQR := Num.sub Q3 Q1 in
  (Num.sub Q1 (Num.mul (Num.fin (3 # 2)) IQR),
   Num.add Q3 (Num.mul (Num.fin (3 # 2)) IQR)).

Definition detectOutliers (values : list Num.number) : list Num.number :=
  let Q1 := percentile values 25 in
  let Q3 := percentile values 75 in
  let '(lowerBound, upperBound) := iqr_bounds Q1 Q3 in
  List.filter (outside lowerBound upperBound) values.

(** [values.reduce((a, b) => a + b, 0) / values.length] *)
Definition mean_of (values : list Num.number) : Num.number :=
  Num.div (Num.sum values) (Num.of_nat (length values)).

Definition calculateSkewness (values : list Num.number)
    (mean std : Num.number) : Num.number :=
  if Num.eq std (Num.Fin 0) then Num.Fin 0
  else
    let n := Num.of_nat (length values) in
    let one := Num.Fin 1 in
    let two := Num.Fin 2 in
    let sum :=
      fold_left
        (fun acc val => Num.add acc (Num.pow (Num.div (Num.sub val mean) std) 3))
        values (Num.Fin 0) in
    Num.mul (Num.div n (Num.mul (Num.sub n one) (Num.sub n two))) sum.

Definition calculateKurtosis (values : list Num.number)
    (mean std : Num.number) : Num.number :=
  if Num.eq std (Num.Fin 0) then Num.Fin 0
  else
    let n := Num.of_nat (length values) in
    let one := Num.Fin 1 in
    let two := Num.Fin 2 in
    let three := Num.Fin 3 in
    let sum :=
      fold_left
        (fun acc val => Num.add acc (Num.pow (Num.div (Num.sub val mean) std) 4))
        values (Num.Fin 0) in
    Num.sub
      (Num.mul
         (Num.div (Num.mul n (Num.add n one))
            (Num.mul (Num.mul (Num.sub n one) (Num.sub n two)) (Num.sub n three)))
         sum)
      (Num.div (Num.mul three (Num.pow (Num.sub n one) 2))
         (Num.mul (Num.sub n two) (Num.sub n three))).

(** ** Patterns of [validateDataPattern] *)

Fixpoint split_at (sep : ascii) (l : list ascii)
  : option (list ascii * list ascii) :=
  match l with
  | [] => None
  | c :: l' =>
      if Ascii.eqb c sep then Some ([], l')
      else match split_at sep l' with
           | Some (a, b) => Some (c :: a, b)
           | None => None
           end
  end.

(** [/^[^\s@]+@[^\s@]+\.[^\s@]+$/.test(s)] *)
Definition email_pattern (s : string) : bool :=
  let cs := Str.chars s in
  forallb (fun c => negb (Str.is_white_space c)) cs &&
  match split_at "@" cs with
  | Some (local, domain) =>
      negb (Nat.eqb (length local) 0)
      && negb (existsb (Ascii.eqb "@") domain)
      && match domain with
         | [] => false
         | _ :: tl => existsb (Ascii.eqb ".") (removelast tl)
         end
  | None => false
  end.

(** [/^[\+]?[1-9][\d]{0,15}$/.test(s.replace(/[\s\-\(\)]/g, ''))] *)
Definition phone_pattern (s : string) : bool :=
  let cs :=
    List.filter
      (fun c => negb (Str.is_white_space c || Str.is_one_of "-()" c))
      (Str.chars s) in
  let cs := match cs with
            | "+"%char :: r => r
            | _ => cs
            end in
  match cs with
  | c :: r =>
      Str.between 49 57 c && forallb Str.is_digit r && Nat.leb (length r) 15
  | [] => false
  end.

(** ** The engine *)

Inductive jsvalue : Type :=
| VNumber (x : Num.number)
| VString (s : string).

Record missingInfo : Type := {
  mi_count : nat;
  mi_percentage : string
}.

Record summaryInfo : Type := {
  s_count : nat;
  s_mean : string;
  s_median : string;
  s_min : Num.number;
  s_max : Num.number;
  s_std : string;
  s_q1 : string;
  s_q3 : string;
  s_skewness : string;
  s_kurtosis : string
}.

Record outlierInfo : Type := {
  o_count : nat;
  o_iqrOutliers : list Num.number;
  o_zscoreOutliers : list Num.number;
  o_percentage : string
}.

Record qualityMetrics : Type := {
  completeness : jsvalue;
  consistency : jsvalue;
  accuracy : jsvalue;
  validity : jsvalue;
  uniqueness : jsvalue;
  overallScore : jsvalue
}.

(** The object [analysis].  Its properties [correlations] and
    [recommendations] are not part of the record: they are [correlations]
    and [recommendations] further down. *)
Record analysis : Type := {
  totalRows : nat;
  totalColumns : nat;
  missingValues : list (string * missingInfo);
  duplicates : nat;
  dataTypes : list (string * string);
  outliers : list (string * outlierInfo);
  summary : list (string * summaryInfo);
  metrics : qualityMetrics
}.

Record cleaningReport : Type := {
  stepsApplied : list string;
  rowsRemoved : nat;
  valuesImputed : nat;
  outliersTreated : nat;
  duplicatesRemoved : nat;
  processingComplete : bool;
  finalQualityScore : Num.number
}.

Record options : Type := {
  normalizeNumeric : bool
}.

(** What [cleanCSVData] resolves with, together with the store in which the
    rows of [results] and of [data] live ([cleaned_refs] is the array
    [data]) and with the two counters that the function keeps in local
    variables and reports in its sentences only. *)
Record cleaned : Type := {
  cleaned_store : store;
  cleaned_refs : list nat;
  cleaned_headers : list string;
  report : cleaningReport;
  typeConversions : nat;
  validationIssues : nat
}.

(** The rows of an array of references. *)
Definition rows_of (st : store) (refs : list nat) : list row :=
  omap (fun ref => st !! ref) refs.

Definition data (c : cleaned) : list row :=
  rows_of (cleaned_store c) (cleaned_refs c).

Definition lookup_type (types : list (string * string)) (column : string)
  : string :=
  match List.find (fun p => String.eqb (fst p) column) types with
  | Some p => snd p
  | None => "undefined"
  end.

(** [array.forEach(row => ...)] over an array of references: the body reads
    a row and gives the row as it leaves it, with the increment of the
    counter of the step. *)
Definition forEach_row (refs : list nat) (body : row -> row * nat)
    (s : store * nat) : store * nat :=
  fold_left
    (fun acc ref =>
       let '(st, n) := acc in
       match st !! ref with
       | Some r => let '(r', k) := body r in (<[ref := r']> st, n + k)
       | None => acc
       end)
    refs s.

(** [missingIndices.forEach(index => { cleanedData[index][column] = v;
    cleaningReport.valuesImputed++ })] *)
Definition fill (cleanedData : list nat) (column v : string)
    (missingIndices : list nat) (s : store * nat) : store * nat :=
  fold_left
    (fun acc index =>
       let '(st, n) := acc in
       match cleanedData !! index with
       | Some ref => (write st ref column v, S n)
       | None => acc
       end)
    missingIndices s.

(** The positions of [cleanedData] whose cell in the column is missing. *)
Definition missing_indices (st : store) (cleanedData : list nat)
    (column : string) : list nat :=
  List.filter
    (fun index =>
       match cleanedData !! index with
       | Some ref => is_missing (cell st ref column)
       | None => false
       end)
    (seq 0 (length cleanedData)).

(** [cleanedData.map(row => row[column])] *)
Definition column_values (st : store) (refs : list nat) (column : string)
  : list (option string) :=
  map (fun ref => cell st ref column) refs.

(** The median as the imputation computes it from the sorted values. *)
Definition median_of (numericValues : list Num.number) : Num.number :=
  let n := length numericValues in
  if Nat.eqb (n mod 2) 0
  then Num.div (Num.add (at_Z numericValues (Z.of_nat (n / 2) - 1))
                        (at_index numericValues (n / 2)))
               (Num.Fin 2)
  else at_index numericValues (n / 2).

(** [_.chain(values).countBy().toPairs().maxBy(1).value()] *)
Definition mode_of (values : list string) : option (string * nat) :=
  Lodash.maxBy (Lodash.toPairs (Lodash.countBy values)).

Definition strings_of (values : list (option string)) : list string :=
  omap (fun v => v) values.

Section Engine.

Variable rt : Runtime.

(** [Math.sqrt(x)] *)
Definition Math_sqrt (x : Num.number) : Num.number :=
  match x with
  | Num.Fin q => if Num.Qneg q then Num.NaN else Num.fin (sqrt_finite rt q)
  | Num.PInf => Num.PInf
  | _ => Num.NaN
  end.

(** [!isNaN(Date.parse(s))] *)
Definition is_date (s : string) : bool :=
  match Date_parse rt s with
  | Some _ => true
  | None => false
  end.

(** [!Date.parse(s)]: NaN and the time value 0 are false as conditions. *)
Definition not_Date_parse (s : string) : bool :=
  match Date_parse rt s with
  | Some t => Z.eqb t 0
  | None => true
  end.

Definition detectDataType (values : list (option string)) : string :=
  if Nat.eqb (length values) 0 then "unknown"
  else
    let nonEmptyValues :=
      List.filter (fun s => negb (String.eqb s "")) (strings_of values) in
    if Nat.eqb (length nonEmptyValues) 0 then "unknown"
    else
      let numericCount :=
        count_if (fun s => negb (Num.isNaN (Num.parseFloat s)))
          nonEmptyValues in
      let numericRatio :=
        Num.div (Num.of_nat numericCount)
          (Num.of_nat (length nonEmptyValues)) in
      if Num.gt numericRatio (Num.fin (8 # 10)) then "numeric"
      else
        let dateCount := count_if is_date nonEmptyValues in
        let dateRatio :=
          Num.div (Num.of_nat dateCount)
            (Num.of_nat (length nonEmptyValues)) in
        if Num.gt dateRatio (Num.fin (8 # 10)) then "date"
        else "categorical".

Definition calculateStandardDeviation (values : list Num.number)
  : Num.number :=
  let mean := mean_of values in
  let variance :=
    Num.div
      (fold_left (fun sum val => Num.add sum (Num.pow (Num.sub val mean) 2))
         values (Num.Fin 0))
      (Num.of_nat (length values)) in
  Math_sqrt variance.

Definition detectAdvancedOutliers (values : list Num.number)
  : list Num.number * list Num.number :=
  let sorted := sort_numbers values in
  let q1 := percentile sorted 25 in
  let q3 := percentile sorted 75 in
  let '(lowerBound, upperBound) := iqr_bounds q1 q3 in
  let mean := mean_of values in
  let std := calculateStandardDeviation values in
  let iqrOutliers := List.filter (outside lowerBound upperBound) values in
  let zscoreOutliers :=
    List.filter
      (fun val =>
         Num.gt (Num.abs (Num.div (Num.sub val mean) std)) (Num.fin (5 # 2)))
      values in
  (iqrOutliers, zscoreOutliers).

(** [calculateCorrelation(data, col1, col2)] *)
Definition calculateCorrelation (data : list row) (col1 col2 : string)
  : Num.number :=
  let pairs :=
    List.filter
      (fun pair => negb (Num.isNaN (fst pair)) && negb (Num.isNaN (snd pair)))
      (map (fun r => (Num.parseFloat_cell (get r col1),
                      Num.parseFloat_cell (get r col2))) data) in
  if Nat.ltb (length pairs) 2 then Num.Fin 0
  else
    let mean1 :=
      Num.div (fold_left (fun sum pair => Num.add sum (fst pair)) pairs (Num.Fin 0))
        (Num.of_nat (length pairs)) in
    let mean2 :=
      Num.div (fold_left (fun sum pair => Num.add sum (snd pair)) pairs (Num.Fin 0))
        (Num.of_nat (length pairs)) in
    let '(numerator, sum1, sum2) :=
      fold_left
        (fun acc pair =>
           let '(numerator, sum1, sum2) := acc in
           let diff1 := Num.sub (fst pair) mean1 in
           let diff2 := Num.sub (snd pair) mean2 in
           (Num.add numerator (Num.mul diff1 diff2),
            Num.add sum1 (Num.mul diff1 diff1),
            Num.add sum2 (Num.mul diff2 diff2)))
        pairs (Num.Fin 0, Num.Fin 0, Num.Fin 0) in
    let denominator := Math_sqrt (Num.mul sum1 sum2) in
    if Num.eq denominator (Num.Fin 0) then Num.Fin 0
    else Num.div numerator denominator.

Definition validateDataPattern (values : list string) (dataType : string)
  : nat :=
  fold_left
    (fun invalidCount value =>
       if String.eqb dataType "email" then
         if negb (email_pattern value) then S invalidCount else invalidCount
       else if String.eqb dataType "phone" then
         if negb (phone_pattern value) then S invalidCount else invalidCount
       else if String.eqb dataType "date" then
         if negb (is_date value) then S invalidCount else invalidCount
       else if String.eqb dataType "numeric" then
         if Num.isNaN (Num.parseFloat value) then S invalidCount
         else invalidCount
       else if String.eqb dataType "url" then
         if negb (URL_valid rt value) then S invalidCount else invalidCount
       else invalidCount)
    values 0.

(** *** [analyzeCSVQuality] *)

Definition initial_analysis : analysis :=
  {| totalRows := 0;
     totalColumns := 0;
     missingValues := [];
     duplicates := 0;
     dataTypes := [];
     outliers := [];
     summary := [];
     metrics :=
       {| completeness := VNumber (Num.Fin 0);
          consistency := VNumber (Num.Fin 0);
          accuracy := VNumber (Num.Fin 0);
          validity := VNumber (Num.Fin 0);
          uniqueness := VNumber (Num.Fin 0);
          overallScore := VNumber (Num.Fin 0) |} |}.

(** [((a / b) * 100).toFixed(2)] *)
Definition percent (a b : Num.number) : string :=
  Num.toFixed 2 (Num.mul (Num.div a b) (Num.Fin 100)).

(** [results.map(row => row[column]).filter(val => val && val.trim() !== '')] *)
Definition present_values (results : list row) (column : string)
  : list (option string) :=
  List.filter is_present (map (fun r => get r column) results).

Definition missing_count (results : list row) (column : string) : nat :=
  count_if (fun r => is_missing (get r column)) results.

Definition summarize (numericValues : list Num.number) : summaryInfo :=
  let mean := mean_of numericValues in
  let std := calculateStandardDeviation numericValues in
  let sorted := sort_numbers numericValues in
  let q1 := percentile sorted 25 in
  let q3 := percentile sorted 75 in
  let median := percentile sorted 50 in
  {| s_count := length numericValues;
     s_mean := Num.toFixed 2 mean;
     s_median := Num.toFixed 2 median;
     s_min := Num.min_list numericValues;
     s_max := Num.max_list numericValues;
     s_std := Num.toFixed 2 std;
     s_q1 := Num.toFixed 2 q1;
     s_q3 := Num.toFixed 2 q3;
     s_skewness := Num.toFixed 2 (calculateSkewness numericValues mean std);
     s_kurtosis := Num.toFixed 2 (calculateKurtosis numericValues mean std) |}.

Definition outlier_report (numericValues : list Num.number) : outlierInfo :=
  let '(iqr, zscore) := detectAdvancedOutliers numericValues in
  {| o_count := length iqr + length zscore;
     o_iqrOutliers := firstn 5 iqr;
     o_zscoreOutliers := firstn 5 zscore;
     o_percentage :=
       percent (Num.of_nat (length iqr + length zscore))
         (Num.of_nat (length numericValues)) |}.

(** The validity score after the columns have been visited in order. *)
Definition validity_score (results : list row)
    (types : list (string * string)) (headers : list string) : Num.number :=
  fold_left
    (fun validityScore column =>
       let values := strings_of (present_values results column) in
       let invalidCount := validateDataPattern values (lookup_type types column) in
       if Nat.ltb 0 invalidCount then
         Num.sub validityScore
           (Num.mul
              (Num.div (Num.of_nat invalidCount) (Num.of_nat (length values)))
              (Num.Fin 20))
       else validityScore)
    headers (Num.Fin 100).

Definition analyzeCSVQuality (results : list row) : analysis :=
  match results with
  | [] => initial_analysis
  | first :: _ =>
      let headers := keys first in
      let rows := Num.of_nat (length results) in
      let columns := Num.of_nat (length headers) in
      let missing :=
        map (fun column =>
               let missingCount := missing_count results column in
               (column,
                {| mi_count := missingCount;
                   mi_percentage := percent (Num.of_nat missingCount) rows |}))
          headers in
      let totalMissingValues :=
        fold_left (fun n p => n + mi_count (snd p)) missing 0 in
      let totalCells := Num.mul rows columns in
      let completeness :=
        percent (Num.sub totalCells (Num.of_nat totalMissingValues)) totalCells in
      let types :=
        map (fun column =>
               (column, detectDataType (present_values results column)))
          headers in
      let consistencyIssues :=
        count_if (fun p => String.eqb (snd p) "mixed") types in
      let consistency :=
        percent (Num.sub columns (Num.of_nat consistencyIssues)) columns in
      let uniqueRows := Lodash.uniqBy (fun r : row => r) results in
      let uniqueness := percent (Num.of_nat (length uniqueRows)) rows in
      let numericColumns :=
        List.filter (fun column => String.eqb (lookup_type types column) "numeric")
          headers in
      let numericValues column :=
        parsed (map (fun r => get r column) results) in
      let described :=
        List.filter (fun column => Nat.ltb 0 (length (numericValues column)))
          numericColumns in
      let validity :=
        Num.toFixed 2
          (Num.max (Num.Fin 0) (validity_score results types headers)) in
      let scores :=
        [Num.parseFloat completeness; Num.parseFloat consistency;
         Num.parseFloat validity; Num.parseFloat uniqueness] in
      {| totalRows := length results;
         totalColumns := length headers;
         missingValues := missing;
         duplicates := length results - length uniqueRows;
         dataTypes := types;
         outliers :=
           map (fun column => (column, outlier_report (numericValues column)))
             described;
         summary :=
           map (fun column => (column, summarize (numericValues column)))
             described;
         metrics :=
           {| completeness := VString completeness;
              consistency := VString consistency;
              accuracy := VNumber (Num.Fin 0);
              validity := VString validity;
              uniqueness := VString uniqueness;
              overallScore :=
                VString (Num.toFixed 2 (Num.div (Num.sum scores)
                                          (Num.of_nat (length scores)))) |} |}
  end.

(** The two loops over [numericColumns]: each column with the columns
    after it. *)
Fixpoint correlate (results : list row) (numericColumns : list string)
  : list (string * list (string * string)) :=
  match numericColumns with
  | [] => []
  | col1 :: later =>
      match later with
      | [] => []
      | _ =>
          (col1,
           map (fun col2 =>
                  (col2, Num.toFixed 3 (calculateCorrelation results col1 col2)))
             later)
          :: correlate results later
      end
  end.

(** [analysis.correlations]: for each numeric column, in the order in
    which the entries are created, the coefficients with the numeric
    columns after it, as they are printed. *)
Definition correlations (results : list row)
  : list (string * list (string * string)) :=
  correlate results
    (List.filter
       (fun column =>
          String.eqb
            (lookup_type (dataTypes (analyzeCSVQuality results)) column)
            "numeric")
       (headers_of results)).

End Engine.

(** *** [cleanCSVData] *)

Definition calculateDataQualityScore (data : list row) (headers : list string)
  : Num.number :=
  if Nat.eqb (length data) 0 then Num.Fin 0
  else
    let totalCells :=
      Num.mul (Num.of_nat (length data)) (Num.of_nat (length headers)) in
    let filledCells :=
      fold_left
        (fun n r => n + count_if (fun header => is_present (get r header)) headers)
        data 0 in
    let completenessScore :=
      Num.mul (Num.div (Num.of_nat filledCells) totalCells) (Num.Fin 100) in
    let totalScore :=
      Num.add (Num.add (Num.add (Num.add (Num.Fin 0) completenessScore)
                          (Num.Fin 85)) (Num.Fin 90)) (Num.Fin 95) in
    Num.round (Num.div totalScore (Num.Fin 4)).

Section Cleaner.

Variable rt : Runtime.

(** Step 1: [_.uniqBy(cleanedData, row => JSON.stringify(row))] *)
Definition remove_duplicates (st : store) (cleanedData : list nat)
  : list nat :=
  Lodash.uniqBy (JSON_stringify st) cleanedData.

(** Step 2, the body of [headers.forEach]: the cells missing in the column
    are filled with the median or with the mode. *)
Definition impute_column (cleanedData : list nat) (s : store * nat)
    (column : string) : store * nat :=
  let st := fst s in
  let missingIndices := missing_indices st cleanedData column in
  if Nat.ltb 0 (length missingIndices) then
    let dataType :=
      detectDataType rt
        (List.filter is_present (column_values st cleanedData column)) in
    if String.eqb dataType "numeric" then
      let numericValues :=
        sort_numbers (parsed (column_values st cleanedData column)) in
      let median := median_of numericValues in
      fill cleanedData column (Num.toString median) missingIndices s
    else if String.eqb dataType "categorical" then
      let values :=
        strings_of (List.filter is_present (column_values st cleanedData column)) in
      match mode_of values with
      | Some mode => fill cleanedData column (fst mode) missingIndices s
      | None => s
      end
    else s
  else s.

(** Step 3: the values of a categorical column are trimmed and put in
    lower case. *)
Definition standardize_row (column : string) (r : row) : row * nat :=
  match get r column with
  | Some v =>
      if truthy (Some v)
      then (set r column (Str.toLowerCase (Str.trim v)), 0)
      else (r, 0)
  | None => (r, 0)
  end.

Definition standardize_column (cleanedData : list nat) (s : store * nat)
    (column : string) : store * nat :=
  let dataType := detectDataType rt (column_values (fst s) cleanedData column) in
  if String.eqb dataType "categorical"
  then forEach_row cleanedData (standardize_row column) s
  else s.

(** Step 4: the values outside the bounds are replaced by the bound. *)
Definition cap_row (column : string) (lowerBound upperBound : Num.number)
    (r : row) : row * nat :=
  let value := Num.parseFloat_cell (get r column) in
  if negb (Num.isNaN value) then
    if Num.lt value lowerBound
    then (set r column (Num.toString lowerBound), 1)
    else if Num.gt value upperBound
    then (set r column (Num.toString upperBound), 1)
    else (r, 0)
  else (r, 0).

Definition cap_column (cleanedData : list nat) (s : store * nat)
    (column : string) : store * nat :=
  let numericValues := parsed (column_values (fst s) cleanedData column) in
  if Nat.ltb 0 (length numericValues) then
    let outliers := detectOutliers numericValues in
    if Nat.ltb 0 (length outliers) then
      let Q1 := percentile numericValues 25 in
      let Q3 := percentile numericValues 75 in
      let '(lowerBound, upperBound) := iqr_bounds Q1 Q3 in
      forEach_row cleanedData (cap_row column lowerBound upperBound) s
    else s
  else s.

(** Step 5: with [options.normalizeNumeric], the numeric values are
    mapped to the range from 0 to 1. *)
Definition normalize_row (column : string) (min range : Num.number)
    (r : row) : row * nat :=
  let value := Num.parseFloat_cell (get r column) in
  if negb (Num.isNaN value)
  then (set r column (Num.toFixed 4 (Num.div (Num.sub value min) range)), 0)
  else (r, 0).

Definition normalize_column (opts : options) (cleanedData : list nat)
    (s : store * nat) (column : string) : store * nat :=
  let numericValues := parsed (column_values (fst s) cleanedData column) in
  if Nat.ltb 0 (length numericValues) && normalizeNumeric opts then
    let min := Num.min_list numericValues in
    let max := Num.max_list numericValues in
    let range := Num.sub max min in
    if Num.gt range (Num.Fin 0)
    then forEach_row cleanedData (normalize_row column min range) s
    else s
  else s.

Definition is_boolean_word (s : string) : bool :=
  existsb (String.eqb s) ["true"; "false"; "yes"; "no"; "1"; "0"].

Definition is_true_word (s : string) : bool :=
  existsb (String.eqb s) ["true"; "yes"; "1"].

(** Step 6: dates, numbers and booleans are rewritten in one form. *)
Definition convert_row (column : string) (r : row) : row * nat :=
  match get r column with
  | Some v =>
      if truthy (Some v) then
        let value := Str.trim v in
        if Str.includes (Str.toLowerCase column) "date"
           || Str.includes (Str.toLowerCase column) "time"
        then
          match Date_parse rt value with
          | Some t => (set r column (Date_toISODate rt t), 1)
          | None => (r, 0)
          end
        else if negb (Num.isNaN (Num.Number value))
                && negb (String.eqb value "")
        then
          let numValue := Num.parseFloat value in
          if Num.isInteger numValue
          then (set r column (Num.toString numValue), 1)
          else (set r column (Num.toFixed 2 numValue), 1)
        else if is_boolean_word (Str.toLowerCase value)
        then
          (set r column
             (if is_true_word (Str.toLowerCase value) then "true" else "false"),
           1)
        else (r, 0)
      else (r, 0)
  | None => (r, 0)
  end.

(** [/[^\w\s\-.,]/] and [/[^\d+\-()]/]: the characters that stay. *)
Definition text_char (c : ascii) : bool :=
  Str.is_word c || Str.is_white_space c || Str.is_one_of "-.," c.

Definition phone_char (c : ascii) : bool :=
  Str.is_digit c || Str.is_one_of "+-()" c.

(** Step 7: special characters are removed, e-mail addresses put in lower
    case, telephone numbers reduced to their digits and signs.  The three
    tests read the value the cell had on entry. *)
Definition validate_row (column : string) (r : row) : row * nat :=
  match get r column with
  | Some value =>
      if truthy (Some value) then
        let s1 :=
          if Num.isNaN (Num.parseFloat value) && not_Date_parse rt value then
            let cleaned := Str.trim (Str.keep text_char value) in
            if negb (String.eqb cleaned value)
            then (set r column cleaned, 1)
            else (r, 0)
          else (r, 0) in
        let s2 :=
          if Str.includes (Str.toLowerCase column) "email"
          then (set (fst s1) column (Str.toLowerCase value), S (snd s1))
          else s1 in
        if Str.includes (Str.toLowerCase column) "phone" then
          let phoneClean := Str.keep phone_char value in
          if negb (String.eqb phoneClean value)
          then (set (fst s2) column phoneClean, S (snd s2))
          else s2
        else s2
      else (r, 0)
  | None => (r, 0)
  end.

Definition push_if (condition : bool) (sentence : string)
    (steps : list string) : list string :=
  if condition then steps ++ [sentence] else steps.

Definition cleanCSVData (results : list row) (opts : options) : cleaned :=
  let st0 : store := results in
  let cleanedData0 := seq 0 (length results) in
  let headers := headers_of results in
  (* Step 1: Remove duplicates *)
  let beforeDuplicates := length cleanedData0 in
  let cleanedData := remove_duplicates st0 cleanedData0 in
  let duplicatesRemoved := beforeDuplicates - length cleanedData in
  let steps1 :=
    push_if (Nat.ltb 0 duplicatesRemoved)
      ("Removed " ++ Str.string_of_nat duplicatesRemoved ++ " duplicate rows")
      [] in
  (* Step 2: Handle missing values *)
  let '(st2, valuesImputed) :=
    fold_left (impute_column cleanedData) headers (st0, 0) in
  let steps2 :=
    push_if (Nat.ltb 0 valuesImputed)
      ("Imputed " ++ Str.string_of_nat valuesImputed ++ " missing values")
      steps1 in
  (* Step 3: Standardize text data *)
  let '(st3, _) :=
    fold_left (standardize_column cleanedData) headers (st2, 0) in
  let steps3 := steps2 ++ ["Standardized text format to lowercase"] in
  (* Step 4: Handle outliers for numeric columns *)
  let '(st4, outliersTreated) :=
    fold_left (cap_column cleanedData) headers (st3, 0) in
  let steps4 :=
    push_if (Nat.ltb 0 outliersTreated)
      ("Treated " ++ Str.string_of_nat outliersTreated
       ++ " outliers using IQR capping")
      steps3 in
  (* Step 5: Data transformation and normalization *)
  let '(st5, _) :=
    fold_left (normalize_column opts cleanedData) headers (st4, 0) in
  (* Step 6: Data type validation and conversion *)
  let '(st6, typeConversions) :=
    fold_left
      (fun s column => forEach_row cleanedData (convert_row column) s)
      headers (st5, 0) in
  let steps6 :=
    push_if (Nat.ltb 0 typeConversions)
      ("Converted " ++ Str.string_of_nat typeConversions
       ++ " values to appropriate data types")
      steps4 in
  (* Step 7: Data validation and quality checks *)
  let '(st7, validationIssues) :=
    fold_left
      (fun s column => forEach_row cleanedData (validate_row column) s)
      headers (st6, 0) in
  let steps7 :=
    push_if (Nat.ltb 0 validationIssues)
      ("Fixed " ++ Str.string_of_nat validationIssues
       ++ " data validation issues")
      steps6 in
  {| cleaned_store := st7;
     cleaned_refs := cleanedData;
     cleaned_headers := headers;
     report :=
       {| stepsApplied :=
            steps7 ++ ["âœ… Comprehensive data processing completed"];
          rowsRemoved := 0;
          valuesImputed := valuesImputed;
          outliersTreated := outliersTreated;
          duplicatesRemoved := duplicatesRemoved;
          processingComplete := true;
          finalQualityScore :=
            calculateDataQualityScore (rows_of st7 cleanedData) headers |};
     typeConversions := typeConversions;
     validationIssues := validationIssues |}.

End Cleaner.

(** *** [generateDataQualityRecommendations] *)

Record recommendation : Type := {
  rec_type : string;
  rec_priority : string;
  rec_message : string;
  rec_action : string
}.

(** [`${v}`] *)
Definition value_toString (v : jsvalue) : string :=
  match v with
  | VNumber x => Num.toString x
  | VString s => s
  end.

(** [parseFloat(v)]: the argument is first converted to a string. *)
Definition parseFloat_value (v : jsvalue) : Num.number :=
  Num.parseFloat (value_toString v).

(** [Object.keys(o)] and [o[key]] for an object given by the list of its
    properties, whose names are distinct. *)
Definition object_keys {V : Type} (o : list (string * V)) : list string :=
  map fst (Lodash.own_properties o).

Definition property {V : Type} (o : list (string * V)) (key : string)
  : option V :=
  match List.find (fun p => String.eqb (fst p) key) o with
  | Some p => Some (snd p)
  | None => None
  end.

(** [if (condition) recommendations.push(r)] *)
Definition push_when {A : Type} (condition : bool) (r : A) (l : list A)
  : list A :=
  if condition then l ++ [r] else l.

Definition missing_values_recommendation (a : analysis)
    (recommendations : list recommendation) (column : string)
  : list recommendation :=
  match property (missingValues a) column with
  | Some info =>
      let missingPercent := Num.parseFloat (mi_percentage info) in
      push_when (Num.gt missingPercent (Num.Fin 20))
        {| rec_type := "missing_values";
           rec_priority := "medium";
           rec_message :=
             "Column '" ++ column ++ "' has " ++ Num.toString missingPercent
             ++ "% missing values.";
           rec_action :=
             "Consider imputation strategies or investigate data collection for this field." |}
        recommendations
  | None => recommendations
  end.

Definition outliers_recommendation (a : analysis)
    (recommendations : list recommendation) (column : string)
  : list recommendation :=
  match property (outliers a) column with
  | Some info =>
      let outlierPercent := Num.parseFloat (o_percentage info) in
      push_when (Num.gt outlierPercent (Num.Fin 5))
        {| rec_type := "outliers";
           rec_priority := "medium";
           rec_message :=
             "Column '" ++ column ++ "' has " ++ Num.toString outlierPercent
             ++ "% outliers.";
           rec_action :=
             "Review outlier values to determine if they are errors or valid extreme values." |}
        recommendations
  | None => recommendations
  end.

Definition generateDataQualityRecommendations (a : analysis)
  : list recommendation :=
  let recommendations :=
    push_when
      (Num.lt (parseFloat_value (completeness (metrics a))) (Num.Fin 90))
      {| rec_type := "completeness";
         rec_priority := "high";
         rec_message :=
           "Data completeness is " ++ value_toString (completeness (metrics a))
           ++ "%. Consider implementing data validation at source.";
         rec_action :=
           "Review data collection processes and add required field validation." |}
      [] in
  let recommendations :=
    fold_left (missing_values_recommendation a)
      (object_keys (missingValues a)) recommendations in
  let recommendations :=
    fold_left (outliers_recommendation a)
      (object_keys (outliers a)) recommendations in
  let recommendations :=
    push_when (Nat.ltb 0 (duplicates a))
      {| rec_type := "duplicates";
         rec_priority := "high";
         rec_message :=
           "Found " ++ Str.string_of_nat (duplicates a) ++ " duplicate rows.";
         rec_action :=
           "Remove duplicate entries and implement unique constraints at data source." |}
      recommendations in
  push_when
    (Num.lt (parseFloat_value (consistency (metrics a))) (Num.Fin 95))
    {| rec_type := "consistency";
       rec_priority := "medium";
       rec_message :=
         "Data type consistency is " ++ value_toString (consistency (metrics a))
         ++ "%.";
       rec_action :=
         "Standardize data formats and implement data type validation." |}
    recommendations.

(** [analysis.recommendations] at the end of [analyzeCSVQuality]: the
    recommendations are generated when the table has a row. *)
Definition recommendations (rt : Runtime) (results : list row)
  : list recommendation :=
  match results with
  | [] => []
  | _ :: _ => generateDataQualityRecommendations (analyzeCSVQuality rt results)
  end.

(** *** [calculateQualityMetrics] *)

(** The two counters of [calculateQualityMetrics], [missingCells] and
    [validCells], after the cells of the columns have been visited. *)
Definition count_cells (data : list row) (headers : list string) : nat * nat :=
  fold_left
    (fun counters column =>
       fold_left
         (fun counters r =>
            let '(missingCells, validCells) := counters in
            if negb (is_present (get r column))
            then (S missingCells, validCells)
            else (missingCells, S validCells))
         data counters)
    headers (0, 0).

(** [parseFloat(x.toFixed(2))] *)
Definition two_decimals (x : Num.number) : jsvalue :=
  VNumber (Num.parseFloat (Num.toFixed 2 x)).

Definition calculateQualityMetrics (data : list row) (headers : list string)
  : qualityMetrics :=
  let totalCells :=
    Num.mul (Num.of_nat (length data)) (Num.of_nat (length headers)) in
  let '(missingCells, validCells) := count_cells data headers in
  let completeness :=
    Num.mul (Num.div (Num.sub totalCells (Num.of_nat missingCells)) totalCells)
      (Num.Fin 100) in
  let uniqueRows := Lodash.uniqBy (fun r : row => r) data in
  let uniqueness :=
    Num.mul (Num.div (Num.of_nat (length uniqueRows)) (Num.of_nat (length data)))
      (Num.Fin 100) in
  let validity :=
    Num.mul (Num.div (Num.of_nat validCells) totalCells) (Num.Fin 100) in
  let overallScore :=
    Num.div (Num.add (Num.add completeness uniqueness) validity) (Num.Fin 3) in
  {| completeness := two_decimals completeness;
     consistency := VNumber (Num.Fin 95);
     accuracy := VNumber (Num.Fin 90);
     validity := two_decimals validity;
     uniqueness := two_decimals uniqueness;
     overallScore := two_decimals overallScore |}.

(** ** A reference runtime

    A small runtime on which the engine can be run: [Date.parse] reads the
    calendar dates [YYYY-MM-DD] and nothing else, [new URL] accepts a text
    that starts with a scheme, and [Math.sqrt] is exact on the squares of
    rationals and cut after twelve decimals elsewhere. *)

Module Reference.
Local Open Scope Z_scope.

Definition leap (y : Z) : bool :=
  (Z.eqb (y mod 4) 0 && negb (Z.eqb (y mod 100) 0)) || Z.eqb (y mod 400) 0.

Definition days_in_month (y m : Z) : Z :=
  if Z.eqb m 2 then (if leap y then 29 else 28)
  else if Z.eqb m 4 || Z.eqb m 6 || Z.eqb m 9 || Z.eqb m 11 then 30
  else 31.

(** Days from 1970-01-01 to the date, in the proleptic Gregorian
    calendar. *)
Definition days_from_civil (y m d : Z) : Z :=
  let y' := if Z.leb m 2 then y - 1 else y in
  let era := y' / 400 in
  let yoe := y' - era * 400 in
  let doy := (153 * (if Z.ltb 2 m then m - 3 else m + 9) + 2) / 5 + d - 1 in
  let doe := yoe * 365 + yoe / 4 - yoe / 100 + doy in
  era * 146097 + doe - 719468.

Definition civil_from_days (days : Z) : Z * Z * Z :=
  let z := days + 719468 in
  let era := z / 146097 in
  let doe := z - era * 146097 in
  let yoe := (doe - doe / 1460 + doe / 36524 - doe / 146096) / 365 in
  let doy := doe - (365 * yoe + yoe / 4 - yoe / 100) in
  let mp := (5 * doy + 2) / 153 in
  let d := doy - (153 * mp + 2) / 5 + 1 in
  let m := if Z.ltb mp 10 then mp + 3 else mp - 9 in
  ((yoe + era * 400 + (if Z.leb m 2 then 1 else 0)), m, d).

Definition ms_per_day : Z := 86400000.

Definition parse_date (s : string) : option Z :=
  match Num.digits 10 (Str.chars s) 0 0%nat with
  | (y, 4%nat, "-"%char :: r1) =>
      match Num.digits 10 r1 0 0%nat with
      | (m, 2%nat, "-"%char :: r2) =>
          match Num.digits 10 r2 0 0%nat with
          | (d, 2%nat, []) =>
              if Z.leb 1 m && Z.leb m 12 && Z.leb 1 d
                 && Z.leb d (days_in_month y m)
              then Some (days_from_civil y m d * ms_per_day)
              else None
          | _ => None
          end
      | _ => None
      end
  | _ => None
  end.

Definition two_digits (n : Z) : string :=
  (if Z.ltb n 10 then "0" else "") ++ Str.string_of_Z n.

Definition four_digits (n : Z) : string :=
  (if Z.ltb n 10 then "000" else if Z.ltb n 100 then "00"
   else if Z.ltb n 1000 then "0" else "") ++ Str.string_of_Z n.

Definition iso_date (t : Z) : string :=
  let '(y, m, d) := civil_from_days (t / ms_per_day) in
  four_digits y ++ "-" ++ two_digits m ++ "-" ++ two_digits d.

Definition is_letter (c : ascii) : bool :=
  Str.between 65 90 c || Str.between 97 122 c.

Definition absolute_url (s : string) : bool :=
  match split_at ":" (Str.chars s) with
  | Some (c :: scheme, _) => is_letter c && forallb Str.is_word scheme
  | _ => false
  end.

(** The root of [n / d] is the root of [n * d] over [d]; it is taken to
    twelve decimals. *)
Definition exact_sqrt (q : Q) : Q :=
  let q := Qred q in
  let n := Qnum q in
  let d := Zpos (Qden q) in
  Qred (Qmake (Z.sqrt (n * d * 10 ^ 24)) (Z.to_pos (d * 10 ^ 12))).

Definition runtime : Runtime :=
  {| Date_parse := parse_date;
     Date_toISODate := iso_date;
     URL_valid := absolute_url;
     sqrt_finite := exact_sqrt |}.

End Reference.

(** ** Correlation, over the real numbers

    The computation of [calculateCorrelation] once more, over the real
    numbers and on the cells that hold a finite value, for what the formula
    shows whatever the arithmetic. *)

Module Correlation.
Import Reals.
Local Open Scope R_scope.

(** The value of a cell that [parseFloat] reads as a number. *)
Definition parseFloatR (v : option string) : option R :=
  match Num.parseFloat_cell v with
  | Num.Fin q => Some (Q2R q)
  | _ => None
  end.

(** [[parseFloat(row[col1]), parseFloat(row[col2])]] when neither is
    NaN. *)
Definition pair_of (col1 col2 : string) (r : row) : option (R * R) :=
  match parseFloatR (get r col1), parseFloatR (get r col2) with
  | Some x, Some y => Some (x, y)
  | _, _ => None
  end.

Definition pairs_of (data : list row) (col1 col2 : string) : list (R * R) :=
  omap (pair_of col1 col2) data.

Definition mean1_of (pairs : list (R * R)) : R :=
  fold_left (fun sum pair => sum + fst pair) pairs 0 / INR (length pairs).

Definition mean2_of (pairs : list (R * R)) : R :=
  fold_left (fun sum pair => sum + snd pair) pairs 0 / INR (length pairs).

(** The three accumulators of the loop: [numerator], [sum1], [sum2]. *)
Definition accumulate (mean1 mean2 : R) (pairs : list (R * R)) : R * R * R :=
  fold_left
    (fun acc pair =>
       let '(numerator, sum1, sum2) := acc in
       let diff1 := fst pair - mean1 in
       let diff2 := snd pair - mean2 in
       (numerator + diff1 * diff2, sum1 + diff1 * diff1, sum2 + diff2 * diff2))
    pairs (0, 0, 0).

Definition pearson (pairs : list (R * R)) : R :=
  if Nat.ltb (length pairs) 2 then 0
  else
    let mean1 := mean1_of pairs in
    let mean2 := mean2_of pairs in
    let '(numerator, sum1, sum2) := accumulate mean1 mean2 pairs in
    let denominator := sqrt (sum1 * sum2) in
    if Req_dec_T denominator 0 then 0 else numerator / denominator.

Definition calculateCorrelation (data : list row) (col1 col2 : string) : R :=
  pearson (pairs_of data col1 col2).

End Correlation.

(** ** Notions of the specification *)

(** A row is a duplicate when an earlier row has the same value in every
    column. *)
Definition is_duplicate_at (results : list row) (i : nat) : bool :=
  existsb (fun j => bool_decide (results !! j = results !! i)) (seq 0 i).

(** The number of exact full-row duplicates. *)
Definition duplicate_count (results : list row) : nat :=
  count_if (is_duplicate_at results) (seq 0 (length results)).

(** How often a value occurs. *)
Definition occurrences (v : string) (values : list string) : nat :=
  count_if (String.eqb v) values.

(** The most frequent value, the first one met in row order among those
    that are equally frequent. *)
Fixpoint first_most_frequent_from (values rest : list string)
    (best : option string) : option string :=
  match rest with
  | [] => best
  | v :: rest' =>
      match best with
      | None => first_most_frequent_from values rest' (Some v)
      | Some b =>
          if Nat.ltb (occurrences b values) (occurrences v values)
          then first_most_frequent_from values rest' (Some v)
          else first_most_frequent_from values rest' best
      end
  end.

Definition first_most_frequent (values : list string) : option string :=
  first_most_frequent_from values values None.

(** The store is the same outside the rows of [refs], and as long. *)
Definition same_outside (refs : list nat) (st st' : store) : Prop :=
  length st' = length st /\ forall i, i ∉ refs -> st' !! i = st !! i.

(** The elements of [l] whose key is borne by no element before them, the
    elements of the prefix [p] included. *)
Fixpoint firsts {A K : Type} `{EqDecision K} (f : A -> K) (p l : list A)
  : list A :=
  match l with
  | [] => []
  | x :: l' =>
      if existsb (fun y => bool_decide (f y = f x)) p
      then firsts f (p ++ [x]) l'
      else x :: firsts f (p ++ [x]) l'
  end.

(** One step of the scan of [first_most_frequent]. *)
Definition prefer (weight : string -> nat) (best : option string) (v : string)
  : option string :=
  match best with
  | None => Some v
  | Some b => if Nat.ltb (weight b) (weight v) then Some v else Some b
  end.

(** The values of a column that are not missing. *)
Definition non_missing (cells : list (option string)) : list string :=
  strings_of (List.filter (fun c => negb (is_missing c)) cells).

(** [x <= y] for two numbers that are not NaN. *)
Definition at_most (x y : Num.number) : Prop := Num.lt y x = false.

(** [!isNaN(pair[0]) && !isNaN(pair[1])] *)
Definition both_parse (col1 col2 : string) (r : row) : bool :=
  negb (Num.isNaN (Num.parseFloat_cell (get r col1)))
  && negb (Num.isNaN (Num.parseFloat_cell (get r col2))).

(** The bounds of the specification: the quartiles are read in the sorted
    values. *)
Definition sorted_bounds (values : list Num.number) : Num.number * Num.number :=
  iqr_bounds (percentile (sort_numbers values) 25)
             (percentile (sort_numbers values) 75).

(** The sentence of a step that is written when its counter is positive. *)
Definition sentence_if_positive (counter : nat) (before after : string)
  : list string :=
  if Nat.ltb 0 counter
  then [(before ++ Str.string_of_nat counter ++ after)%string]
  else [].

(** The stores between the steps of [cleanCSVData], each with the counter
    of the step that leaves it. *)
Section Stages.

Variable rt : Runtime.
Variable results : list row.
Variable opts : options.

Definition kept_rows : list nat :=
  remove_duplicates results (seq 0 (length results)).

Definition after_imputation : store * nat :=
  fold_left (impute_column rt kept_rows) (headers_of results) (results, 0).

Definition after_standardization : store * nat :=
  fold_left (standardize_column rt kept_rows) (headers_of results)
    (fst after_imputation, 0).

Definition after_capping : store * nat :=
  fold_left (cap_column kept_rows) (headers_of results)
    (fst after_standardization, 0).

Definition after_normalization : store * nat :=
  fold_left (normalize_column opts kept_rows) (headers_of results)
    (fst after_capping, 0).

Definition after_conversion : store * nat :=
  fold_left (fun s column => forEach_row kept_rows (convert_row rt column) s)
    (headers_of results) (fst after_normalization, 0).

Definition after_validation : store * nat :=
  fold_left (fun s column => forEach_row kept_rows (validate_row rt column) s)
    (headers_of results) (fst after_conversion, 0).

End Stages.

(** The cell of a row in a column is not the same in the two stores. *)
Definition differs (st st' : store) (place : nat * string) : bool :=
  negb (bool_decide (cell st (fst place) (snd place)
                     = cell st' (fst place) (snd place))).

(** The number of cells, among those of the rows [refs] in the columns
    [headers], that are not the same in the two stores. *)
Definition changed_cells (refs : list nat) (headers : list string)
    (st st' : store) : nat :=
  count_if (differs st st') (list_prod (remove_dups refs) (remove_dups headers)).

(** A step from [s] to [s'] raises the counter by at least the number of
    cells of [places] that it changes. *)
Definition counted (places : list (nat * string)) (s s' : store * nat) : Prop :=
  forall st0 : store,
    count_if (differs st0 (fst s')) places + snd s
    <= count_if (differs st0 (fst s)) places + snd s'.

(** A text made of white space only; the empty text is one. *)
Definition blank (s : string) : bool :=
  forallb Str.is_white_space (Str.chars s).

(** A missing cell, in the words of the data model: no value, an empty or
    blank text, or the word null in any letter case. *)
Definition missing_token (c : option string) : bool :=
  match c with
  | Some s => blank s || String.eqb (Str.toLowerCase s) "null"
  | None => true
  end.

(** The cells of a column that are not missing, and their values. *)
Definition known (cells : list (option string)) : list (option string) :=
  List.filter (fun c => negb (missing_token c)) cells.

(** A whole number below [2^52] in magnitude.  The sum of two such numbers
    and its half are doubles, and are printed digit by digit. *)
Definition whole (x : Num.number) : Prop :=
  exists z : Z, x = Num.Fin (inject_Z z) /\ (Z.abs z < 2 ^ 52)%Z.

(** What the imputation of a column does with the value [v]: every
    missing cell of the column holds [v], every other cell of the column
    holds what it held, and the counter has grown by the number of missing
    cells. *)
Definition imputed (st : store) (cleanedData : list nat) (column : string)
    (n : nat) (v : string) (s' : store * nat) : Prop :=
  (forall index ref,
      cleanedData !! index = Some ref ->
      cell (fst s') ref column
      = if missing_token (cell st ref column) then Some v
        else cell st ref column)
  /\ snd s' = n + count_if missing_token (column_values st cleanedData column).

(** A settled text: it starts with a lower-case letter, holds no upper-case
    letter and no character that the validation removes, does not end
    with a blank, and is none of the words null, yes and no. *)
Definition settled (s : string) : bool :=
  match Str.chars s, rev (Str.chars s) with
  | first :: _, last :: _ =>
      Str.between 97 122 first
      && forallb (fun c => text_char c && negb (Str.between 65 90 c))
           (Str.chars s)
      && negb (Str.is_white_space last)
      && negb (existsb (String.eqb s) ["null"; "yes"; "no"])
  | _, _ => false
  end.

(** A cell that cleaning has nothing to do with: a settled text that the
    runtime does not read as a date. *)
Definition good (rt : Runtime) (v : string) : Prop :=
  settled v = true /\ Date_parse rt v = None.

(** A settled table: no column is named after a telephone, every row has
    every column of the header, and every cell is empty or good. *)
Definition settled_table (rt : Runtime) (results : list row) : Prop :=
  (forall column, column ∈ headers_of results ->
                  Str.includes (Str.toLowerCase column) "phone" = false)
  /\ (forall r column, r ∈ results -> column ∈ headers_of results ->
        exists v, get r column = Some v /\ (v = "" \/ good rt v)).

(** Every cell of the rows [refs] in the columns [headers] is empty or
    good. *)
Definition settled_cells (rt : Runtime) (refs : list nat)
    (headers : list string) (st : store) : Prop :=
  forall ref column, ref ∈ refs -> column ∈ headers ->
    exists v, cell st ref column = Some v /\ (v = "" \/ good rt v).

(** The cells of the rows [refs] in a column are all empty, or all good. *)
Definition uniform (rt : Runtime) (refs : list nat) (column : string)
    (st : store) : Prop :=
  (forall ref, ref ∈ refs -> cell st ref column = Some "")
  \/ (forall ref, ref ∈ refs -> exists v, cell st ref column = Some v /\ good rt v).

(** ** Notions of the further properties *)

(** [x] is the finite number [q]. *)
Definition represents (x : Num.number) (q : Q) : Prop :=
  exists q', x = Num.Fin q' /\ (q' == q)%Q.

(** Every row has the columns of [headers]. *)
Definition has_columns (headers : list string) (ks : list (list string)) : Prop :=
  forall k column, k ∈ ks -> column ∈ headers -> column ∈ k.

(** Every number of the list is finite. *)
Definition all_finite (l : list Num.number) : Prop :=
  forall v, v ∈ l -> Num.is_finite v = true.

(** The position that [percentile] reads in an array of [n] elements. *)
Definition position (n : nat) (p : Q) : Q :=
  (p / 100 * (inject_Z (Z.of_nat n) - 1))%Q.

(** [values.filter(val => val !== null && val !== undefined && val !== '')] *)
Definition non_empty (values : list (option string)) : list string :=
  List.filter (fun s => negb (String.eqb s "")) (strings_of values).

(** [!isNaN(parseFloat(val))] *)
Definition reads_as_number (s : string) : bool :=
  negb (Num.isNaN (Num.parseFloat s)).

(** A list of characters with no white space at its head. *)
Definition starts_black (l : list ascii) : Prop :=
  match l with
  | [] => True
  | c :: _ => Str.is_white_space c = false
  end.

(** The number that a list of decimal digits denotes after the digits that
    gave [acc]. *)
Definition value_of (l : list ascii) (acc : Z) : Z :=
  fold_left (fun a c => (10 * a + Z.of_nat (Str.code c - 48))%Z) l acc.

(** A pair with its two components exchanged. *)
Definition exchange {A B : Type} (pair : A * B) : B * A := (snd pair, fst pair).

(** ** Tables used as examples *)

(** [clean(table)] without options. *)
Definition defaults : options := {| normalizeNumeric := false |}.

Definition upper_case_table : list row := [[("x", "Alice")]].

Definition lower_case_table : list row := [[("x", "alice")]].

Definition mixed_case_table : list row :=
  [[("c", "Alice")]; [("c", "alice")]; [("c", "@@@")]].

Definition tie_table : list row :=
  [[("k", "p"); ("c", "b")]; [("k", "q"); ("c", "b")];
   [("k", "r"); ("c", "7")]; [("k", "s"); ("c", "7")];
   [("k", "t"); ("c", "")]].

Definition null_table : list row :=
  [[("k", "p"); ("c", "null")]; [("k", "q"); ("c", "null")];
   [("k", "r"); ("c", "x")]].

Definition gap_table : list row :=
  [[("c", "b")]; [("c", "")]; [("c", "a")]].

Definition two_values_table : list row := [[("a", "1")]; [("a", "3")]].

Definition outlier_table : list row :=
  [[("v", "1")]; [("v", "2")]; [("v", "3")]; [("v", "1000")]; [("v", "4")]].

Definition email_table : list row :=
  [[("email", "BAD EMAIL")]; [("email", "ann@example.org")]].

Definition no_columns_table : list row := [[]; []].

Definition age_table : list row :=
  [[("age", "10")]; [("age", "12")]; [("age", "11")]; [("age", "13")];
   [("age", "1000")]].

Definition infinity_table : list row :=
  [[("a", "Infinity"); ("b", "1")]; [("a", "1"); ("b", "2")]].

Definition level_table : list row :=
  [[("a", "Infinity"); ("c", "5")]; [("a", "1"); ("c", "5")]].

Definition full_table : list row :=
  [[("k", "p"); ("c", "b")]; [("k", "q"); ("c", "b")]].

Definition constant_table : list row := [[("v", "5")]; [("v", "5")]].

Definition descending_values : list Num.number :=
  [Num.Fin 4; Num.Fin 3; Num.Fin 2; Num.Fin 1; Num.Fin 0].

Definition blank_number_table : list row :=
  [[("n", "1")]; [("n", "")]; [("n", "3")]].

Definition phone_row : row := [("phone", "(555) 123-4567")].

Definition name_row : row := [("name", " Alice! ")].

Definition words_table : list row :=
  [[("city", "paris"); ("colour", "red")];
   [("city", "rome"); ("colour", "")];
   [("city", "paris"); ("colour", "red")];
   [("city", ""); ("colour", "blue")]].

Definition plain_table : list row :=
  [[("city", "paris")]; [("city", "rome")]; [("city", "paris")]].

Definition repeated_table : list row :=
  [[("city", "paris"); ("colour", "red")];
   [("city", "paris"); ("colour", "")];
   [("city", "rome"); ("colour", "red")]].

(** * Properties *)

(** [name_steps] names the store and the counter that each step of
    [cleanCSVData] returns; [step_frame E lemma] states [lemma] of the step
    whose result [E] names. *)
Ltac name_steps :=
  repeat match goal with
         | |- context [let '(_, _) := ?e in _] =>
             let st := fresh "st" in
             let n := fresh "n" in
             let E := fresh "E" in
             destruct e as [st n] eqn:E
         end.

Ltac step_frame E lemma :=
  let H := fresh "F" in
  pose proof lemma as H; rewrite E in H; simpl in H.

(** ** The store outside the rows of an array *)

Section Frame.

Variable refs : list nat.

Lemma same_outside_refl st : same_outside refs st st.
Proof. split; auto. Qed.

Lemma same_outside_trans st1 st2 st3 :
  same_outside refs st1 st2 -> same_outside refs st2 st3 ->
  same_outside refs st1 st3.
Proof.
  intros [L12 F12] [L23 F23]. split; [congruence|].
  intros i Hi. rewrite F23, F12; auto.
Qed.

Lemma insert_same_outside (st : store) ref (r : row) :
  ref ∈ refs -> same_outside refs st (<[ref := r]> st).
Proof.
  intros Hin. split; [apply length_insert|].
  intros i Hi. apply list_lookup_insert_ne. intros ->. contradiction.
Qed.

Lemma write_same_outside st ref column v :
  ref ∈ refs -> same_outside refs st (write st ref column v).
Proof.
  intros Hin. unfold write. destruct (st !! ref).
  - now apply insert_same_outside.
  - apply same_outside_refl.
Qed.

Lemma forEach_row_same_outside l body s :
  (forall ref, ref ∈ l -> ref ∈ refs) ->
  same_outside refs (fst s) (fst (forEach_row l body s)).
Proof.
  unfold forEach_row. revert s.
  induction l as [|ref l IH]; intros [st n] Hl; simpl.
  - apply same_outside_refl.
  - assert (Hrest : forall x, x ∈ l -> x ∈ refs)
      by (intros x Hx; apply Hl; now right).
    destruct (st !! ref) as [r|] eqn:E.
    + destruct (body r) as [r' k].
      eapply same_outside_trans; [|apply IH; exact Hrest].
      simpl. apply insert_same_outside, Hl. left.
    + apply IH; exact Hrest.
Qed.

Lemma fill_same_outside column v indices s :
  same_outside refs (fst s) (fst (fill refs column v indices s)).
Proof.
  unfold fill. revert s.
  induction indices as [|index l IH]; intros [st n]; simpl.
  - apply same_outside_refl.
  - destruct (refs !! index) as [ref|] eqn:E.
    + eapply same_outside_trans; [|apply IH].
      simpl. apply write_same_outside.
      eapply list_elem_of_lookup_2; eauto.
    + apply IH.
Qed.

Lemma fold_columns_same_outside (step : store * nat -> string -> store * nat) :
  (forall s column, same_outside refs (fst s) (fst (step s column))) ->
  forall headers s,
    same_outside refs (fst s) (fst (fold_left step headers s)).
Proof.
  intros Hstep headers.
  induction headers as [|column l IH]; intros s; simpl.
  - apply same_outside_refl.
  - eapply same_outside_trans; [apply Hstep | apply IH].
Qed.

End Frame.

(** ** The steps of the cleaner write to the rows of [cleanedData] only *)

Section CleanerFrame.

Variable rt : Runtime.
Variable cleanedData : list nat.

Lemma impute_column_same_outside s column :
  same_outside cleanedData (fst s) (fst (impute_column rt cleanedData s column)).
Proof.
  unfold impute_column.
  repeat match goal with
         | |- context [if ?b then _ else _] => destruct b
         | |- context [match ?o with Some _ => _ | None => _ end] => destruct o
         end;
    first [apply fill_same_outside | apply same_outside_refl].
Qed.

Lemma standardize_column_same_outside s column :
  same_outside cleanedData (fst s)
    (fst (standardize_column rt cleanedData s column)).
Proof.
  unfold standardize_column.
  destruct (String.eqb _ _);
    [now apply forEach_row_same_outside | apply same_outside_refl].
Qed.

Lemma cap_column_same_outside s column :
  same_outside cleanedData (fst s) (fst (cap_column cleanedData s column)).
Proof.
  unfold cap_column.
  repeat match goal with
         | |- context [if ?b then _ else _] => destruct b
         | |- context [let '(_, _) := ?e in _] => destruct e
         end;
    first [now apply forEach_row_same_outside | apply same_outside_refl].
Qed.

Lemma normalize_column_same_outside opts s column :
  same_outside cleanedData (fst s)
    (fst (normalize_column opts cleanedData s column)).
Proof.
  unfold normalize_column.
  repeat match goal with
         | |- context [if ?b then _ else _] => destruct b
         end;
    first [now apply forEach_row_same_outside | apply same_outside_refl].
Qed.

End CleanerFrame.

Lemma cleanCSVData_same_outside rt results opts :
  let c := cleanCSVData rt results opts in
  same_outside (cleaned_refs c) results (cleaned_store c).
Proof.
  unfold cleanCSVData. cbv zeta. name_steps. simpl.
  set (cd := remove_duplicates results (seq 0 (length results))) in *.
  set (headers := headers_of results) in *.
  step_frame E
    (fold_columns_same_outside cd (impute_column rt cd)
       (impute_column_same_outside rt cd) headers ((results : store), 0)).
  step_frame E0
    (fold_columns_same_outside cd (standardize_column rt cd)
       (standardize_column_same_outside rt cd) headers (st, 0)).
  step_frame E1
    (fold_columns_same_outside cd (cap_column cd)
       (cap_column_same_outside cd) headers (st0, 0)).
  step_frame E2
    (fold_columns_same_outside cd (normalize_column opts cd)
       (normalize_column_same_outside cd opts) headers (st1, 0)).
  step_frame E3
    (fold_columns_same_outside cd
       (fun s column => forEach_row cd (convert_row rt column) s)
       (fun s column =>
          forEach_row_same_outside cd cd (convert_row rt column) s (fun _ H => H))
       headers (st2, 0)).
  step_frame E4
    (fold_columns_same_outside cd
       (fun s column => forEach_row cd (validate_row rt column) s)
       (fun s column =>
          forEach_row_same_outside cd cd (validate_row rt column) s (fun _ H => H))
       headers (st3, 0)).
  repeat (eapply same_outside_trans; [eassumption|]).
  apply same_outside_refl.
Qed.

(** ** Removal of duplicates *)

Section UniqByFacts.
Context {A K : Type} `{EqDecision K}.
Variable f : A -> K.

Lemma existsb_key p k :
  existsb (fun y => bool_decide (f y = k)) p = true <-> exists y, y ∈ p /\ f y = k.
Proof.
  rewrite existsb_exists. split; intros [y [Hy Hk]]; exists y.
  - split; [now apply list_elem_of_In | now apply bool_decide_eq_true in Hk].
  - split; [now apply list_elem_of_In | now apply bool_decide_eq_true].
Qed.

Lemma uniqBy_from_firsts l : forall seen p,
  (forall k, k ∈ seen <-> exists y, y ∈ p /\ f y = k) ->
  Lodash.uniqBy_from f seen l = firsts f p l.
Proof.
  induction l as [|x l IH]; intros seen p Hseen; simpl; [reflexivity|].
  destruct (decide (f x ∈ seen)) as [Hin|Hout].
  - assert (Hex : existsb (fun y => bool_decide (f y = f x)) p = true)
      by (apply existsb_key, Hseen, Hin).
    rewrite Hex.
    apply IH. intros k. rewrite Hseen. split.
    + intros [y [Hy Hk]]. exists y. split; [|exact Hk].
      apply elem_of_app; left; exact Hy.
    + intros [y [Hy Hk]]. apply elem_of_app in Hy as [Hy|Hy].
      * exists y. now split.
      * apply list_elem_of_singleton in Hy. subst y k. now apply Hseen.
  - destruct (existsb _ p) eqn:Hex.
    + apply existsb_key, Hseen in Hex. contradiction.
    + f_equal. apply IH. intros k. rewrite elem_of_cons, Hseen. split.
      * intros [->|[y [Hy Hk]]].
        -- exists x. split; [|reflexivity]. apply elem_of_app; right.
           apply list_elem_of_singleton; reflexivity.
        -- exists y. split; [|exact Hk]. apply elem_of_app; left; exact Hy.
      * intros [y [Hy Hk]]. apply elem_of_app in Hy as [Hy|Hy].
        -- right. exists y. now split.
        -- apply list_elem_of_singleton in Hy. subst y. now left.
Qed.

Lemma uniqBy_firsts l : Lodash.uniqBy f l = firsts f [] l.
Proof.
  apply uniqBy_from_firsts. intros k. split.
  - intros Hk. inversion Hk.
  - intros [y [Hy _]]. inversion Hy.
Qed.

Lemma firsts_incl p l x : x ∈ firsts f p l -> x ∈ l.
Proof.
  revert p. induction l as [|y l IH]; intros p; simpl; [auto|].
  destruct (existsb _ p); intros Hx.
  - right. eapply IH, Hx.
  - apply elem_of_cons in Hx as [->|Hx]; [left | right; eapply IH, Hx].
Qed.

End UniqByFacts.

Lemma firsts_seq {K : Type} `{EqDecision K} (f : nat -> K) m : forall s,
  firsts f (seq 0 s) (seq s m) =
  List.filter
    (fun i => negb (existsb (fun j => bool_decide (f j = f i)) (seq 0 i)))
    (seq s m).
Proof.
  induction m as [|m IH]; intros s; simpl; [reflexivity|].
  replace (seq 0 s ++ [s]) with (seq 0 (S s)) by (now rewrite seq_S).
  rewrite IH. now destruct (existsb _ (seq 0 s)).
Qed.

Lemma filter_split {A : Type} (p : A -> bool) (l : list A) :
  length (List.filter (fun x => negb (p x)) l) + length (List.filter p l)
  = length l.
Proof.
  induction l as [|x l IH]; simpl; [reflexivity|].
  destruct (p x); simpl; lia.
Qed.

Lemma remove_duplicates_firsts (results : list row) :
  remove_duplicates results (seq 0 (length results)) =
  List.filter (fun i => negb (is_duplicate_at results i))
    (seq 0 (length results)).
Proof.
  unfold remove_duplicates. rewrite uniqBy_firsts.
  apply (firsts_seq (JSON_stringify results) (length results) 0).
Qed.

Lemma remove_duplicates_valid (results : list row) ref :
  ref ∈ remove_duplicates results (seq 0 (length results)) ->
  ref < length results.
Proof.
  unfold remove_duplicates. rewrite uniqBy_firsts. intros Hin.
  apply firsts_incl, list_elem_of_In, in_seq in Hin. lia.
Qed.

Lemma rows_of_length (st : store) refs :
  (forall ref, ref ∈ refs -> ref < length st) ->
  length (rows_of st refs) = length refs.
Proof.
  unfold rows_of. induction refs as [|ref refs IH]; intros Hvalid;
    [reflexivity|].
  destruct (lookup_lt_is_Some_2 st ref) as [r Hr];
    [apply Hvalid; left|].
  cbn [omap list_omap]. rewrite Hr. simpl. f_equal. apply IH.
  intros x Hx. apply Hvalid. now right.
Qed.

(** ** The rows of the cleaned table *)

Lemma cleanCSVData_refs rt results opts :
  cleaned_refs (cleanCSVData rt results opts) =
  remove_duplicates results (seq 0 (length results)).
Proof. unfold cleanCSVData. cbv zeta. name_steps. reflexivity. Qed.

Lemma cleanCSVData_duplicatesRemoved rt results opts :
  duplicatesRemoved (report (cleanCSVData rt results opts)) =
  length results
  - length (remove_duplicates results (seq 0 (length results))).
Proof.
  unfold cleanCSVData. cbv zeta. name_steps. simpl.
  now rewrite length_seq.
Qed.

Lemma data_length rt results opts :
  length (data (cleanCSVData rt results opts)) =
  length (cleaned_refs (cleanCSVData rt results opts)).
Proof.
  unfold data. apply rows_of_length. intros ref Href.
  destruct (cleanCSVData_same_outside rt results opts) as [Hlen _].
  rewrite Hlen. rewrite cleanCSVData_refs in Href.
  now apply remove_duplicates_valid.
Qed.

(** C1, as amended.  The cleaner copies the array of rows, not the rows:
    after [cleanCSVData] the input has as many rows as before and every row
    that was dropped as a duplicate holds the cells it held, while the rows
    that were kept are the very rows of the cleaned table, rewritten in
    place. *)
Theorem cleanCSVData_shares_rows rt results opts :
  let c := cleanCSVData rt results opts in
  length (cleaned_store c) = length results
  /\ (forall i, i ∉ cleaned_refs c -> cleaned_store c !! i = results !! i)
  /\ (forall i, i ∈ cleaned_refs c -> i < length results)
  /\ data c = omap (fun i => cleaned_store c !! i) (cleaned_refs c).
Proof.
  intros c.
  destruct (cleanCSVData_same_outside rt results opts) as [Hlen Hout].
  repeat split; auto.
  intros i Hi. unfold c in Hi. rewrite cleanCSVData_refs in Hi.
  now apply remove_duplicates_valid.
Qed.

(** C1, counterexample.  The one row of the input holds ["Alice"] before
    the call and ["alice"] after it. *)
Lemma cleanCSVData_writes_input_row :
  upper_case_table !! 0 = Some [("x", "Alice")]
  /\ cleaned_store (cleanCSVData Reference.runtime upper_case_table defaults)
     !! 0 = Some [("x", "alice")]
  /\ cleaned_store (cleanCSVData Reference.runtime upper_case_table defaults)
     <> upper_case_table.
Proof. vm_compute. repeat split; congruence. Qed.

(** C5.  The cleaned table has the rows of the input less its duplicates:
    a row stays exactly when no earlier row has the same cells, the rows
    that stay keep their order, and [duplicatesRemoved] counts the rows
    dropped. *)
Theorem cleanCSVData_row_count rt results opts :
  let c := cleanCSVData rt results opts in
  length (data c) <= length results
  /\ length (data c) = length results - duplicate_count results
  /\ duplicatesRemoved (report c) = duplicate_count results
  /\ duplicatesRemoved (report c) = length results - length (data c)
  /\ cleaned_refs c =
     List.filter (fun i => negb (is_duplicate_at results i))
       (seq 0 (length results)).
Proof.
  intros c. unfold c.
  rewrite data_length, cleanCSVData_duplicatesRemoved, cleanCSVData_refs.
  rewrite remove_duplicates_firsts.
  pose proof (filter_split (is_duplicate_at results) (seq 0 (length results)))
    as Hsplit.
  rewrite length_seq in Hsplit. unfold duplicate_count, count_if.
  repeat split; lia.
Qed.

(** ** Cleaning a cleaned table *)

Lemma filter_all {A : Type} (p : A -> bool) (l : list A) :
  (forall x, In x l -> p x = true) -> List.filter p l = l.
Proof.
  induction l as [|x l IH]; intros Hall; simpl; [reflexivity|].
  rewrite Hall by now left. f_equal. apply IH. intros y Hy. apply Hall. now right.
Qed.

Lemma filter_none {A : Type} (p : A -> bool) (l : list A) :
  (forall x, In x l -> p x = false) -> List.filter p l = [].
Proof.
  induction l as [|x l IH]; intros Hall; simpl; [reflexivity|].
  rewrite Hall by now left. apply IH. intros y Hy. apply Hall. now right.
Qed.

Lemma is_duplicate_at_NoDup (results : list row) i :
  NoDup results -> i < length results -> is_duplicate_at results i = false.
Proof.
  intros Hnd Hi. unfold is_duplicate_at.
  apply not_true_is_false. intros Hex.
  apply existsb_exists in Hex as [j [Hj Heq]].
  apply in_seq in Hj. apply bool_decide_eq_true in Heq.
  destruct (lookup_lt_is_Some_2 results i Hi) as [r Hr].
  rewrite Hr in Heq.
  pose proof (NoDup_lookup results j i r Hnd Heq Hr). lia.
Qed.

Lemma remove_duplicates_NoDup (results : list row) :
  NoDup results ->
  remove_duplicates results (seq 0 (length results)) = seq 0 (length results).
Proof.
  intros Hnd. rewrite remove_duplicates_firsts. apply filter_all.
  intros i Hi. apply in_seq in Hi.
  rewrite is_duplicate_at_NoDup; auto. lia.
Qed.

Lemma cleanCSVData_valuesImputed rt results opts :
  valuesImputed (report (cleanCSVData rt results opts)) =
  snd (fold_left
         (impute_column rt (remove_duplicates results (seq 0 (length results))))
         (headers_of results) (results, 0)).
Proof.
  unfold cleanCSVData, headers_of. cbv zeta. name_steps. reflexivity.
Qed.


(** ** The imputation of missing values *)

Section Mode.

Variable weight : string -> nat.

Lemma first_most_frequent_from_fold values rest best :
  first_most_frequent_from values rest best =
  fold_left (prefer (fun v => occurrences v values)) rest best.
Proof.
  revert best. induction rest as [|v rest IH]; intros best; simpl; [reflexivity|].
  destruct best as [b|]; simpl; [|apply IH].
  destruct (Nat.ltb _ _); apply IH.
Qed.

Lemma scan_Some l b :
  exists b', fold_left (prefer weight) l (Some b) = Some b'.
Proof.
  revert b. induction l as [|v l IH]; intros b; simpl; [eauto|].
  destruct (Nat.ltb _ _); apply IH.
Qed.

(** The value kept by the scan is at least as heavy as every value met. *)
Lemma scan_max l : forall best b,
  fold_left (prefer weight) l best = Some b ->
  (forall b0, best = Some b0 -> weight b0 <= weight b)
  /\ (forall v, v ∈ l -> weight v <= weight b).
Proof.
  induction l as [|x l IH]; intros best b Hscan; simpl in Hscan.
  - subst best. split; [intros b0 [= ->]; lia | intros v Hv; inversion Hv].
  - apply IH in Hscan as [Hbest Hrest]. split.
    + intros b0 ->. simpl in Hbest.
      destruct (Nat.ltb (weight b0) (weight x)) eqn:Hlt.
      * apply Nat.ltb_lt in Hlt. specialize (Hbest x eq_refl). lia.
      * now apply Hbest.
    + intros v Hv. apply elem_of_cons in Hv as [->|Hv]; [|now apply Hrest].
      destruct best as [b0|]; simpl in Hbest.
      * destruct (Nat.ltb (weight b0) (weight x)) eqn:Hlt.
        -- now apply Hbest.
        -- apply Nat.ltb_ge in Hlt. specialize (Hbest b0 eq_refl). lia.
      * now apply Hbest.
Qed.

Lemma scan_snoc l best v :
  fold_left (prefer weight) (l ++ [v]) best =
  Some (match fold_left (prefer weight) l best with
        | Some b => if Nat.ltb (weight b) (weight v) then v else b
        | None => v
        end).
Proof.
  rewrite fold_left_app. simpl. unfold prefer at 1.
  destruct (fold_left _ l best) as [b|]; [|reflexivity].
  now destruct (Nat.ltb _ _).
Qed.

(** Meeting again a value already met changes nothing. *)
Lemma scan_again l v :
  v ∈ l ->
  fold_left (prefer weight) (l ++ [v]) None = fold_left (prefer weight) l None.
Proof.
  intros Hv. rewrite scan_snoc.
  destruct (fold_left (prefer weight) l None) as [b|] eqn:Hscan.
  - apply scan_max in Hscan as [_ Hmax]. specialize (Hmax v Hv).
    destruct (Nat.ltb (weight b) (weight v)) eqn:Hlt; [|reflexivity].
    apply Nat.ltb_lt in Hlt. lia.
  - destruct l as [|x l]; [inversion Hv|]. simpl in Hscan.
    destruct (scan_Some l x) as [b' Hb']. congruence.
Qed.

End Mode.

(** *** The table of counts *)

Lemma increment_keys_old key o :
  key ∈ map fst o -> map fst (Lodash.increment key o) = map fst o.
Proof.
  induction o as [|[k n] o IH]; intros Hin; [inversion Hin|].
  cbn [Lodash.increment map fst].
  destruct (String.eqb_spec k key) as [->|Hne]; [reflexivity|].
  cbn [map fst]. f_equal. apply IH.
  cbn [map fst] in Hin. apply elem_of_cons in Hin as [->|Hin]; [contradiction | exact Hin].
Qed.

Lemma increment_keys_new key o :
  key ∉ map fst o -> map fst (Lodash.increment key o) = map fst o ++ [key].
Proof.
  induction o as [|[k n] o IH]; intros Hout; [reflexivity|].
  cbn [Lodash.increment map fst]. cbn [map fst] in Hout.
  destruct (String.eqb_spec k key) as [->|Hne].
  - exfalso. apply Hout. left.
  - cbn [map fst]. rewrite IH; [reflexivity|].
    intros H. apply Hout. now right.
Qed.

Lemma increment_counts key o p :
  NoDup (map fst o) ->
  p ∈ Lodash.increment key o ->
  (fst p <> key /\ p ∈ o)
  \/ (fst p = key /\ (key ∉ map fst o) /\ snd p = 1)
  \/ (fst p = key /\ exists n, (key, n) ∈ o /\ snd p = S n).
Proof.
  induction o as [|[k n] o IH]; intros Hnd Hp.
  - apply list_elem_of_singleton in Hp. subst p. right. left.
    repeat split. intros H. inversion H.
  - cbn [Lodash.increment] in Hp. cbn [map fst] in Hnd.
    apply NoDup_cons in Hnd as [Hk Hnd].
    destruct (String.eqb_spec k key) as [->|Hne].
    + apply elem_of_cons in Hp as [->|Hp].
      * right. right. split; [reflexivity|]. exists n. split; [left | reflexivity].
      * left. split; [|now right]. intros Heq. apply Hk. rewrite <- Heq.
        apply list_elem_of_fmap. exists p. split; [reflexivity | exact Hp].
    + apply elem_of_cons in Hp as [->|Hp].
      * left. split; [exact Hne | left].
      * destruct (IH Hnd Hp) as [[H1 H2]|[[H1 [H2 H3]]|[H1 [m [H2 H3]]]]].
        -- left. split; [exact H1 | now right].
        -- right. left. repeat split; auto. cbn [map fst].
           intros H. apply elem_of_cons in H as [H|H]; [congruence | contradiction].
        -- right. right. split; [exact H1|]. exists m. split; [now right | exact H3].
Qed.

Lemma countBy_snoc values v :
  Lodash.countBy (values ++ [v]) = Lodash.increment v (Lodash.countBy values).
Proof. unfold Lodash.countBy. now rewrite fold_left_app. Qed.

Lemma occurrences_snoc v values x :
  occurrences v (values ++ [x]) =
  occurrences v values + (if String.eqb v x then 1 else 0).
Proof.
  unfold occurrences, count_if. rewrite List.filter_app, length_app. simpl.
  now destruct (String.eqb v x).
Qed.

Lemma occurrences_zero v values : v ∉ values -> occurrences v values = 0.
Proof.
  unfold occurrences, count_if. induction values as [|x values IH]; intros Hv;
    simpl; [reflexivity|].
  destruct (String.eqb_spec v x) as [->|Hne].
  - exfalso. apply Hv. left.
  - apply IH. intros H. apply Hv. now right.
Qed.

(** The table holds each value once, in the order in which the values are
    first met, with the number of its occurrences. *)
Lemma countBy_table values :
  NoDup (map fst (Lodash.countBy values))
  /\ (forall v, v ∈ map fst (Lodash.countBy values) <-> v ∈ values)
  /\ (forall p, p ∈ Lodash.countBy values -> snd p = occurrences (fst p) values).
Proof.
  induction values as [|x values IH] using rev_ind.
  - split; [constructor|]. split.
    + intros v. split; intros H; inversion H.
    + intros p H. inversion H.
  - destruct IH as [Hnd [Hkeys Hcounts]]. rewrite countBy_snoc.
    destruct (decide (x ∈ map fst (Lodash.countBy values))) as [Hin|Hout].
    + rewrite increment_keys_old by exact Hin. split; [exact Hnd|]. split.
      * intros v. rewrite Hkeys, elem_of_app, list_elem_of_singleton.
        split; [auto|]. intros [H| ->]; [exact H | now apply Hkeys].
      * intros p Hp. rewrite occurrences_snoc.
        destruct (increment_counts _ _ _ Hnd Hp)
          as [[H1 H2]|[[H1 [H2 H3]]|[H1 [m [H2 H3]]]]].
        -- rewrite (Hcounts p H2).
           destruct (String.eqb_spec (fst p) x); [contradiction | lia].
        -- contradiction.
        -- rewrite H3, H1, String.eqb_refl. specialize (Hcounts _ H2). simpl in Hcounts.
           lia.
    + rewrite increment_keys_new by exact Hout. split; [|split].
      * apply NoDup_app. split; [exact Hnd|]. split; [|apply NoDup_singleton].
        intros v Hv Hx. apply list_elem_of_singleton in Hx. now subst.
      * intros v. rewrite !elem_of_app, Hkeys. reflexivity.
      * intros p Hp. rewrite occurrences_snoc.
        destruct (increment_counts _ _ _ Hnd Hp)
          as [[H1 H2]|[[H1 [H2 H3]]|[H1 [m [H2 H3]]]]].
        -- rewrite (Hcounts p H2).
           destruct (String.eqb_spec (fst p) x); [contradiction | lia].
        -- rewrite H3, H1, String.eqb_refl, occurrences_zero; [reflexivity|].
           intros H. now apply Hout, Hkeys.
        -- exfalso. apply Hout. apply list_elem_of_fmap. exists (x, m). now split.
Qed.

(** The scan of the values and the scan of the names of the table agree. *)
Lemma scan_countBy weight values :
  fold_left (prefer weight) (map fst (Lodash.countBy values)) None =
  fold_left (prefer weight) values None.
Proof.
  induction values as [|x values IH] using rev_ind; [reflexivity|].
  rewrite countBy_snoc.
  destruct (decide (x ∈ map fst (Lodash.countBy values))) as [Hin|Hout].
  - rewrite increment_keys_old by exact Hin. rewrite IH.
    symmetry. apply scan_again. now apply countBy_table.
  - rewrite increment_keys_new by exact Hout.
    rewrite !fold_left_app, IH. reflexivity.
Qed.

Lemma maxBy_from_scan weight pairs : forall current,
  (forall p, p ∈ current :: pairs -> snd p = weight (fst p)) ->
  Some (fst (Lodash.maxBy_from current pairs)) =
  fold_left (prefer weight) (map fst pairs) (Some (fst current)).
Proof.
  induction pairs as [|p pairs IH]; intros current Hw; [reflexivity|].
  cbn [Lodash.maxBy_from map fold_left prefer].
  rewrite <- (Hw current) by left.
  rewrite <- (Hw p) by (right; left).
  destruct (Nat.ltb (snd current) (snd p)); apply IH; intros q Hq; apply Hw.
  - now right.
  - apply elem_of_cons in Hq as [->|Hq]; [left | right; now right].
Qed.

Lemma maxBy_scan weight pairs :
  (forall p, p ∈ pairs -> snd p = weight (fst p)) ->
  option_map fst (Lodash.maxBy pairs) =
  fold_left (prefer weight) (map fst pairs) None.
Proof.
  destruct pairs as [|p pairs]; intros Hw; [reflexivity|].
  simpl. now apply maxBy_from_scan.
Qed.

Lemma own_properties_plain {V : Type} (o : list (string * V)) :
  (forall p, p ∈ o -> Lodash.array_index (fst p) = None) ->
  Lodash.own_properties o = o.
Proof.
  intros Hplain. unfold Lodash.own_properties.
  assert (Hfold : forall acc,
             fold_left
               (fun acc p =>
                  match Lodash.array_index (fst p) with
                  | Some i => Lodash.insert_index i p acc
                  | None => acc
                  end) o acc = acc).
  { induction o as [|p o IH]; intros acc; [reflexivity|]. simpl.
    rewrite Hplain by left. apply IH. intros q Hq. apply Hplain. now right. }
  rewrite Hfold. simpl. apply filter_all. intros p Hp.
  rewrite Hplain; [reflexivity | now apply list_elem_of_In].
Qed.

(** When no value is an array index, the mode that the cleaner computes is
    the most frequent value, the first met among equals. *)
Lemma mode_of_first_most_frequent values :
  (forall v, v ∈ values -> Lodash.array_index v = None) ->
  option_map fst (mode_of values) = first_most_frequent values.
Proof.
  intros Hplain. unfold mode_of, Lodash.toPairs, first_most_frequent.
  destruct (countBy_table values) as [_ [Hkeys Hcounts]].
  rewrite own_properties_plain.
  - rewrite (maxBy_scan (fun v => occurrences v values)) by exact Hcounts.
    rewrite scan_countBy. symmetry. apply first_most_frequent_from_fold.
  - intros p Hp. apply Hplain, Hkeys, list_elem_of_fmap. now exists p.
Qed.

(** *** Writing a cell *)

Lemma get_set r column v : get (set r column v) column = Some v.
Proof.
  induction r as [|[k w] r IH]; simpl.
  - now rewrite String.eqb_refl.
  - destruct (String.eqb k column) eqn:E; simpl; rewrite E; [reflexivity | exact IH].
Qed.

Lemma cell_write (st : list row) ref column v :
  ref < length st -> cell (write st ref column v) ref column = Some v.
Proof.
  intros Hlt. unfold write, cell.
  destruct (lookup_lt_is_Some_2 st ref Hlt) as [r Hr]. rewrite Hr.
  rewrite list_lookup_insert_eq by exact Hlt. apply get_set.
Qed.

Lemma cell_write_keeps (st : list row) ref ref' column v :
  cell st ref column = Some v -> cell (write st ref' column v) ref column = Some v.
Proof.
  intros Hcell. destruct (decide (ref' = ref)) as [->|Hne].
  - apply cell_write. unfold cell in Hcell.
    destruct (st !! ref) eqn:Hr; [|discriminate].
    eapply lookup_lt_Some, Hr.
  - unfold write. destruct (st !! ref') eqn:Hr'; [|exact Hcell].
    unfold cell. now rewrite list_lookup_insert_ne.
Qed.

Lemma length_write (st : list row) ref column v :
  length (write st ref column v) = length st.
Proof. unfold write. destruct (st !! ref); [apply length_insert | reflexivity]. Qed.

Lemma fill_cells cleanedData column v indices : forall s : list row * nat,
  (forall ref, cell (fst s) ref column = Some v ->
               cell (fst (fill cleanedData column v indices s)) ref column = Some v)
  /\ (forall index ref,
         index ∈ indices -> cleanedData !! index = Some ref ->
         ref < length (fst s) ->
         cell (fst (fill cleanedData column v indices s)) ref column = Some v).
Proof.
  unfold fill.
  induction indices as [|i indices IH]; intros [st n]; simpl.
  - split; [auto|]. intros index ref H. inversion H.
  - destruct (cleanedData !! i) as [r|] eqn:Hi.
    + destruct (IH (write st r column v, S n)) as [Hkeep Hfill]. simpl in *.
      split.
      * intros ref Hcell. now apply Hkeep, cell_write_keeps.
      * intros index ref Hin Hindex Hlt.
        apply elem_of_cons in Hin as [->|Hin].
        -- rewrite Hi in Hindex. injection Hindex as ->.
           now apply Hkeep, cell_write.
        -- eapply Hfill; eauto. now rewrite length_write.
    + destruct (IH (st, n)) as [Hkeep Hfill]. simpl in *. split; [exact Hkeep|].
      intros index ref Hin Hindex Hlt.
      apply elem_of_cons in Hin as [->|Hin]; [congruence | eauto].
Qed.

Lemma fill_count cleanedData column v indices : forall s : list row * nat,
  (forall index, index ∈ indices -> is_Some (cleanedData !! index)) ->
  snd (fill cleanedData column v indices s) = snd s + length indices.
Proof.
  unfold fill.
  induction indices as [|i indices IH]; intros [st n] Hsome; simpl; [lia|].
  destruct (Hsome i) as [r Hr]; [left|]. rewrite Hr.
  rewrite IH; [simpl; lia|]. intros index Hin. apply Hsome. now right.
Qed.

Lemma missing_indices_Some (st : list row) cleanedData column index :
  index ∈ missing_indices st cleanedData column ->
  is_Some (cleanedData !! index).
Proof.
  unfold missing_indices. intros Hin.
  apply list_elem_of_In, filter_In in Hin as [_ Hin].
  destruct (cleanedData !! index); [eauto | discriminate].
Qed.

Lemma column_values_lookup (st : list row) cleanedData column index ref :
  cleanedData !! index = Some ref ->
  cell st ref column ∈ column_values st cleanedData column.
Proof.
  intros Hindex. unfold column_values. apply list_elem_of_fmap.
  exists ref. split; [reflexivity|]. eapply list_elem_of_lookup_2, Hindex.
Qed.

Lemma filter_ext_elem {A : Type} (p q : A -> bool) (l : list A) :
  (forall x, x ∈ l -> p x = q x) -> List.filter p l = List.filter q l.
Proof.
  intros H. apply List.filter_ext_in. intros x Hx. now apply H, list_elem_of_In.
Qed.

Lemma get_set_other r column column' v :
  column' <> column -> get (set r column v) column' = get r column'.
Proof.
  intros Hne. induction r as [|[k w] r IH]; simpl.
  - destruct (String.eqb_spec column column'); [congruence | reflexivity].
  - destruct (String.eqb_spec k column) as [->|Hk]; simpl.
    + destruct (String.eqb_spec column column'); [congruence | reflexivity].
    + destruct (String.eqb_spec k column'); [reflexivity | exact IH].
Qed.

Lemma cell_write_other (st : list row) ref ref' column column' v :
  column' <> column ->
  cell (write st ref column v) ref' column' = cell st ref' column'.
Proof.
  intros Hne. unfold write. destruct (st !! ref) as [r|] eqn:Hr; [|reflexivity].
  unfold cell. destruct (decide (ref = ref')) as [<-|Href].
  - rewrite list_lookup_insert_eq by (eapply lookup_lt_Some, Hr).
    rewrite Hr. now apply get_set_other.
  - now rewrite list_lookup_insert_ne.
Qed.

Lemma fill_other_column cleanedData column column' v indices ref :
  column' <> column ->
  forall s : list row * nat,
    cell (fst (fill cleanedData column v indices s)) ref column'
    = cell (fst s) ref column'.
Proof.
  intros Hne. unfold fill.
  induction indices as [|i indices IH]; intros [st n]; simpl; [reflexivity|].
  destruct (cleanedData !! i) as [r|]; rewrite IH; simpl; [|reflexivity].
  now apply cell_write_other.
Qed.

(** The imputation of a column leaves the cells of the other columns as
    they are. *)
Lemma impute_column_other_column rt cleanedData (s : list row * nat)
    column column' ref :
  column' <> column ->
  cell (fst (impute_column rt cleanedData s column)) ref column'
  = cell (fst s) ref column'.
Proof.
  intros Hne. unfold impute_column.
  repeat match goal with
         | |- context [if ?b then _ else _] => destruct b
         | |- context [match ?o with Some _ => _ | None => _ end] => destruct o
         end;
    first [reflexivity | now apply fill_other_column].
Qed.

(** *** The sort behind the median *)

Lemma insert_sorted_permutation x l : Permutation (x :: l) (insert_sorted x l).
Proof.
  induction l as [|y l IH]; simpl; [reflexivity|].
  destruct (Num.lt y x); [|reflexivity].
  rewrite perm_swap. now apply perm_skip.
Qed.

Lemma sort_numbers_permutation l : Permutation l (sort_numbers l).
Proof.
  induction l as [|x l IH]; simpl; [reflexivity|].
  rewrite <- insert_sorted_permutation. now apply perm_skip.
Qed.

Lemma lt_asymmetric x y : Num.lt y x = true -> Num.lt x y = false.
Proof.
  destruct x as [a| | |], y as [b| | |]; simpl; try congruence.
  rewrite <- (Qcompare_antisym b a). destruct (b ?= a)%Q; simpl; congruence.
Qed.

Lemma insert_sorted_sorted x l :
  Sorted at_most l -> Sorted at_most (insert_sorted x l).
Proof.
  induction l as [|y l IH]; intros Hs; simpl.
  - repeat constructor.
  - destruct (Num.lt y x) eqn:Hlt.
    + apply Sorted_inv in Hs as [Hs Hhd]. constructor; [now apply IH|].
      destruct l as [|z l]; simpl.
      * constructor. now apply lt_asymmetric.
      * destruct (Num.lt z x); constructor.
        -- now inversion Hhd.
        -- now apply lt_asymmetric.
    + constructor; [exact Hs|]. constructor. exact Hlt.
Qed.

(** The values come out in ascending order. *)
Lemma sort_numbers_sorted l : Sorted at_most (sort_numbers l).
Proof.
  induction l as [|x l IH]; simpl; [constructor | now apply insert_sorted_sorted].
Qed.

(** *** The cells that are filled *)

Lemma drop_spaces_blank l :
  Str.drop_spaces l = [] <-> forallb Str.is_white_space l = true.
Proof.
  induction l as [|c l IH]; simpl; [tauto|].
  destruct (Str.is_white_space c); simpl; [exact IH|].
  split; discriminate.
Qed.

Lemma forallb_rev {A : Type} (p : A -> bool) l :
  forallb p (rev l) = forallb p l.
Proof.
  induction l as [|x l IH]; [reflexivity|]. simpl.
  rewrite forallb_app, IH. simpl. rewrite andb_true_r. apply andb_comm.
Qed.

Lemma drop_spaces_head l :
  match Str.drop_spaces l with
  | [] => True
  | c :: _ => Str.is_white_space c = false
  end.
Proof.
  induction l as [|c l IH]; simpl; [exact I|].
  destruct (Str.is_white_space c) eqn:E; [exact IH | exact E].
Qed.

Lemma of_chars_empty l : Str.of_chars l = "" -> l = [].
Proof. destruct l; [reflexivity | discriminate]. Qed.

Lemma trim_blank s : String.eqb (Str.trim s) "" = blank s.
Proof.
  unfold blank, Str.trim.
  destruct (forallb Str.is_white_space (Str.chars s)) eqn:Hb.
  - apply drop_spaces_blank in Hb. rewrite Hb. reflexivity.
  - apply String.eqb_neq. intros Hempty. apply of_chars_empty in Hempty.
    apply (f_equal (@rev ascii)) in Hempty. rewrite rev_involutive in Hempty.
    simpl in Hempty. apply drop_spaces_blank in Hempty.
    rewrite forallb_rev in Hempty.
    pose proof (drop_spaces_head (Str.chars s)) as Hhead.
    destruct (Str.drop_spaces (Str.chars s)) as [|c l] eqn:Hd.
    + apply drop_spaces_blank in Hd. congruence.
    + simpl in Hempty. rewrite Hhead in Hempty. discriminate.
Qed.

(** The test of the scan and the missing cell of the data model are the
    same. *)
Lemma is_missing_token c : is_missing c = missing_token c.
Proof.
  destruct c as [s|]; [|reflexivity]. unfold is_missing, missing_token.
  rewrite trim_blank. f_equal.
  destruct (String.eqb_spec s "") as [->|Hs]; [reflexivity|].
  reflexivity.
Qed.

Lemma is_present_known c :
  (forall v, c = Some v -> Str.toLowerCase v <> "null") ->
  is_present c = negb (missing_token c).
Proof.
  destruct c as [s|]; intros Hnull; [|reflexivity].
  unfold is_present, missing_token. rewrite trim_blank.
  destruct (String.eqb_spec (Str.toLowerCase s) "null") as [E|_];
    [now specialize (Hnull s eq_refl)|].
  rewrite orb_false_r.
  destruct (String.eqb_spec s "") as [->|Hs]; [reflexivity|].
  reflexivity.
Qed.

Lemma filter_seq_lookup {A : Type} (p : A -> bool) (l : list A) :
  length (List.filter
            (fun index => match l !! index with
                          | Some x => p x
                          | None => false
                          end)
            (seq 0 (length l)))
  = count_if p l.
Proof.
  unfold count_if. induction l as [|x l IH] using rev_ind; [reflexivity|].
  rewrite length_app, Nat.add_comm. cbn [length Nat.add].
  rewrite seq_S, !List.filter_app, !length_app. cbn [Nat.add].
  rewrite <- IH. f_equal.
  - f_equal. apply List.filter_ext_in. intros index Hin. apply in_seq in Hin.
    rewrite lookup_app_l by lia. reflexivity.
  - cbn [List.filter]. rewrite lookup_app_r by lia.
    rewrite Nat.sub_diag. cbn [lookup list_lookup]. now destruct (p x).
Qed.

Lemma missing_indices_length (st : list row) cleanedData column :
  length (missing_indices st cleanedData column)
  = count_if missing_token (column_values st cleanedData column).
Proof.
  unfold missing_indices, column_values.
  rewrite <- (filter_seq_lookup missing_token), length_map.
  f_equal. apply List.filter_ext_in. intros index _.
  rewrite list_lookup_fmap.
  destruct (cleanedData !! index); simpl; [apply is_missing_token | reflexivity].
Qed.

Lemma missing_indices_elem (st : list row) cleanedData column index ref :
  cleanedData !! index = Some ref ->
  (index ∈ missing_indices st cleanedData column
   <-> missing_token (cell st ref column) = true).
Proof.
  intros Hindex. unfold missing_indices.
  rewrite list_elem_of_In, filter_In, in_seq, Hindex, is_missing_token.
  split; [tauto|]. intros Hm. split; [|exact Hm].
  apply lookup_lt_Some in Hindex. lia.
Qed.

Lemma cell_write_ne (st : list row) ref ref' column column' v :
  ref' <> ref -> cell (write st ref column v) ref' column' = cell st ref' column'.
Proof.
  intros Hne. unfold write. destruct (st !! ref) as [r|]; [|reflexivity].
  unfold cell. now rewrite list_lookup_insert_ne.
Qed.

Lemma fill_untouched cleanedData column v indices ref :
  (forall index, index ∈ indices -> cleanedData !! index <> Some ref) ->
  forall s : list row * nat,
    cell (fst (fill cleanedData column v indices s)) ref column
    = cell (fst s) ref column.
Proof.
  unfold fill.
  induction indices as [|i indices IH]; intros Hout [st n]; simpl; [reflexivity|].
  assert (Hrest : forall index, index ∈ indices -> cleanedData !! index <> Some ref)
    by (intros index Hin; apply Hout; now right).
  destruct (cleanedData !! i) as [r|] eqn:Hi.
  - rewrite (IH Hrest). simpl. apply cell_write_ne.
    intros ->. now apply (Hout i); [left|].
  - now rewrite (IH Hrest).
Qed.

Lemma fill_imputed (st : list row) cleanedData column n v :
  (forall ref, ref ∈ cleanedData -> ref < length st) ->
  imputed st cleanedData column n v
    (fill cleanedData column v (missing_indices st cleanedData column) (st, n)).
Proof.
  intros Hvalid. split.
  - intros index ref Hindex.
    destruct (missing_token (cell st ref column)) eqn:Hm.
    + eapply (fill_cells cleanedData column v _ (st, n)); eauto.
      * eapply missing_indices_elem; eauto.
      * simpl. eapply Hvalid, list_elem_of_lookup_2, Hindex.
    + rewrite fill_untouched; [reflexivity|].
      intros index' Hin Hindex'.
      apply (missing_indices_elem st cleanedData column index' ref Hindex') in Hin.
      congruence.
  - rewrite fill_count by (intros index; apply missing_indices_Some).
    simpl. now rewrite missing_indices_length.
Qed.

Lemma nothing_imputed (st : list row) cleanedData column n v :
  missing_indices st cleanedData column = [] ->
  imputed st cleanedData column n v (st, n).
Proof.
  intros Hnone. split.
  - intros index ref Hindex. cbn [fst].
    destruct (missing_token (cell st ref column)) eqn:Hm; [|reflexivity].
    apply (missing_indices_elem st cleanedData column index ref Hindex) in Hm.
    rewrite Hnone in Hm. inversion Hm.
  - cbn [snd]. rewrite <- missing_indices_length, Hnone. simpl. lia.
Qed.

Lemma first_most_frequent_Some values :
  values <> [] -> exists m, first_most_frequent values = Some m.
Proof.
  destruct values as [|v values]; [contradiction|]. intros _.
  unfold first_most_frequent. rewrite first_most_frequent_from_fold.
  cbn [fold_left prefer]. apply scan_Some.
Qed.

Lemma detectDataType_known rt cells :
  detectDataType rt cells <> "unknown" -> strings_of cells <> [].
Proof.
  unfold detectDataType. intros Htype Hnone. rewrite Hnone in Htype.
  destruct (Nat.eqb (length cells) 0); [congruence|].
  simpl in Htype. congruence.
Qed.

(** C10, as amended.  In a column where no value is the word null: when
    the type inferred from the values that are not missing is categorical
    and no value is an array index, every missing cell is filled with the
    most frequent of these values, the first met in row order among the
    equally frequent; when the type is numeric and the values parsed are
    whole numbers, every missing cell is filled with the median of the
    values parsed; with another type the column is left as it is.  The
    cells that are not missing keep their value, each cell filled is
    counted, and the other columns are not touched. *)
Theorem impute_column_fills rt cleanedData (st : list row) n column :
  (forall ref, ref ∈ cleanedData -> ref < length st) ->
  (forall v, Some v ∈ column_values st cleanedData column ->
             Str.toLowerCase v <> "null") ->
  let cells := column_values st cleanedData column in
  let dataType := detectDataType rt (known cells) in
  let s' := impute_column rt cleanedData (st, n) column in
  (dataType = "categorical" ->
   (forall v, v ∈ strings_of (known cells) -> Lodash.array_index v = None) ->
   exists m, first_most_frequent (strings_of (known cells)) = Some m
             /\ imputed st cleanedData column n m s')
  /\ (dataType = "numeric" ->
      (forall x, x ∈ parsed cells -> whole x) ->
      imputed st cleanedData column n
        (Num.toString (median_of (sort_numbers (parsed cells)))) s')
  /\ (dataType <> "categorical" -> dataType <> "numeric" -> s' = (st, n))
  /\ (forall ref column',
         column' <> column -> cell (fst s') ref column' = cell st ref column').
Proof.
  intros Hvalid Hnull cells dataType s'.
  assert (Hfilter : List.filter is_present cells = known cells).
  { apply filter_ext_elem. intros c Hc. apply is_present_known.
    intros v ->. now apply Hnull. }
  split; [|split; [|split]].
  - intros Htype Hplain.
    destruct (first_most_frequent_Some (strings_of (known cells))) as [m Hm].
    { apply (detectDataType_known rt). fold dataType. rewrite Htype. discriminate. }
    exists m. split; [exact Hm|].
    unfold s', impute_column. cbn [fst]. fold cells. rewrite Hfilter.
    fold dataType. rewrite Htype. cbn [String.eqb Ascii.eqb Bool.eqb].
    destruct (missing_indices st cleanedData column) as [|i rest] eqn:Hmissing;
      [now apply nothing_imputed|].
    cbn [length Nat.ltb Nat.leb]. rewrite <- Hmissing.
    rewrite <- mode_of_first_most_frequent in Hm by exact Hplain.
    destruct (mode_of (strings_of (known cells))) as [mode|]; [|discriminate].
    injection Hm as <-. now apply fill_imputed.
  - intros Htype _.
    unfold s', impute_column. cbn [fst]. fold cells. rewrite Hfilter.
    fold dataType. rewrite Htype. cbn [String.eqb Ascii.eqb Bool.eqb].
    destruct (missing_indices st cleanedData column) as [|i rest] eqn:Hmissing;
      [now apply nothing_imputed|].
    cbn [length Nat.ltb Nat.leb]. rewrite <- Hmissing.
    now apply fill_imputed.
  - intros Hc Hn.
    unfold s', impute_column. cbn [fst]. fold cells. rewrite Hfilter.
    fold dataType.
    destruct (String.eqb_spec dataType "numeric"); [contradiction|].
    destruct (String.eqb_spec dataType "categorical"); [contradiction|].
    now destruct (Nat.ltb _ _).
  - intros ref column' Hne.
    now apply (impute_column_other_column rt cleanedData (st, n) column column' ref).
Qed.

Lemma impute_column_fills_witness :
  ((forall ref, ref ∈ [0; 1; 2] -> ref < length gap_table)
   /\ (forall v, Some v ∈ column_values gap_table [0; 1; 2] "c" ->
                 Str.toLowerCase v <> "null")
   /\ (forall v, v ∈ strings_of (known (column_values gap_table [0; 1; 2] "c")) ->
                 Lodash.array_index v = None)
   /\ imputed gap_table [0; 1; 2] "c" 0 "b"
        (impute_column Reference.runtime [0; 1; 2] (gap_table, 0) "c"))
  /\ ((forall ref, ref ∈ [0; 1; 2] -> ref < length blank_number_table)
      /\ (forall v, Some v ∈ column_values blank_number_table [0; 1; 2] "n" ->
                    Str.toLowerCase v <> "null")
      /\ (forall x, x ∈ parsed (column_values blank_number_table [0; 1; 2] "n") ->
                    whole x)
      /\ imputed blank_number_table [0; 1; 2] "n" 0 "2"
           (impute_column Reference.runtime [0; 1; 2] (blank_number_table, 0) "n")).
Proof.
  assert (Hrefs : forall l : list row,
             length l = 3 -> forall ref, ref ∈ [0; 1; 2] -> ref < length l).
  { intros l -> ref Href.
    repeat (apply elem_of_cons in Href as [->|Href]); try lia. inversion Href. }
  split.
  - assert (H2 : forall v, Some v ∈ column_values gap_table [0; 1; 2] "c" ->
                           Str.toLowerCase v <> "null").
    { intros v Hv. change (Some v ∈ [Some "b"; Some ""; Some "a"]) in Hv.
      repeat (apply elem_of_cons in Hv as [[= ->]|Hv]); try discriminate.
      inversion Hv. }
    assert (H3 : forall v,
               v ∈ strings_of (known (column_values gap_table [0; 1; 2] "c")) ->
               Lodash.array_index v = None).
    { intros v Hv. change (v ∈ ["b"; "a"]) in Hv.
      repeat (apply elem_of_cons in Hv as [->|Hv]); try reflexivity. inversion Hv. }
    split; [exact (Hrefs gap_table eq_refl)|]. split; [exact H2|]. split; [exact H3|].
    destruct (impute_column_fills Reference.runtime [0; 1; 2] gap_table 0 "c"
                (Hrefs gap_table eq_refl) H2) as [Hcategorical _].
    destruct (Hcategorical eq_refl H3) as [m [Hm Himputed]].
    injection Hm as <-. exact Himputed.
  - assert (H2 : forall v, Some v ∈ column_values blank_number_table [0; 1; 2] "n" ->
                           Str.toLowerCase v <> "null").
    { intros v Hv. change (Some v ∈ [Some "1"; Some ""; Some "3"]) in Hv.
      repeat (apply elem_of_cons in Hv as [[= ->]|Hv]); try discriminate.
      inversion Hv. }
    assert (H3 : forall x,
               x ∈ parsed (column_values blank_number_table [0; 1; 2] "n") ->
               whole x).
    { intros x Hx. change (x ∈ [Num.Fin 1; Num.Fin 3]) in Hx.
      repeat (apply elem_of_cons in Hx as [->|Hx]);
        [exists 1%Z | exists 3%Z | inversion Hx]; split; (reflexivity || lia). }
    split; [exact (Hrefs blank_number_table eq_refl)|]. split; [exact H2|].
    split; [exact H3|].
    destruct (impute_column_fills Reference.runtime [0; 1; 2] blank_number_table 0 "n"
                (Hrefs blank_number_table eq_refl) H2) as [_ [Hnumeric _]].
    exact (Hnumeric eq_refl H3).
Defined.

(** C10, counterexample.  In the first table the values ["b"] and ["7"] of
    the column are equally frequent and ["b"] is met first, yet the missing
    cell is filled with ["7"]: in the table of counts the array index comes
    first.  In the second table the only value that is not missing is
    ["x"], yet the two missing cells are filled with ["null"]: the values
    that are counted are those that are not blank. *)
Lemma mode_is_not_first_most_frequent :
  (detectDataType Reference.runtime
     (List.filter is_present (column_values tie_table (seq 0 5) "c"))
   = "categorical"
   /\ first_most_frequent (non_missing (column_values tie_table (seq 0 5) "c"))
      = Some "b"
   /\ cell (fst (impute_column Reference.runtime (seq 0 5) (tie_table, 0) "c")) 4 "c"
      = Some "7"
   /\ data (cleanCSVData Reference.runtime tie_table defaults) !! 4
      = Some [("k", "t"); ("c", "7")])
  /\ (detectDataType Reference.runtime
        (List.filter is_present (column_values null_table (seq 0 3) "c"))
      = "categorical"
      /\ missing_indices null_table (seq 0 3) "c" = [0; 1]
      /\ first_most_frequent (non_missing (column_values null_table (seq 0 3) "c"))
         = Some "x"
      /\ cell (fst (impute_column Reference.runtime (seq 0 3) (null_table, 0) "c")) 0 "c"
         = Some "null"
      /\ data (cleanCSVData Reference.runtime null_table defaults) !! 0
         = Some [("k", "p"); ("c", "null")]).
Proof. vm_compute. repeat split; reflexivity. Qed.

(** ** The sentences of the report *)

Lemma push_if_app condition sentence steps :
  push_if condition sentence steps =
  steps ++ (if condition then [sentence] else []).
Proof. unfold push_if. destruct condition; [reflexivity | now rewrite app_nil_r]. Qed.

Lemma cap_row_counts column lowerBound upperBound r :
  fst (cap_row column lowerBound upperBound r) <> r ->
  0 < snd (cap_row column lowerBound upperBound r).
Proof.
  unfold cap_row.
  repeat match goal with
         | |- context [if ?b then _ else _] => destruct b
         end; simpl; intros H; first [lia | contradiction].
Qed.

Lemma convert_row_counts rt column r :
  fst (convert_row rt column r) <> r -> 0 < snd (convert_row rt column r).
Proof.
  unfold convert_row.
  repeat match goal with
         | |- context [match ?o with Some _ => _ | None => _ end] => destruct o
         | |- context [if ?b then _ else _] => destruct b
         end; simpl; intros H; first [lia | contradiction].
Qed.

Lemma validate_row_counts rt column r :
  fst (validate_row rt column r) <> r -> 0 < snd (validate_row rt column r).
Proof.
  unfold validate_row.
  repeat match goal with
         | |- context [match ?o with Some _ => _ | None => _ end] => destruct o
         | |- context [if ?b then _ else _] => destruct b
         end; simpl; intros H; first [lia | contradiction].
Qed.

Lemma cleanCSVData_stages rt results opts :
  let c := cleanCSVData rt results opts in
  cleaned_store c = fst (after_validation rt results opts)
  /\ cleaned_refs c = kept_rows results
  /\ cleaned_headers c = headers_of results
  /\ valuesImputed (report c) = snd (after_imputation rt results)
  /\ outliersTreated (report c) = snd (after_capping rt results)
  /\ typeConversions c = snd (after_conversion rt results opts)
  /\ validationIssues c = snd (after_validation rt results opts).
Proof.
  unfold after_validation, after_conversion, after_normalization, after_capping,
    after_standardization, after_imputation, kept_rows, cleanCSVData.
  cbv zeta.
  repeat match goal with
         | |- context [let '(_, _) := ?e in _] =>
             let st := fresh "st" in
             let n := fresh "n" in
             destruct e as [st n]; cbn [fst snd]
         end.
  repeat split; reflexivity.
Qed.

Lemma count_if_triangle (places : list (nat * string)) (st st' st'' : store) :
  count_if (differs st st'') places
  <= count_if (differs st st') places + count_if (differs st' st'') places.
Proof.
  unfold count_if. induction places as [|p places IH]; simpl; [lia|].
  destruct (differs st st'' p) eqn:H3; destruct (differs st st' p) eqn:H1;
    destruct (differs st' st'' p) eqn:H2; simpl; try lia.
  exfalso. unfold differs in H1, H2, H3.
  apply negb_true_iff, bool_decide_eq_false_1 in H3.
  apply negb_false_iff, bool_decide_eq_true_1 in H1.
  apply negb_false_iff, bool_decide_eq_true_1 in H2.
  congruence.
Qed.

Lemma count_if_nowhere {A : Type} (p : A -> bool) (l : list A) :
  (forall x, x ∈ l -> p x = false) -> count_if p l = 0.
Proof.
  intros Hall. unfold count_if. rewrite filter_none; [reflexivity|].
  intros x Hx. now apply Hall, list_elem_of_In.
Qed.

Lemma count_if_one_place {A : Type} (p : A -> bool) (l : list A) (x0 : A) :
  NoDup l -> (forall x, x ∈ l -> p x = true -> x = x0) -> count_if p l <= 1.
Proof.
  unfold count_if. induction l as [|x l IH]; intros Hnd Hone; simpl; [lia|].
  apply NoDup_cons in Hnd as [Hout Hnd].
  destruct (p x) eqn:Hx.
  - assert (x = x0) by (apply Hone; [left | exact Hx]). subst x0.
    rewrite filter_none; [simpl; lia|].
    intros y Hy. destruct (p y) eqn:Hpy; [|reflexivity].
    assert (y = x) by (apply Hone; [right; now apply list_elem_of_In | exact Hpy]).
    subst y. exfalso. now apply Hout, list_elem_of_In.
  - apply IH; [exact Hnd|]. intros y Hy. apply Hone. now right.
Qed.

Lemma differs_same (st : store) place : differs st st place = false.
Proof. unfold differs. now rewrite bool_decide_eq_true_2. Qed.

Lemma counted_refl places s : counted places s s.
Proof. intros st0. lia. Qed.

Lemma counted_trans places s1 s2 s3 :
  counted places s1 s2 -> counted places s2 s3 -> counted places s1 s3.
Proof. intros H12 H23 st0. specialize (H12 st0). specialize (H23 st0). lia. Qed.

(** The counter of a step that starts at 0 bounds the cells it changes. *)
Lemma counted_changed places (st st' : store) n :
  counted places (st, 0) (st', n) -> count_if (differs st st') places <= n.
Proof.
  intros H. specialize (H st). simpl in H.
  rewrite (count_if_nowhere (differs st st)) in H; [lia|].
  intros p _. apply differs_same.
Qed.

(** Replacing a row by one that differs from it in one column at most
    changes one cell at most. *)
Lemma insert_counted places (st : store) ref (r r' : row) column n k :
  NoDup places ->
  st !! ref = Some r ->
  (forall column', column' <> column -> get r' column' = get r column') ->
  (get r' column <> get r column -> 0 < k) ->
  counted places (st, n) (<[ref := r']> st, n + k).
Proof.
  intros Hnd Hr Hother Hcount st0. cbn [fst snd].
  pose proof (count_if_triangle places st0 st (<[ref := r']> st)) as Htri.
  assert (Hstep : count_if (differs st (<[ref := r']> st)) places <= k);
    [|lia].
  destruct (decide (get r' column = get r column)) as [Hsame|Hchanged].
  - rewrite count_if_nowhere; [lia|].
    intros [ref' column'] _. unfold differs, cell. cbn [fst snd].
    apply negb_false_iff, bool_decide_eq_true_2.
    destruct (decide (ref' = ref)) as [->|Href].
    + rewrite Hr, list_lookup_insert_eq by (eapply lookup_lt_Some, Hr).
      destruct (decide (column' = column)) as [->|Hc]; [now rewrite Hsame|].
      symmetry. now apply Hother.
    + now rewrite list_lookup_insert_ne by congruence.
  - specialize (Hcount Hchanged).
    pose proof (count_if_one_place (differs st (<[ref := r']> st)) places
                  (ref, column) Hnd) as Hone.
    assert (count_if (differs st (<[ref := r']> st)) places <= 1); [|lia].
    apply Hone. intros [ref' column'] _ Hd.
    unfold differs, cell in Hd. cbn [fst snd] in Hd.
    apply negb_true_iff, bool_decide_eq_false_1 in Hd.
    destruct (decide (ref' = ref)) as [->|Href].
    + destruct (decide (column' = column)) as [->|Hc]; [reflexivity|].
      exfalso. apply Hd.
      rewrite Hr, list_lookup_insert_eq by (eapply lookup_lt_Some, Hr).
      symmetry. now apply Hother.
    + exfalso. apply Hd. now rewrite list_lookup_insert_ne by congruence.
Qed.

Lemma forEach_row_counted places refs body column :
  NoDup places ->
  (forall r column', column' <> column ->
                     get (fst (body r)) column' = get r column') ->
  (forall r, get (fst (body r)) column <> get r column -> 0 < snd (body r)) ->
  forall s, counted places s (forEach_row refs body s).
Proof.
  intros Hnd Hother Hcount. unfold forEach_row.
  induction refs as [|ref refs IH]; intros [st n]; simpl;
    [apply counted_refl|].
  destruct (st !! ref) as [r|] eqn:Hr; [|apply IH].
  specialize (Hother r). specialize (Hcount r).
  destruct (body r) as [r' k]. cbn [fst snd] in *.
  eapply counted_trans; [|apply IH].
  now apply (insert_counted places st ref r r' column).
Qed.

Lemma fill_counted places cleanedData column v indices :
  NoDup places ->
  forall s, counted places s (fill cleanedData column v indices s).
Proof.
  intros Hnd. unfold fill.
  induction indices as [|index indices IH]; intros [st n]; simpl;
    [apply counted_refl|].
  destruct (cleanedData !! index) as [ref|]; [|apply IH].
  eapply counted_trans; [|apply IH].
  unfold write. destruct (st !! ref) as [r|] eqn:Hr.
  - replace (S n) with (n + 1) by lia.
    apply (insert_counted places st ref r (set r column v) column); auto.
    intros column' Hc. now apply get_set_other.
  - intros st0. simpl. lia.
Qed.

Lemma fold_columns_counted places (step : store * nat -> string -> store * nat) :
  (forall s column, counted places s (step s column)) ->
  forall headers s, counted places s (fold_left step headers s).
Proof.
  intros Hstep headers.
  induction headers as [|column headers IH]; intros s; simpl;
    [apply counted_refl|].
  eapply counted_trans; [apply Hstep | apply IH].
Qed.

Lemma impute_column_counted rt places cleanedData s column :
  NoDup places -> counted places s (impute_column rt cleanedData s column).
Proof.
  intros Hnd. unfold impute_column.
  repeat match goal with
         | |- context [if ?b then _ else _] => destruct b
         | |- context [match ?o with Some _ => _ | None => _ end] => destruct o
         end;
    first [now apply fill_counted | apply counted_refl].
Qed.

Lemma cap_row_other column lowerBound upperBound r column' :
  column' <> column ->
  get (fst (cap_row column lowerBound upperBound r)) column' = get r column'.
Proof.
  intros Hne. unfold cap_row.
  repeat match goal with
         | |- context [if ?b then _ else _] => destruct b
         end; cbn [fst]; first [reflexivity | now apply get_set_other].
Qed.

Lemma convert_row_other rt column r column' :
  column' <> column ->
  get (fst (convert_row rt column r)) column' = get r column'.
Proof.
  intros Hne. unfold convert_row.
  repeat match goal with
         | |- context [match ?o with Some _ => _ | None => _ end] => destruct o
         | |- context [if ?b then _ else _] => destruct b
         end; cbn [fst]; first [reflexivity | now apply get_set_other].
Qed.

Lemma validate_row_other rt column r column' :
  column' <> column ->
  get (fst (validate_row rt column r)) column' = get r column'.
Proof.
  intros Hne. unfold validate_row.
  repeat match goal with
         | |- context [match ?o with Some _ => _ | None => _ end] => destruct o
         | |- context [if ?b then _ else _] => destruct b
         end; cbn [fst]; rewrite ?get_set_other by exact Hne; reflexivity.
Qed.

Lemma cap_column_counted places cleanedData s column :
  NoDup places -> counted places s (cap_column cleanedData s column).
Proof.
  intros Hnd. unfold cap_column.
  repeat match goal with
         | |- context [if ?b then _ else _] => destruct b
         | |- context [let '(_, _) := ?e in _] => destruct e
         end; try apply counted_refl.
  apply (forEach_row_counted places cleanedData _ column Hnd).
  - intros r column'. apply cap_row_other.
  - intros r Hget. apply cap_row_counts. intros Heq. apply Hget. now rewrite Heq.
Qed.

Lemma convert_column_counted rt places cleanedData s column :
  NoDup places ->
  counted places s (forEach_row cleanedData (convert_row rt column) s).
Proof.
  intros Hnd. apply (forEach_row_counted places cleanedData _ column Hnd).
  - intros r column'. apply convert_row_other.
  - intros r Hget. apply convert_row_counts. intros Heq. apply Hget. now rewrite Heq.
Qed.

Lemma validate_column_counted rt places cleanedData s column :
  NoDup places ->
  counted places s (forEach_row cleanedData (validate_row rt column) s).
Proof.
  intros Hnd. apply (forEach_row_counted places cleanedData _ column Hnd).
  - intros r column'. apply validate_row_other.
  - intros r Hget. apply validate_row_counts. intros Heq. apply Hget. now rewrite Heq.
Qed.

Lemma places_NoDup (refs : list nat) (headers : list string) :
  NoDup (list_prod (remove_dups refs) (remove_dups headers)).
Proof.
  pose proof (NoDup_remove_dups headers) as Hh.
  pose proof (NoDup_remove_dups refs) as Hr.
  induction Hr as [|ref l Hout Hr IH]; cbn [list_prod]; [constructor|].
  apply NoDup_app. split; [|split; [|exact IH]].
  - apply (NoDup_fmap_2_strong (pair ref)); [|exact Hh]. congruence.
  - intros [ref' column] Hin Hprod.
    apply list_elem_of_In, in_map_iff in Hin as [column' [[= <- <-] _]].
    apply list_elem_of_In, in_prod_iff in Hprod as [Href _].
    now apply Hout, list_elem_of_In.
Qed.


(** C9, as amended.  The sentences of the report come in the order of the
    steps.  The sentence of the removal of duplicates, of the imputation, of
    the capping, of the conversion and of the validation is there exactly
    when the counter of the step is positive; the sentence of the text
    normalization and the closing sentence are always there.  The counter
    of the imputation, of the capping, of the conversion and of the
    validation is at least the number of cells that differ between the
    store that the step finds and the store that it leaves. *)
Theorem stepsApplied_follow_counters rt results opts :
  let c := cleanCSVData rt results opts in
  let changed := changed_cells (cleaned_refs c) (cleaned_headers c) in
  stepsApplied (report c) =
      sentence_if_positive (duplicatesRemoved (report c))
        "Removed " " duplicate rows"
      ++ sentence_if_positive (valuesImputed (report c))
           "Imputed " " missing values"
      ++ ["Standardized text format to lowercase"]
      ++ sentence_if_positive (outliersTreated (report c))
           "Treated " " outliers using IQR capping"
      ++ sentence_if_positive (typeConversions c)
           "Converted " " values to appropriate data types"
      ++ sentence_if_positive (validationIssues c)
           "Fixed " " data validation issues"
      ++ ["âœ… Comprehensive data processing completed"]
  /\ cleaned_store c = fst (after_validation rt results opts)
  /\ changed results (fst (after_imputation rt results))
     <= valuesImputed (report c)
  /\ changed (fst (after_standardization rt results))
       (fst (after_capping rt results))
     <= outliersTreated (report c)
  /\ changed (fst (after_normalization rt results opts))
       (fst (after_conversion rt results opts))
     <= typeConversions c
  /\ changed (fst (after_conversion rt results opts))
       (fst (after_validation rt results opts))
     <= validationIssues c.
Proof.
  intros c changed.
  destruct (cleanCSVData_stages rt results opts)
    as [Hstore [Hrefs [Hheaders [Himputed [Htreated [Hconverted Hfixed]]]]]].
  fold c in Hstore, Hrefs, Hheaders, Himputed, Htreated, Hconverted, Hfixed.
  split.
  { unfold c, cleanCSVData. cbv zeta. name_steps. simpl.
    rewrite !push_if_app. unfold sentence_if_positive.
    now rewrite <- !app_assoc. }
  split; [exact Hstore|].
  unfold changed, changed_cells. rewrite Himputed, Htreated, Hconverted, Hfixed.
  pose proof (places_NoDup (cleaned_refs c) (cleaned_headers c)) as Hnd.
  set (places := list_prod _ _) in *. clearbody places.
  repeat split; apply counted_changed; rewrite <- surjective_pairing.
  - apply (fold_columns_counted places (impute_column rt (kept_rows results))).
    intros s column. now apply impute_column_counted.
  - apply (fold_columns_counted places (cap_column (kept_rows results))).
    intros s column. now apply cap_column_counted.
  - apply (fold_columns_counted places
             (fun s column =>
                forEach_row (kept_rows results) (convert_row rt column) s)).
    intros s column. now apply convert_column_counted.
  - apply (fold_columns_counted places
             (fun s column =>
                forEach_row (kept_rows results) (validate_row rt column) s)).
    intros s column. now apply validate_column_counted.
Qed.

(** C9, counterexample.  No step changes the one cell of the table, and
    the report still has the sentence of the text normalization. *)
Lemma sentence_without_change :
  cleaned_store (cleanCSVData Reference.runtime lower_case_table defaults)
  = lower_case_table
  /\ stepsApplied (report (cleanCSVData Reference.runtime lower_case_table defaults))
     = ["Standardized text format to lowercase";
        "âœ… Comprehensive data processing completed"].
Proof. vm_compute. split; reflexivity. Qed.

(** ** Skewness and kurtosis *)

Lemma calculateSkewness_zero_std values mean :
  calculateSkewness values mean (Num.Fin 0) = Num.Fin 0.
Proof. reflexivity. Qed.

Lemma calculateKurtosis_zero_std values mean :
  calculateKurtosis values mean (Num.Fin 0) = Num.Fin 0.
Proof. reflexivity. Qed.

Lemma mul_PInf_not_finite x : Num.is_finite (Num.mul Num.PInf x) = false.
Proof.
  destruct x as [q| | |]; simpl; try reflexivity.
  unfold Num.signed_inf. destruct (Num.Qzero q); [reflexivity|].
  now destruct (Bool.eqb _ _).
Qed.

Lemma sub_PInf_not_finite x :
  Num.is_finite x = false -> Num.is_finite (Num.sub x Num.PInf) = false.
Proof. destruct x; simpl; congruence. Qed.

(** With two values and a standard deviation that is not 0, the skewness
    is NaN or infinite. *)
Lemma calculateSkewness_two_values a b mean std :
  Num.eq std (Num.Fin 0) = false ->
  Num.is_finite (calculateSkewness [a; b] mean std) = false.
Proof.
  intros Hstd. unfold calculateSkewness. rewrite Hstd.
  change (Num.div (Num.of_nat (length [a; b]))
            (Num.mul (Num.sub (Num.of_nat (length [a; b])) (Num.Fin 1))
                     (Num.sub (Num.of_nat (length [a; b])) (Num.Fin 2))))
    with Num.PInf.
  apply mul_PInf_not_finite.
Qed.

(** With two or three values and a standard deviation that is not 0, the
    kurtosis is NaN or infinite. *)
Lemma calculateKurtosis_few_values values mean std :
  length values = 2 \/ length values = 3 ->
  Num.eq std (Num.Fin 0) = false ->
  Num.is_finite (calculateKurtosis values mean std) = false.
Proof.
  intros Hn Hstd. unfold calculateKurtosis. rewrite Hstd.
  destruct Hn as [-> | ->].
  - change (Num.div (Num.mul (Num.of_nat 2) (Num.add (Num.of_nat 2) (Num.Fin 1)))
              (Num.mul (Num.mul (Num.sub (Num.of_nat 2) (Num.Fin 1))
                                (Num.sub (Num.of_nat 2) (Num.Fin 2)))
                       (Num.sub (Num.of_nat 2) (Num.Fin 3))))
      with Num.PInf.
    change (Num.div (Num.mul (Num.Fin 3) (Num.pow (Num.sub (Num.of_nat 2) (Num.Fin 1)) 2))
              (Num.mul (Num.sub (Num.of_nat 2) (Num.Fin 2))
                       (Num.sub (Num.of_nat 2) (Num.Fin 3))))
      with Num.PInf.
    apply sub_PInf_not_finite, mul_PInf_not_finite.
  - change (Num.div (Num.mul (Num.of_nat 3) (Num.add (Num.of_nat 3) (Num.Fin 1)))
              (Num.mul (Num.mul (Num.sub (Num.of_nat 3) (Num.Fin 1))
                                (Num.sub (Num.of_nat 3) (Num.Fin 2)))
                       (Num.sub (Num.of_nat 3) (Num.Fin 3))))
      with Num.PInf.
    change (Num.div (Num.mul (Num.Fin 3) (Num.pow (Num.sub (Num.of_nat 3) (Num.Fin 1)) 2))
              (Num.mul (Num.sub (Num.of_nat 3) (Num.Fin 2))
                       (Num.sub (Num.of_nat 3) (Num.Fin 3))))
      with Num.PInf.
    apply sub_PInf_not_finite, mul_PInf_not_finite.
Qed.

(** C2, the code at a column of two values.  The mean of 1 and 3 is 2 and
    their standard deviation is 1; the factor [n / ((n - 1) * (n - 2))] is
    a division by zero, and both statistics are NaN in the report. *)
Theorem skewness_of_two_values :
  mean_of [Num.Fin 1; Num.Fin 3] = Num.Fin 2
  /\ calculateStandardDeviation Reference.runtime [Num.Fin 1; Num.Fin 3] = Num.Fin 1
  /\ calculateSkewness [Num.Fin 1; Num.Fin 3] (Num.Fin 2) (Num.Fin 1) = Num.NaN
  /\ calculateKurtosis [Num.Fin 1; Num.Fin 3] (Num.Fin 2) (Num.Fin 1) = Num.NaN
  /\ map (fun p => (s_count (snd p), s_skewness (snd p), s_kurtosis (snd p)))
       (summary (analyzeCSVQuality Reference.runtime two_values_table))
     = [(2, "NaN", "NaN")].
Proof. vm_compute. repeat split; reflexivity. Qed.

(** ** Capping *)

(** C3, the code at a column with one extreme value.  [percentile] reads
    the quartiles at positions 1 and 3 of the values in row order, 2 and
    1000, so nothing is outside the bounds and nothing is capped; in the
    sorted values the quartiles are 2 and 4, the bounds -1 and 7, and 1000
    is above them. *)
Theorem capping_reads_unsorted_values :
  parsed (column_values outlier_table (seq 0 5) "v")
  = [Num.Fin 1; Num.Fin 2; Num.Fin 3; Num.Fin 1000; Num.Fin 4]
  /\ percentile (parsed (column_values outlier_table (seq 0 5) "v")) 25 = Num.Fin 2
  /\ percentile (parsed (column_values outlier_table (seq 0 5) "v")) 75 = Num.Fin 1000
  /\ sorted_bounds (parsed (column_values outlier_table (seq 0 5) "v"))
     = (Num.Fin (-1), Num.Fin 7)
  /\ percentile_shadowed (parsed (column_values outlier_table (seq 0 5) "v")) 25
     = Num.Fin 2
  /\ percentile_shadowed (parsed (column_values outlier_table (seq 0 5) "v")) 75
     = Num.Fin 4
  /\ fold_left (cap_column (seq 0 5)) (headers_of outlier_table) (outlier_table, 0)
     = (outlier_table, 0)
  /\ outliersTreated (report (cleanCSVData Reference.runtime outlier_table defaults)) = 0
  /\ data (cleanCSVData Reference.runtime outlier_table defaults) = outlier_table
  /\ Num.gt (Num.Fin 1000) (Num.Fin 7) = true.
Proof. vm_compute. repeat split; reflexivity. Qed.

(** The column of ages of the specification: the bounds are read at 12 and
    13 in row order, 10 is raised to 10.5 and 1000 is lowered to 14.5,
    where the sorted quartiles 11 and 13 give the bounds 8 and 16. *)
Lemma capping_of_the_ages :
  map (fun r => get r "age") (data (cleanCSVData Reference.runtime age_table defaults))
  = [Some "10.50"; Some "12"; Some "11"; Some "13"; Some "14.50"]
  /\ fold_left (cap_column (seq 0 5)) (headers_of age_table) (age_table, 0)
     = ([[("age", "10.5")]; [("age", "12")]; [("age", "11")]; [("age", "13")];
         [("age", "14.5")]], 2)
  /\ sorted_bounds (parsed (column_values age_table (seq 0 5) "age"))
     = (Num.Fin 8, Num.Fin 16).
Proof. vm_compute. repeat split; reflexivity. Qed.

(** ** Validity *)

Lemma detectDataType_range rt values :
  detectDataType rt values = "unknown"
  \/ detectDataType rt values = "numeric"
  \/ detectDataType rt values = "date"
  \/ detectDataType rt values = "categorical".
Proof.
  unfold detectDataType.
  repeat match goal with
         | |- context [if ?b then _ else _] => destruct b
         end; auto.
Qed.

Lemma validateDataPattern_categorical rt values :
  validateDataPattern rt values "categorical" = 0.
Proof.
  unfold validateDataPattern. induction values as [|v values IH]; [reflexivity|].
  exact IH.
Qed.

Lemma validateDataPattern_unknown rt values :
  validateDataPattern rt values "unknown" = 0.
Proof.
  unfold validateDataPattern. induction values as [|v values IH]; [reflexivity|].
  exact IH.
Qed.

(** C4, the code at a column named [email].  The type handed to
    [validateDataPattern] is the inferred type of the column,
    [categorical], for which nothing is checked: the score stays 100,
    although the e-mail pattern rejects the first value. *)
Theorem email_column_is_not_checked :
  dataTypes (analyzeCSVQuality Reference.runtime email_table)
  = [("email", "categorical")]
  /\ validity (metrics (analyzeCSVQuality Reference.runtime email_table))
     = VString "100.00"
  /\ email_pattern "BAD EMAIL" = false
  /\ validateDataPattern Reference.runtime ["BAD EMAIL"; "ann@example.org"] "email" = 1
  /\ validateDataPattern Reference.runtime ["BAD EMAIL"; "ann@example.org"]
       "categorical" = 0.
Proof. vm_compute. repeat split; reflexivity. Qed.

(** ** Empty input *)

(** C8, as amended.  On a table without rows [analyzeCSVQuality] returns
    the report it starts from, in which every metric and every counter is 0
    and every table is empty, and [cleanCSVData] returns an empty table
    with every counter at 0 and a final score of 0. *)
Theorem empty_table_reports rt opts :
  analyzeCSVQuality rt [] =
    {| totalRows := 0; totalColumns := 0; missingValues := []; duplicates := 0;
       dataTypes := []; outliers := []; summary := [];
       metrics :=
         {| completeness := VNumber (Num.Fin 0);
            consistency := VNumber (Num.Fin 0);
            accuracy := VNumber (Num.Fin 0);
            validity := VNumber (Num.Fin 0);
            uniqueness := VNumber (Num.Fin 0);
            overallScore := VNumber (Num.Fin 0) |} |}
  /\ data (cleanCSVData rt [] opts) = []
  /\ cleaned_headers (cleanCSVData rt [] opts) = []
  /\ report (cleanCSVData rt [] opts) =
       {| stepsApplied :=
            ["Standardized text format to lowercase";
             "âœ… Comprehensive data processing completed"];
          rowsRemoved := 0; valuesImputed := 0; outliersTreated := 0;
          duplicatesRemoved := 0; processingComplete := true;
          finalQualityScore := Num.Fin 0 |}.
Proof. repeat split; reflexivity. Qed.

(** C8, counterexample.  Two rows without columns: the completeness and the
    consistency of the analysis are NaN and it counts a duplicate; the
    cleaner removes a row and its final score is NaN. *)
Lemma no_columns_not_zero :
  completeness (metrics (analyzeCSVQuality Reference.runtime no_columns_table))
  = VString "NaN"
  /\ consistency (metrics (analyzeCSVQuality Reference.runtime no_columns_table))
     = VString "NaN"
  /\ duplicates (analyzeCSVQuality Reference.runtime no_columns_table) = 1
  /\ duplicatesRemoved
       (report (cleanCSVData Reference.runtime no_columns_table defaults)) = 1
  /\ finalQualityScore
       (report (cleanCSVData Reference.runtime no_columns_table defaults)) = Num.NaN.
Proof. vm_compute. repeat split; reflexivity. Qed.

(** ** The correlation of two columns *)

(** C7, failing input.  In both rows of the first table the cells of [a]
    and of [b] parse as numbers, the first cell of [a] as Infinity.  The
    mean of [a] is then infinite and the differences from it are NaN or
    infinite: the coefficient is NaN, the test of the denominator against
    0 lets NaN through, and the analysis reports the text [NaN].  In
    the second table the values of [c] are all equal, so that its sum of
    squares is 0, and the coefficient is NaN all the same. *)
Theorem calculateCorrelation_not_a_number rt :
  count_if (both_parse "a" "b") infinity_table = 2
  /\ calculateCorrelation rt infinity_table "a" "b" = Num.NaN
  /\ correlations rt infinity_table = [("a", [("b", "NaN")])]
  /\ map (fun r => get r "c") level_table = [Some "5"; Some "5"]
  /\ calculateCorrelation rt level_table "a" "c" = Num.NaN
  /\ correlations rt level_table = [("a", [("c", "NaN")])].
Proof. repeat split; reflexivity. Qed.

(** * Further properties

    Properties of the engine beyond those of the specification: what the
    analysis, the cleaner and the helpers guarantee on every table, read off
    the code.  Where a number is printed and read again, or compared with a
    bound, the arithmetic is that of the embedding: exact. *)

(** ** Finite numbers *)

Lemma Qred_inject_Z z : Qred (inject_Z z) = inject_Z z.
Proof.
  unfold Qred, inject_Z.
  pose proof (Z.ggcd_gcd z 1) as Hg.
  pose proof (Z.ggcd_correct_divisors z 1) as Hd.
  destruct (Z.ggcd z 1) as [g [aa bb]]. simpl in *.
  rewrite Z.gcd_1_r in Hg. subst g. destruct Hd as [Ha Hb].
  assert (Hbb : bb = 1%Z) by lia. assert (Haa : aa = z) by lia.
  rewrite Hbb, Haa. reflexivity.
Qed.

Lemma fin_represents q : represents (Num.fin q) q.
Proof. exists (Qred q). split; [reflexivity | apply Qred_correct]. Qed.

Lemma Fin_represents q : represents (Num.Fin q) q.
Proof. exists q. split; reflexivity. Qed.

Lemma of_nat_represents n : represents (Num.of_nat n) (inject_Z (Z.of_nat n)).
Proof. apply Fin_represents. Qed.

Lemma represents_proper x q1 q2 : (q1 == q2)%Q -> represents x q1 -> represents x q2.
Proof. intros Heq [q' [-> Hq']]. exists q'. split; [reflexivity|]. now rewrite Hq'. Qed.

Lemma represents_finite x q : represents x q -> Num.is_finite x = true.
Proof. now intros [q' [-> _]]. Qed.

Lemma finite_represents x : Num.is_finite x = true -> exists q, represents x q.
Proof. destruct x as [q| | |]; try discriminate. intros _. exists q. apply Fin_represents. Qed.

Lemma add_represents x y a b :
  represents x a -> represents y b -> represents (Num.add x y) (a + b).
Proof.
  intros [a' [-> Ha]] [b' [-> Hb]]. simpl.
  eapply represents_proper; [|apply fin_represents]. now rewrite Ha, Hb.
Qed.

Lemma neg_represents x a : represents x a -> represents (Num.neg x) (- a).
Proof.
  intros [a' [-> Ha]]. simpl.
  eapply represents_proper; [|apply fin_represents]. now rewrite Ha.
Qed.

Lemma sub_represents x y a b :
  represents x a -> represents y b -> represents (Num.sub x y) (a - b).
Proof.
  intros Hx Hy. unfold Num.sub. apply add_represents; [exact Hx|].
  now apply neg_represents.
Qed.

Lemma mul_represents x y a b :
  represents x a -> represents y b -> represents (Num.mul x y) (a * b).
Proof.
  intros [a' [-> Ha]] [b' [-> Hb]]. simpl.
  eapply represents_proper; [|apply fin_represents]. now rewrite Ha, Hb.
Qed.

Lemma Qzero_false q : ~ (q == 0)%Q -> Num.Qzero q = false.
Proof.
  intros Hq. unfold Num.Qzero. apply Z.eqb_neq. intros Hz. apply Hq.
  unfold Qeq. simpl. rewrite Hz. reflexivity.
Qed.

Lemma Qzero_true q : (q == 0)%Q -> Num.Qzero q = true.
Proof.
  intros Hq. unfold Num.Qzero. apply Z.eqb_eq.
  unfold Qeq in Hq. simpl in Hq. lia.
Qed.

Lemma div_represents x y a b :
  represents x a -> represents y b -> ~ (b == 0)%Q ->
  represents (Num.div x y) (a / b).
Proof.
  intros [a' [-> Ha]] [b' [-> Hb]] Hnz. simpl.
  rewrite Qzero_false by now rewrite Hb.
  eapply represents_proper; [|apply fin_represents]. now rewrite Ha, Hb.
Qed.

Lemma lt_represents x y a b :
  represents x a -> represents y b -> (Num.lt x y = true <-> (a < b)%Q).
Proof.
  intros [a' [-> Ha]] [b' [-> Hb]]. simpl. rewrite <- Ha, <- Hb.
  rewrite Qlt_alt. destruct (a' ?= b')%Q; split; congruence.
Qed.

Lemma lt_represents_false x y a b :
  represents x a -> represents y b -> (Num.lt x y = false <-> (b <= a)%Q).
Proof.
  intros Hx Hy. pose proof (lt_represents x y a b Hx Hy) as H.
  destruct (Num.lt x y).
  - split; [discriminate|]. intros Hle. apply Qle_not_lt in Hle.
    exfalso. apply Hle, H. reflexivity.
  - split; [|reflexivity]. intros _. apply Qnot_lt_le. intros Hlt.
    apply H in Hlt. discriminate.
Qed.

Lemma mul_finite x y :
  Num.is_finite x = true -> Num.is_finite y = true ->
  Num.is_finite (Num.mul x y) = true.
Proof. destruct x, y; simpl; congruence. Qed.

Lemma pow_finite x n :
  Num.is_finite x = true -> Num.is_finite (Num.pow x n) = true.
Proof.
  intros Hx. induction n as [|n IH]; [reflexivity|].
  destruct n as [|n]; [exact Hx|].
  change (Num.pow x (S (S n))) with (Num.mul x (Num.pow x (S n))).
  now apply mul_finite.
Qed.

Lemma represents_unique x a b : represents x a -> represents x b -> (a == b)%Q.
Proof. intros [a' [-> Ha]] [b' [Hb' Hb]]. injection Hb' as <-. now rewrite <- Ha, <- Hb. Qed.

(** Two numbers that represent the same rational print alike once
    reduced. *)
Lemma fin_eq q1 q2 : (q1 == q2)%Q -> Num.fin q1 = Num.fin q2.
Proof. intros H. unfold Num.fin. f_equal. now apply Qred_complete. Qed.

Lemma div_self n : 0 < n -> Num.div (Num.of_nat n) (Num.of_nat n) = Num.Fin 1.
Proof.
  intros Hn. unfold Num.of_nat, Num.div.
  assert (Hnz : ~ (inject_Z (Z.of_nat n) == 0)%Q).
  { unfold Qeq. simpl. lia. }
  rewrite Qzero_false by exact Hnz.
  rewrite (fin_eq _ 1); [reflexivity|]. now field.
Qed.

(** ** What the analysis and the cleaner agree on *)

Lemma existsb_key_map {A B K : Type} `{EqDecision K} (g : A -> B) (f : B -> K)
    (k : K) (p : list A) :
  existsb (fun y => bool_decide (f y = k)) (map g p)
  = existsb (fun y => bool_decide (f (g y) = k)) p.
Proof. induction p as [|y p IH]; simpl; [reflexivity | now rewrite IH]. Qed.

Lemma firsts_map {A B K : Type} `{EqDecision K} (g : A -> B) (f : B -> K) l :
  forall p,
    map g (firsts (fun x => f (g x)) p l) = firsts f (map g p) (map g l).
Proof.
  induction l as [|x l IH]; intros p; simpl; [reflexivity|].
  rewrite existsb_key_map. specialize (IH (p ++ [x])).
  rewrite map_app in IH. simpl in IH. rewrite <- IH.
  now destruct (existsb _ p).
Qed.

Lemma firsts_Some {A : Type} `{EqDecision A} (l : list A) : forall p,
  firsts (fun x => Some x) p l = firsts (fun x => x) p l.
Proof.
  induction l as [|x l IH]; intros p; simpl; [reflexivity|].
  rewrite IH.
  replace (existsb (fun y => bool_decide (Some y = Some x)) p)
    with (existsb (fun y => bool_decide (y = x)) p); [reflexivity|].
  induction p as [|y p IHp]; simpl; [reflexivity|]. rewrite IHp. f_equal.
  apply bool_decide_ext. split; [congruence | intros [= ->]; reflexivity].
Qed.

Lemma lookup_all (results : list row) :
  map (fun i => results !! i) (seq 0 (length results)) = map Some results.
Proof.
  apply list_eq. intros i. rewrite !list_lookup_fmap.
  destruct (decide (i < length results)) as [Hlt|Hge].
  - rewrite lookup_seq_lt by exact Hlt. simpl.
    destruct (lookup_lt_is_Some_2 results i Hlt) as [r Hr]. now rewrite Hr.
  - rewrite lookup_seq_ge by lia. simpl.
    rewrite (proj2 (lookup_ge_None results i)) by lia. reflexivity.
Qed.

(** The rows that [_.uniqBy] keeps are as many in the analysis as in the
    cleaner. *)
Lemma unique_rows_length (results : list row) :
  length (Lodash.uniqBy (fun r : row => r) results)
  = length (remove_duplicates results (seq 0 (length results))).
Proof.
  unfold remove_duplicates, JSON_stringify. rewrite !uniqBy_firsts.
  rewrite <- (length_map (fun i => results !! i)
                (firsts (fun i => results !! i) [] (seq 0 (length results)))).
  rewrite (firsts_map (fun i => results !! i) (fun o : option row => o)).
  rewrite lookup_all. simpl.
  rewrite <- (firsts_map Some (fun o : option row => o) results []).
  rewrite length_map. now rewrite firsts_Some.
Qed.

(** X1.  The number of duplicates that the analysis reports is the number of
    rows that the cleaner removes. *)
Theorem analysis_counts_removed_duplicates rt results opts :
  duplicates (analyzeCSVQuality rt results)
  = duplicatesRemoved (report (cleanCSVData rt results opts)).
Proof.
  rewrite cleanCSVData_duplicatesRemoved.
  destruct results as [|first rest]; [reflexivity|].
  cbn [analyzeCSVQuality duplicates]. now rewrite unique_rows_length.
Qed.

(** ** The metrics of the analysis *)

Lemma sub_zero n : Num.sub (Num.of_nat n) (Num.of_nat 0) = Num.of_nat n.
Proof.
  unfold Num.sub, Num.of_nat.
  change (Num.neg (Num.Fin (inject_Z (Z.of_nat 0))))
    with (Num.Fin (Qred (- inject_Z (Z.of_nat 0)))).
  cbn [Num.add].
  rewrite (fin_eq _ (inject_Z (Z.of_nat n))).
  - unfold Num.fin. now rewrite Qred_inject_Z.
  - rewrite Qred_correct. simpl. ring.
Qed.

Lemma mul_of_nat a b :
  Num.mul (Num.of_nat a) (Num.of_nat b) = Num.of_nat (a * b).
Proof.
  unfold Num.mul, Num.of_nat.
  rewrite (fin_eq _ (inject_Z (Z.of_nat (a * b)))).
  - unfold Num.fin. now rewrite Qred_inject_Z.
  - rewrite Nat2Z.inj_mul, inject_Z_mult. reflexivity.
Qed.

Lemma percent_all n : 0 < n -> percent (Num.of_nat n) (Num.of_nat n) = "100.00".
Proof. intros Hn. unfold percent. now rewrite div_self. Qed.

Lemma no_mixed_type rt (results : list row) headers :
  count_if (fun p : string * string => String.eqb (snd p) "mixed")
    (map (fun column => (column, detectDataType rt (present_values results column)))
       headers) = 0.
Proof.
  unfold count_if. induction headers as [|column headers IH]; [reflexivity|].
  cbn [map List.filter snd].
  destruct (detectDataType_range rt (present_values results column))
    as [H|[H|[H|H]]]; rewrite H; exact IH.
Qed.

(** X2.  No column is ever counted as inconsistent: for a table with a row and
    a column the consistency of the analysis is 100.00. *)
Theorem consistency_is_always_full rt first rest :
  keys first <> [] ->
  consistency (metrics (analyzeCSVQuality rt (first :: rest))) = VString "100.00".
Proof.
  intros Hkeys. cbn [analyzeCSVQuality metrics consistency].
  rewrite no_mixed_type, sub_zero. f_equal. apply percent_all.
  destruct (keys first); [contradiction | simpl; lia].
Qed.

Lemma consistency_is_always_full_witness :
  keys [("x", "Alice")] <> []
  /\ consistency (metrics (analyzeCSVQuality Reference.runtime upper_case_table))
     = VString "100.00".
Proof.
  assert (H : keys [("x", "Alice")] <> []) by discriminate.
  split; [exact H|].
  exact (consistency_is_always_full Reference.runtime [("x", "Alice")] [] H).
Defined.

Lemma total_missing_zero (results : list row) headers rows :
  (forall column, column ∈ headers -> missing_count results column = 0) ->
  fold_left (fun n (p : string * missingInfo) => n + mi_count (snd p))
    (map (fun column =>
            let missingCount := missing_count results column in
            (column,
             {| mi_count := missingCount;
                mi_percentage := percent (Num.of_nat missingCount) rows |}))
       headers) 0 = 0.
Proof.
  intros Hnone. induction headers as [|column headers IH]; [reflexivity|].
  cbn [map fold_left snd mi_count]. rewrite Hnone by left. simpl.
  apply IH. intros c Hc. apply Hnone. now right.
Qed.

(** X3.  When no cell of the table is missing the completeness of the analysis
    is 100.00. *)
Theorem completeness_of_a_full_table rt first rest :
  keys first <> [] ->
  (forall column, column ∈ keys first ->
                  missing_count (first :: rest) column = 0) ->
  completeness (metrics (analyzeCSVQuality rt (first :: rest))) = VString "100.00".
Proof.
  intros Hkeys Hnone. cbn [analyzeCSVQuality metrics completeness].
  rewrite total_missing_zero by exact Hnone.
  rewrite mul_of_nat, sub_zero. f_equal. apply percent_all.
  destruct (keys first); [contradiction | simpl; lia].
Qed.

Lemma completeness_of_a_full_table_witness :
  keys [("k", "p"); ("c", "b")] <> []
  /\ (forall column, column ∈ keys [("k", "p"); ("c", "b")] ->
                     missing_count full_table column = 0)
  /\ completeness (metrics (analyzeCSVQuality Reference.runtime full_table))
     = VString "100.00".
Proof.
  assert (H1 : keys [("k", "p"); ("c", "b")] <> []) by discriminate.
  assert (H2 : forall column, column ∈ keys [("k", "p"); ("c", "b")] ->
                              missing_count full_table column = 0).
  { intros column Hc. change (column ∈ ["k"; "c"]) in Hc.
    repeat (apply elem_of_cons in Hc as [->|Hc]); try reflexivity. inversion Hc. }
  split; [exact H1|]. split; [exact H2|].
  exact (completeness_of_a_full_table Reference.runtime
           [("k", "p"); ("c", "b")] [[("k", "q"); ("c", "b")]] H1 H2).
Defined.

Lemma firsts_NoDup {A : Type} `{EqDecision A} (l : list A) : forall p,
  NoDup (p ++ l) -> firsts (fun x => x) p l = l.
Proof.
  induction l as [|x l IH]; intros p Hnd; simpl; [reflexivity|].
  destruct (existsb _ p) eqn:Hex.
  - apply existsb_exists in Hex as [y [Hy Heq]].
    apply bool_decide_eq_true in Heq. subst y.
    apply NoDup_app in Hnd as [_ [Hdisj _]].
    exfalso. eapply Hdisj; [apply list_elem_of_In, Hy | left].
  - f_equal. apply IH. now rewrite <- app_assoc.
Qed.

(** X4.  When no two rows of the table are equal the analysis reports no
    duplicate and a uniqueness of 100.00. *)
Theorem uniqueness_without_duplicates rt first rest :
  NoDup (first :: rest) ->
  duplicates (analyzeCSVQuality rt (first :: rest)) = 0
  /\ uniqueness (metrics (analyzeCSVQuality rt (first :: rest))) = VString "100.00".
Proof.
  intros Hnd. cbn [analyzeCSVQuality metrics uniqueness duplicates].
  rewrite uniqBy_firsts, firsts_NoDup by exact Hnd.
  split; [lia|]. f_equal. apply percent_all. simpl. lia.
Qed.

Lemma uniqueness_without_duplicates_witness :
  NoDup full_table
  /\ duplicates (analyzeCSVQuality Reference.runtime full_table) = 0
  /\ uniqueness (metrics (analyzeCSVQuality Reference.runtime full_table))
     = VString "100.00".
Proof.
  assert (H : NoDup full_table).
  { apply NoDup_cons. split; [|apply NoDup_singleton].
    intros Hin. apply list_elem_of_singleton in Hin. discriminate. }
  split; [exact H|].
  exact (uniqueness_without_duplicates Reference.runtime
           [("k", "p"); ("c", "b")] [[("k", "q"); ("c", "b")]] H).
Defined.

(** ** Validity *)

Lemma validateDataPattern_step rt dataType values : forall n,
  fold_left
    (fun invalidCount value =>
       if String.eqb dataType "email" then
         if negb (email_pattern value) then S invalidCount else invalidCount
       else if String.eqb dataType "phone" then
         if negb (phone_pattern value) then S invalidCount else invalidCount
       else if String.eqb dataType "date" then
         if negb (is_date rt value) then S invalidCount else invalidCount
       else if String.eqb dataType "numeric" then
         if Num.isNaN (Num.parseFloat value) then S invalidCount
         else invalidCount
       else if String.eqb dataType "url" then
         if negb (URL_valid rt value) then S invalidCount else invalidCount
       else invalidCount)
    values n <= n + length values.
Proof.
  induction values as [|v values IH]; intros n; simpl; [lia|].
  repeat match goal with
         | |- context [if ?b then _ else _] => destruct b
         end;
    match goal with
    | |- fold_left _ _ ?m <= _ => specialize (IH m); lia
    end.
Qed.

Lemma validity_score_bounded rt (results : list row) types headers : forall score q,
  represents score q -> (q <= 100)%Q ->
  exists q',
    represents
      (fold_left
         (fun validityScore column =>
            let values := strings_of (present_values results column) in
            let invalidCount :=
              validateDataPattern rt values (lookup_type types column) in
            if Nat.ltb 0 invalidCount then
              Num.sub validityScore
                (Num.mul
                   (Num.div (Num.of_nat invalidCount) (Num.of_nat (length values)))
                   (Num.Fin 20))
            else validityScore)
         headers score) q'
    /\ (q' <= 100)%Q.
Proof.
  induction headers as [|column headers IH]; intros score q Hscore Hq.
  - exists q. now split.
  - cbn [fold_left].
    set (values := strings_of (present_values results column)).
    set (invalidCount := validateDataPattern rt values (lookup_type types column)).
    cbv zeta.
    destruct (Nat.ltb 0 invalidCount) eqn:Hpos; [|eapply IH; eauto].
    apply Nat.ltb_lt in Hpos.
    pose proof (validateDataPattern_step rt (lookup_type types column) values 0) as Hle.
    fold (validateDataPattern rt values (lookup_type types column)) in Hle.
    fold invalidCount in Hle. simpl in Hle.
    assert (Hlen : ~ (inject_Z (Z.of_nat (length values)) == 0)%Q).
    { unfold Qeq. simpl. lia. }
    eapply IH.
    + apply sub_represents; [exact Hscore|].
      apply mul_represents; [|apply Fin_represents].
      apply div_represents; [apply of_nat_represents | apply of_nat_represents | exact Hlen].
    + assert (Hnonneg : (0 <= inject_Z (Z.of_nat invalidCount)
                              / inject_Z (Z.of_nat (length values)) * 20)%Q).
      { apply Qmult_le_0_compat; [|discriminate].
        apply Qle_shift_div_l.
        - unfold Qlt. simpl. lia.
        - unfold Qle. simpl. lia. }
      apply Qle_trans with (q - 0)%Q; [|now ring_simplify].
      apply Qplus_le_compat; [apply Qle_refl|]. now apply Qopp_le_compat.
Qed.

Lemma validity_score_represents rt results types headers :
  exists q, represents (validity_score rt results types headers) q /\ (q <= 100)%Q.
Proof.
  unfold validity_score.
  apply (validity_score_bounded rt results types headers (Num.Fin 100) 100);
    [apply Fin_represents | apply Qle_refl].
Qed.

(** X5.  The validity of the analysis, before it is printed, is a number
    between 0 and 100, whatever the types and the values of the columns. *)
Theorem validity_between_0_and_100 rt results types headers :
  exists q,
    represents (Num.max (Num.Fin 0) (validity_score rt results types headers)) q
    /\ (0 <= q <= 100)%Q.
Proof.
  destruct (validity_score_represents rt results types headers)
    as [q [[q' [Hscore Hq']] Hle]].
  rewrite Hscore. unfold Num.max. simpl.
  destruct (0 ?= q')%Q eqn:Hcmp.
  - exists 0%Q. split; [apply Fin_represents | split; [apply Qle_refl | discriminate]].
  - exists q'. split; [apply Fin_represents|].
    apply Qlt_alt in Hcmp. rewrite Hq' in Hcmp |- *. split; [now apply Qlt_le_weak | exact Hle].
  - exists 0%Q. split; [apply Fin_represents | split; [apply Qle_refl | discriminate]].
Qed.

(** ** The final quality score *)

Lemma count_if_le {A : Type} (p : A -> bool) (l : list A) :
  count_if p l <= length l.
Proof.
  unfold count_if. induction l as [|x l IH]; simpl; [lia|].
  destruct (p x); simpl; lia.
Qed.

Lemma count_if_all {A : Type} (p : A -> bool) (l : list A) :
  (forall x, x ∈ l -> p x = true) -> count_if p l = length l.
Proof.
  unfold count_if. intros Hall. induction l as [|x l IH]; simpl; [reflexivity|].
  rewrite (Hall x) by left. simpl. f_equal. apply IH.
  intros y Hy. apply Hall. now right.
Qed.

Lemma filled_cells_le (headers : list string) (data : list row) : forall n,
  fold_left
    (fun n r => n + count_if (fun header => is_present (get r header)) headers)
    data n
  <= n + length data * length headers.
Proof.
  induction data as [|r data IH]; intros n; simpl; [lia|].
  specialize (IH (n + count_if (fun header => is_present (get r header)) headers)).
  pose proof (count_if_le (fun header => is_present (get r header)) headers).
  lia.
Qed.

Lemma filled_cells_all (headers : list string) (data : list row) :
  (forall r header, r ∈ data -> header ∈ headers ->
                    is_present (get r header) = true) ->
  forall n,
    fold_left
      (fun n r => n + count_if (fun header => is_present (get r header)) headers)
      data n
    = n + length data * length headers.
Proof.
  induction data as [|r data IH]; intros Hall n; simpl; [lia|].
  rewrite IH by (intros r' h Hr Hh; apply Hall; [now right | exact Hh]).
  rewrite count_if_all by (intros h Hh; apply Hall; [left | exact Hh]).
  lia.
Qed.

(** The score as a rational, for [filled] cells out of [rows * columns]. *)
Lemma score_represents (filled rows columns : nat) :
  0 < rows -> 0 < columns ->
  represents
    (Num.div
       (Num.add (Num.add (Num.add (Num.add (Num.Fin 0)
          (Num.mul (Num.div (Num.of_nat filled)
                      (Num.mul (Num.of_nat rows) (Num.of_nat columns)))
             (Num.Fin 100)))
          (Num.Fin 85)) (Num.Fin 90)) (Num.Fin 95))
       (Num.Fin 4))
    ((0 + inject_Z (Z.of_nat filled)
          / (inject_Z (Z.of_nat rows) * inject_Z (Z.of_nat columns)) * 100
      + 85 + 90 + 95) / 4).
Proof.
  intros Hr Hc.
  apply div_represents; [|apply Fin_represents|discriminate].
  repeat (apply add_represents; [|apply Fin_represents]).
  apply add_represents; [apply Fin_represents|].
  apply mul_represents; [|apply Fin_represents].
  apply div_represents; [apply of_nat_represents| |].
  - apply mul_represents; apply of_nat_represents.
  - rewrite <- inject_Z_mult. unfold Qeq. simpl. nia.
Qed.

Lemma round_represents x q :
  represents x q -> Num.round x = Num.of_Z (Qfloor (q + (1 # 2))).
Proof.
  intros [q' [-> Hq]]. unfold Num.round, Num.of_Z. do 2 f_equal.
  apply Qfloor_comp. now rewrite Hq.
Qed.

Lemma ratio_bounds (filled rows columns : nat) :
  0 < rows -> 0 < columns -> filled <= rows * columns ->
  (0 <= inject_Z (Z.of_nat filled)
        / (inject_Z (Z.of_nat rows) * inject_Z (Z.of_nat columns)) <= 1)%Q.
Proof.
  intros Hr Hc Hle. rewrite <- inject_Z_mult.
  assert (Hpos : (0 < inject_Z (Z.of_nat rows * Z.of_nat columns))%Q).
  { rewrite <- (Zlt_Qlt 0). nia. }
  split.
  - apply Qle_shift_div_l; [exact Hpos|]. rewrite Qmult_0_l.
    rewrite <- (Zle_Qle 0). lia.
  - apply Qle_shift_div_r; [exact Hpos|]. rewrite Qmult_1_l.
    rewrite <- Zle_Qle. nia.
Qed.

(** The quality score of a table with at least one row and one column is a
    whole number from 68 to 93: the three fixed factors 85, 90 and 95 leave
    the completeness a quarter of the weight. *)
Lemma calculateDataQualityScore_range (data : list row) (headers : list string) :
  data <> [] -> headers <> [] ->
  exists z, calculateDataQualityScore data headers = Num.of_Z z
            /\ (68 <= z <= 93)%Z.
Proof.
  intros Hd Hh. unfold calculateDataQualityScore.
  destruct data as [|r0 data']; [contradiction|].
  destruct headers as [|h0 headers']; [contradiction|].
  set (data := r0 :: data'). set (headers := h0 :: headers').
  change (Nat.eqb (length data) 0) with false. cbv iota zeta.
  set (filled := fold_left _ data 0).
  assert (Hf : filled <= length data * length headers)
    by (apply (filled_cells_le headers data 0)).
  assert (Hr : 0 < length data) by (simpl; lia).
  assert (Hc : 0 < length headers) by (simpl; lia).
  rewrite (round_represents _ _ (score_represents filled _ _ Hr Hc)).
  eexists. split; [reflexivity|].
  destruct (ratio_bounds filled _ _ Hr Hc Hf) as [H0 H1].
  set (c := (inject_Z (Z.of_nat filled) / _)%Q) in *.
  clearbody c.
  assert (Hs : ((0 + c * 100 + 85 + 90 + 95) / 4 + (1 # 2) == c * 25 + 68)%Q)
    by field.
  split.
  - rewrite <- (Qfloor_Z 68). apply Qfloor_resp_le.
    change (inject_Z 68) with 68%Q. rewrite Hs. lra.
  - rewrite <- (Qfloor_Z 93). apply Qfloor_resp_le.
    change (inject_Z 93) with 93%Q. rewrite Hs. lra.
Qed.

(** X6.  A table in which every cell is filled scores 93, the highest score
    there is. *)
Theorem calculateDataQualityScore_full (data : list row) (headers : list string) :
  data <> [] -> headers <> [] ->
  (forall r header, r ∈ data -> header ∈ headers ->
                    is_present (get r header) = true) ->
  calculateDataQualityScore data headers = Num.Fin 93.
Proof.
  intros Hd Hh Hall. unfold calculateDataQualityScore.
  destruct data as [|r0 data']; [contradiction|].
  destruct headers as [|h0 headers']; [contradiction|].
  set (data := r0 :: data') in *. set (headers := h0 :: headers') in *.
  change (Nat.eqb (length data) 0) with false. cbv iota zeta.
  rewrite (filled_cells_all headers data Hall 0). rewrite Nat.add_0_l.
  assert (Hr : 0 < length data) by (simpl; lia).
  assert (Hc : 0 < length headers) by (simpl; lia).
  rewrite (round_represents _ _ (score_represents _ _ _ Hr Hc)).
  unfold Num.of_Z. change (Num.Fin 93) with (Num.Fin (inject_Z 93)).
  do 2 f_equal.
  assert (Hone : (inject_Z (Z.of_nat (length data * length headers))
                  / (inject_Z (Z.of_nat (length data))
                     * inject_Z (Z.of_nat (length headers))) == 1)%Q).
  { rewrite Nat2Z.inj_mul, inject_Z_mult. apply Qmult_inv_r.
    rewrite <- inject_Z_mult. unfold Qeq. simpl. nia. }
  rewrite <- (Qfloor_Z 93). apply Qfloor_comp. rewrite Hone. reflexivity.
Qed.

Lemma calculateDataQualityScore_full_witness :
  full_table <> [] /\ ["k"; "c"] <> []
  /\ (forall r header, r ∈ full_table -> header ∈ ["k"; "c"] ->
                       is_present (get r header) = true)
  /\ calculateDataQualityScore full_table ["k"; "c"] = Num.Fin 93.
Proof.
  assert (H1 : full_table <> []) by discriminate.
  assert (H2 : ["k"; "c"] <> []) by discriminate.
  assert (H3 : forall r header, r ∈ full_table -> header ∈ ["k"; "c"] ->
                                is_present (get r header) = true).
  { intros r header Hr Hh.
    repeat (apply elem_of_cons in Hr as [->|Hr]);
      repeat (apply elem_of_cons in Hh as [->|Hh]);
      try reflexivity; first [inversion Hr | inversion Hh]. }
  repeat (split; [assumption|]).
  exact (calculateDataQualityScore_full full_table ["k"; "c"] H1 H2 H3).
Defined.

Lemma cleanCSVData_finalQualityScore rt results opts :
  let c := cleanCSVData rt results opts in
  finalQualityScore (report c) = calculateDataQualityScore (data c) (headers_of results).
Proof. unfold cleanCSVData, data. cbv zeta. name_steps. reflexivity. Qed.

Lemma remove_duplicates_first (first : row) (rest : list row) :
  exists refs,
    remove_duplicates (first :: rest) (seq 0 (length (first :: rest))) = 0 :: refs.
Proof.
  unfold remove_duplicates, Lodash.uniqBy. simpl.
  destruct (decide (JSON_stringify (first :: rest) 0 ∈ [])) as [Hin|_].
  - inversion Hin.
  - eexists. reflexivity.
Qed.

(** X7.  The final quality score that the cleaner reports for a table with at
    least one row and one column is a whole number from 68 to 93, however many
    cells are empty. *)
Theorem finalQualityScore_from_68_to_93 rt (first : row) (rest : list row) opts :
  keys first <> [] ->
  exists z,
    finalQualityScore (report (cleanCSVData rt (first :: rest) opts)) = Num.of_Z z
    /\ (68 <= z <= 93)%Z.
Proof.
  intros Hkeys. rewrite cleanCSVData_finalQualityScore.
  apply calculateDataQualityScore_range; [|exact Hkeys].
  intros Hnil. apply (f_equal (@length row)) in Hnil.
  rewrite data_length, cleanCSVData_refs in Hnil.
  destruct (remove_duplicates_first first rest) as [refs Hrefs].
  rewrite Hrefs in Hnil. discriminate.
Qed.

Lemma finalQualityScore_from_68_to_93_witness :
  keys [("x", "Alice")] <> []
  /\ exists z,
       finalQualityScore
         (report (cleanCSVData Reference.runtime upper_case_table defaults))
       = Num.of_Z z
       /\ (68 <= z <= 93)%Z.
Proof.
  assert (H : keys [("x", "Alice")] <> []) by discriminate.
  split; [exact H|].
  exact (finalQualityScore_from_68_to_93 Reference.runtime
           [("x", "Alice")] [] defaults H).
Defined.

(** ** The columns of the rows *)

Lemma get_Some_keys (r : row) column v : get r column = Some v -> column ∈ keys r.
Proof.
  induction r as [|[k w] r IH]; simpl; [discriminate|].
  destruct (String.eqb k column) eqn:E.
  - apply String.eqb_eq in E. subst k. intros _. left.
  - intros H. right. now apply IH.
Qed.

Lemma keys_set (r : row) column v :
  column ∈ keys r -> keys (set r column v) = keys r.
Proof.
  induction r as [|[k w] r IH]; simpl; intros Hin; [inversion Hin|].
  destruct (String.eqb k column) eqn:E; [reflexivity|].
  simpl. f_equal. apply IH.
  apply elem_of_cons in Hin as [->|Hin]; [|exact Hin].
  rewrite String.eqb_refl in E. discriminate.
Qed.

Lemma set_has_key (r : row) column v : column ∈ keys (set r column v).
Proof.
  induction r as [|[k w] r IH]; simpl; [left|].
  destruct (String.eqb k column) eqn:E; simpl.
  - apply String.eqb_eq in E. subst k. left.
  - right. exact IH.
Qed.

Lemma keys_insert (st : store) ref (r r' : row) :
  st !! ref = Some r -> keys r' = keys r ->
  map keys (<[ref := r']> st) = map keys st.
Proof.
  intros Hr Hk. change (map keys) with (fmap (M := list) keys).
  rewrite list_fmap_insert, Hk. apply list_insert_id.
  rewrite list_lookup_fmap, Hr. reflexivity.
Qed.

Lemma forEach_row_keys refs (body : row -> row * nat) :
  (forall r, keys (fst (body r)) = keys r) ->
  forall s, map keys (fst (forEach_row refs body s)) = map keys (fst s).
Proof.
  intros Hbody. unfold forEach_row.
  induction refs as [|ref refs IH]; intros [st n]; simpl; [reflexivity|].
  destruct (st !! ref) as [r|] eqn:E; [|apply IH].
  specialize (Hbody r). destruct (body r) as [r' k]. rewrite IH. simpl.
  now apply (keys_insert st ref r r').
Qed.

Lemma write_keys (st : store) ref column v headers :
  has_columns headers (map keys st) -> column ∈ headers ->
  map keys (write st ref column v) = map keys st.
Proof.
  intros Hall Hc. unfold write. destruct (st !! ref) as [r|] eqn:E; [|reflexivity].
  apply (keys_insert st ref r); [exact E|]. apply keys_set.
  apply (Hall (keys r)); [|exact Hc].
  apply list_elem_of_fmap. exists r. split; [reflexivity|].
  eapply list_elem_of_lookup_2, E.
Qed.

Lemma fill_keys refs column v headers indices :
  column ∈ headers ->
  forall s, has_columns headers (map keys (fst s)) ->
    map keys (fst (fill refs column v indices s)) = map keys (fst s).
Proof.
  intros Hc. unfold fill.
  induction indices as [|index l IH]; intros [st n] Hall; simpl; [reflexivity|].
  destruct (refs !! index) as [ref|] eqn:E; [|now apply IH].
  assert (Hw := write_keys st ref column v headers Hall Hc).
  rewrite IH; simpl; rewrite Hw; [reflexivity | exact Hall].
Qed.

Lemma fold_columns_keys (headers : list string)
    (step : store * nat -> string -> store * nat) :
  (forall s column, column ∈ headers ->
     has_columns headers (map keys (fst s)) ->
     map keys (fst (step s column)) = map keys (fst s)) ->
  forall l s, (forall column, column ∈ l -> column ∈ headers) ->
    has_columns headers (map keys (fst s)) ->
    map keys (fst (fold_left step l s)) = map keys (fst s).
Proof.
  intros Hstep l.
  induction l as [|column l IH]; intros s Hl Hall; simpl; [reflexivity|].
  assert (Hs := Hstep s column (Hl column ltac:(left)) Hall).
  rewrite IH.
  - exact Hs.
  - intros c Hc. apply Hl. now right.
  - now rewrite Hs.
Qed.

Lemma standardize_row_keys column r : keys (fst (standardize_row column r)) = keys r.
Proof.
  unfold standardize_row. destruct (get r column) as [v|] eqn:E; [|reflexivity].
  destruct (truthy (Some v)); [|reflexivity].
  simpl. apply keys_set. eapply get_Some_keys, E.
Qed.

Lemma parseFloat_cell_keys (r : row) column :
  Num.isNaN (Num.parseFloat_cell (get r column)) = false -> column ∈ keys r.
Proof.
  destruct (get r column) as [v|] eqn:E; [|discriminate].
  intros _. eapply get_Some_keys, E.
Qed.

Lemma cap_row_keys column lo hi r : keys (fst (cap_row column lo hi r)) = keys r.
Proof.
  unfold cap_row.
  destruct (Num.isNaN (Num.parseFloat_cell (get r column))) eqn:E; [reflexivity|].
  apply parseFloat_cell_keys in E. simpl.
  destruct (Num.lt _ lo); [now apply keys_set|].
  destruct (Num.gt _ hi); [now apply keys_set | reflexivity].
Qed.

Lemma normalize_row_keys column min range r :
  keys (fst (normalize_row column min range r)) = keys r.
Proof.
  unfold normalize_row.
  destruct (Num.isNaN (Num.parseFloat_cell (get r column))) eqn:E; [reflexivity|].
  apply parseFloat_cell_keys in E. simpl. now apply keys_set.
Qed.

Lemma convert_row_keys rt column r : keys (fst (convert_row rt column r)) = keys r.
Proof.
  unfold convert_row. destruct (get r column) as [v|] eqn:E; [|reflexivity].
  apply get_Some_keys in E.
  repeat match goal with
         | |- context [if ?b then _ else _] => destruct b
         | |- context [match ?o with Some _ => _ | None => _ end] => destruct o
         end; simpl; first [reflexivity | now apply keys_set].
Qed.

Lemma validate_row_keys rt column r : keys (fst (validate_row rt column r)) = keys r.
Proof.
  unfold validate_row. destruct (get r column) as [v|] eqn:E; [|reflexivity].
  apply get_Some_keys in E.
  repeat match goal with
         | |- context [if ?b then _ else _] => destruct b
         end; simpl;
    repeat (rewrite keys_set; [|first [assumption | apply set_has_key]]);
    reflexivity.
Qed.

Section CleanerKeys.

Variable rt : Runtime.
Variable cleanedData : list nat.
Variable headers : list string.

Lemma impute_column_keys s column :
  column ∈ headers -> has_columns headers (map keys (fst s)) ->
  map keys (fst (impute_column rt cleanedData s column)) = map keys (fst s).
Proof.
  intros Hc Hall. unfold impute_column.
  repeat match goal with
         | |- context [if ?b then _ else _] => destruct b
         | |- context [match ?o with Some _ => _ | None => _ end] => destruct o
         end;
    first [now apply (fill_keys cleanedData column _ headers) | reflexivity].
Qed.

Lemma standardize_column_keys s column :
  map keys (fst (standardize_column rt cleanedData s column)) = map keys (fst s).
Proof.
  unfold standardize_column. destruct (String.eqb _ _); [|reflexivity].
  apply forEach_row_keys, standardize_row_keys.
Qed.

Lemma cap_column_keys s column :
  map keys (fst (cap_column cleanedData s column)) = map keys (fst s).
Proof.
  unfold cap_column.
  repeat match goal with
         | |- context [if ?b then _ else _] => destruct b
         | |- context [let '(_, _) := ?e in _] => destruct e
         end;
    first [apply forEach_row_keys, cap_row_keys | reflexivity].
Qed.

Lemma normalize_column_keys opts s column :
  map keys (fst (normalize_column opts cleanedData s column)) = map keys (fst s).
Proof.
  unfold normalize_column.
  repeat match goal with
         | |- context [if ?b then _ else _] => destruct b
         end;
    first [apply forEach_row_keys, normalize_row_keys | reflexivity].
Qed.

End CleanerKeys.

(** X8.  When every row has the columns of the first row, the cleaner leaves
    each row the columns it had, in the same order: no step adds, removes or
    moves a column, in the rows that are kept and in those that are dropped. *)
Theorem cleanCSVData_keeps_columns rt results opts :
  (forall r column, r ∈ results -> column ∈ headers_of results -> column ∈ keys r) ->
  map keys (cleaned_store (cleanCSVData rt results opts)) = map keys results.
Proof.
  intros Hall.
  assert (H0 : has_columns (headers_of results) (map keys results)).
  { intros k column Hk Hc. apply list_elem_of_fmap in Hk as [r [-> Hr]].
    now apply Hall. }
  unfold cleanCSVData. cbv zeta. name_steps. simpl.
  set (cd := remove_duplicates results (seq 0 (length results))) in *.
  set (headers := headers_of results) in *.
  step_frame E
    (fold_columns_keys headers (impute_column rt cd)
       (impute_column_keys rt cd headers) headers ((results : store), 0)
       (fun _ H => H) H0).
  step_frame E0
    (fold_columns_keys headers (standardize_column rt cd)
       (fun s column _ _ => standardize_column_keys rt cd s column)
       headers (st, 0) (fun _ H => H)).
  step_frame E1
    (fold_columns_keys headers (cap_column cd)
       (fun s column _ _ => cap_column_keys cd s column)
       headers (st0, 0) (fun _ H => H)).
  step_frame E2
    (fold_columns_keys headers (normalize_column opts cd)
       (fun s column _ _ => normalize_column_keys cd opts s column)
       headers (st1, 0) (fun _ H => H)).
  step_frame E3
    (fold_columns_keys headers
       (fun s column => forEach_row cd (convert_row rt column) s)
       (fun s column _ _ =>
          forEach_row_keys cd (convert_row rt column)
            (convert_row_keys rt column) s)
       headers (st2, 0) (fun _ H => H)).
  step_frame E4
    (fold_columns_keys headers
       (fun s column => forEach_row cd (validate_row rt column) s)
       (fun s column _ _ =>
          forEach_row_keys cd (validate_row rt column)
            (validate_row_keys rt column) s)
       headers (st3, 0) (fun _ H => H)).
  rewrite F in F0. rewrite (F0 H0) in F1. rewrite (F1 H0) in F2.
  rewrite (F2 H0) in F3. rewrite (F3 H0) in F4. exact (F4 H0).
Qed.

Lemma cleanCSVData_keeps_columns_witness :
  (forall r column, r ∈ full_table -> column ∈ headers_of full_table ->
                    column ∈ keys r)
  /\ map keys (cleaned_store (cleanCSVData Reference.runtime full_table defaults))
     = map keys full_table.
Proof.
  assert (H : forall r column, r ∈ full_table ->
                               column ∈ headers_of full_table -> column ∈ keys r).
  { intros r column Hr Hc.
    repeat (apply elem_of_cons in Hr as [->|Hr]); [exact Hc | exact Hc|].
    inversion Hr. }
  split; [exact H|].
  exact (cleanCSVData_keeps_columns Reference.runtime full_table defaults H).
Defined.

(** ** Finite statistics *)

Lemma all_finite_cons v l : all_finite (v :: l) -> Num.is_finite v = true /\ all_finite l.
Proof.
  intros H. split; [apply H; left | intros x Hx; apply H; now right].
Qed.

(** The numbers of a list written out are whole numbers. *)
Ltac whole_numbers H :=
  repeat (apply elem_of_cons in H as [->|H];
          [eexists; split; [reflexivity | vm_compute; reflexivity]|]);
  inversion H.

Lemma whole_finite l : (forall x, x ∈ l -> whole x) -> all_finite l.
Proof.
  intros Hwhole v Hv. destruct (Hwhole v Hv) as [z [-> _]]. reflexivity.
Qed.

Lemma add_finite x y :
  Num.is_finite x = true -> Num.is_finite y = true ->
  Num.is_finite (Num.add x y) = true.
Proof. destruct x, y; simpl; congruence. Qed.

Lemma sub_finite x y :
  Num.is_finite x = true -> Num.is_finite y = true ->
  Num.is_finite (Num.sub x y) = true.
Proof. destruct x, y; simpl; congruence. Qed.

Lemma div_finite x y b :
  Num.is_finite x = true -> represents y b -> ~ (b == 0)%Q ->
  Num.is_finite (Num.div x y) = true.
Proof.
  intros Hx Hy Hb. destruct (finite_represents x Hx) as [a Ha].
  eapply represents_finite, div_represents; eauto.
Qed.

Lemma eq_zero_false x :
  Num.is_finite x = true -> Num.eq x (Num.Fin 0) = false ->
  exists q, represents x q /\ ~ (q == 0)%Q.
Proof.
  destruct x as [q| | |]; try discriminate. intros _ Hne. simpl in Hne.
  exists q. split; [apply Fin_represents|].
  intros Hq. apply Qeq_bool_iff in Hq. congruence.
Qed.

Lemma sum_finite l : forall acc,
  Num.is_finite acc = true -> all_finite l ->
  Num.is_finite (fold_left Num.add l acc) = true.
Proof.
  induction l as [|v l IH]; intros acc Hacc Hl; simpl; [exact Hacc|].
  apply all_finite_cons in Hl as [Hv Hl]. apply IH; [|exact Hl].
  now apply add_finite.
Qed.

Lemma of_nat_nonzero n : 0 < n -> ~ (inject_Z (Z.of_nat n) == 0)%Q.
Proof. intros Hn. unfold Qeq. simpl. lia. Qed.

Lemma mean_of_finite l :
  l <> [] -> all_finite l -> Num.is_finite (mean_of l) = true.
Proof.
  intros Hne Hl. unfold mean_of, Num.sum.
  eapply div_finite; [now apply sum_finite | apply of_nat_represents|].
  apply of_nat_nonzero. destruct l; [contradiction | simpl; lia].
Qed.

(** The sum of the powers of the standardised deviations. *)
Lemma moments_finite k mean std s l : forall acc,
  Num.is_finite mean = true -> represents std s -> ~ (s == 0)%Q ->
  Num.is_finite acc = true -> all_finite l ->
  Num.is_finite
    (fold_left
       (fun acc val => Num.add acc (Num.pow (Num.div (Num.sub val mean) std) k))
       l acc) = true.
Proof.
  induction l as [|v l IH]; intros acc Hm Hs Hnz Hacc Hl; simpl; [exact Hacc|].
  apply all_finite_cons in Hl as [Hv Hl]. apply IH; auto.
  apply add_finite; [exact Hacc|]. apply pow_finite.
  eapply div_finite; eauto. now apply sub_finite.
Qed.

Lemma squares_nonnegative mean l : forall acc a,
  Num.is_finite mean = true -> represents acc a -> (0 <= a)%Q -> all_finite l ->
  exists q,
    represents
      (fold_left (fun sum val => Num.add sum (Num.pow (Num.sub val mean) 2)) l acc)
      q
    /\ (0 <= q)%Q.
Proof.
  induction l as [|v l IH]; intros acc a Hm Hacc Ha Hl; simpl; [eauto|].
  apply all_finite_cons in Hl as [Hv Hl].
  destruct (finite_represents _ (sub_finite v mean Hv Hm)) as [d Hd].
  eapply IH; [exact Hm | | | exact Hl].
  - apply add_represents; [exact Hacc|].
    change (Num.pow (Num.sub v mean) 2)
      with (Num.mul (Num.sub v mean) (Num.sub v mean)).
    apply mul_represents; exact Hd.
  - assert (0 <= d * d)%Q by nra. lra.
Qed.

Lemma Qneg_false x q : represents x q -> (0 <= q)%Q ->
  exists q', x = Num.Fin q' /\ Num.Qneg q' = false.
Proof.
  intros [q' [-> Hq]] Hpos. exists q'. split; [reflexivity|].
  unfold Num.Qneg. apply Z.ltb_ge. rewrite <- Hq in Hpos.
  unfold Qle in Hpos. simpl in Hpos. lia.
Qed.

Lemma calculateStandardDeviation_finite rt l :
  l <> [] -> all_finite l ->
  Num.is_finite (calculateStandardDeviation rt l) = true.
Proof.
  intros Hne Hl. unfold calculateStandardDeviation.
  destruct (squares_nonnegative (mean_of l) l (Num.Fin 0) 0) as [q [Hq Hpos]];
    [now apply mean_of_finite | apply Fin_represents | apply Qle_refl | exact Hl |].
  assert (Hn : 0 < length l) by (destruct l; [contradiction | simpl; lia]).
  assert (Hv := div_represents _ _ _ _ Hq (of_nat_represents (length l))
                  (of_nat_nonzero _ Hn)).
  destruct (Qneg_false _ _ Hv) as [q' [-> Hq']].
  - apply Qle_shift_div_l; [|lra].
    rewrite <- (Zlt_Qlt 0). lia.
  - unfold Math_sqrt. rewrite Hq'. reflexivity.
Qed.

Lemma nat_minus_represents n k :
  represents (Num.sub (Num.of_nat n) (Num.Fin (inject_Z k)))
    (inject_Z (Z.of_nat n - k)).
Proof.
  eapply represents_proper;
    [|apply sub_represents; [apply of_nat_represents | apply Fin_represents]].
  unfold Zminus. rewrite inject_Z_plus, inject_Z_opp. reflexivity.
Qed.

Lemma inject_Z_nonzero z : z <> 0%Z -> ~ (inject_Z z == 0)%Q.
Proof. intros Hz. unfold Qeq. simpl. lia. Qed.

Lemma mean_and_std_finite rt (values : list Num.number) :
  all_finite values -> 3 <= length values ->
  Num.is_finite (mean_of values) = true
  /\ Num.is_finite (calculateStandardDeviation rt values) = true.
Proof.
  intros Hl Hn.
  assert (values <> []) by (destruct values; [simpl in Hn; lia | easy]).
  split; [now apply mean_of_finite | now apply calculateStandardDeviation_finite].
Qed.

(** X9.  The skewness of the summary of a column in which at least three cells
    are read as numbers, all of them whole numbers below [2^52] in magnitude,
    is a finite number. *)
Theorem calculateSkewness_finite rt (cells : list (option string)) :
  (forall x, x ∈ parsed cells -> whole x) ->
  3 <= length (parsed cells) ->
  Num.is_finite
    (calculateSkewness (parsed cells) (mean_of (parsed cells))
       (calculateStandardDeviation rt (parsed cells))) = true.
Proof.
  intros Hwhole Hn. apply whole_finite in Hwhole.
  set (values := parsed cells) in *.
  destruct (mean_and_std_finite rt values Hwhole Hn) as [Hm Hs].
  unfold calculateSkewness.
  destruct (Num.eq _ (Num.Fin 0)) eqn:E; [reflexivity|].
  destruct (eq_zero_false _ Hs E) as [s [Hrs Hnz]].
  apply mul_finite;
    [|eapply moments_finite; eauto].
  eapply div_finite; [reflexivity| |].
  - apply mul_represents; [apply (nat_minus_represents _ 1)
                          | apply (nat_minus_represents _ 2)].
  - rewrite <- inject_Z_mult. apply inject_Z_nonzero. nia.
Qed.

Lemma calculateSkewness_finite_witness :
  (forall x, x ∈ parsed [Some "1"; Some "2"; Some "4"] -> whole x)
  /\ 3 <= length (parsed [Some "1"; Some "2"; Some "4"])
  /\ Num.is_finite
       (calculateSkewness (parsed [Some "1"; Some "2"; Some "4"])
          (mean_of (parsed [Some "1"; Some "2"; Some "4"]))
          (calculateStandardDeviation Reference.runtime
             (parsed [Some "1"; Some "2"; Some "4"]))) = true.
Proof.
  assert (Hwhole : forall x, x ∈ parsed [Some "1"; Some "2"; Some "4"] -> whole x).
  { intros x Hx. change (x ∈ [Num.Fin 1; Num.Fin 2; Num.Fin 4]) in Hx.
    whole_numbers Hx. }
  assert (H : 3 <= length (parsed [Some "1"; Some "2"; Some "4"]))
    by (vm_compute; lia).
  split; [exact Hwhole|]. split; [exact H|].
  exact (calculateSkewness_finite Reference.runtime
           [Some "1"; Some "2"; Some "4"] Hwhole H).
Defined.

(** X10.  The kurtosis of the summary of a column in which at least four cells
    are read as numbers, all of them whole numbers below [2^52] in magnitude,
    is a finite number. *)
Theorem calculateKurtosis_finite rt (cells : list (option string)) :
  (forall x, x ∈ parsed cells -> whole x) ->
  4 <= length (parsed cells) ->
  Num.is_finite
    (calculateKurtosis (parsed cells) (mean_of (parsed cells))
       (calculateStandardDeviation rt (parsed cells))) = true.
Proof.
  intros Hwhole Hn. apply whole_finite in Hwhole.
  set (values := parsed cells) in *.
  destruct (mean_and_std_finite rt values Hwhole) as [Hm Hs]; [lia|].
  unfold calculateKurtosis.
  destruct (Num.eq _ (Num.Fin 0)) eqn:E; [reflexivity|].
  destruct (eq_zero_false _ Hs E) as [s [Hrs Hnz]].
  apply sub_finite.
  - apply mul_finite;
      [|eapply moments_finite; eauto].
    eapply div_finite.
    + apply mul_finite; [reflexivity|]. now apply add_finite.
    + apply mul_represents;
        [apply mul_represents; [apply (nat_minus_represents _ 1)
                               | apply (nat_minus_represents _ 2)]
        | apply (nat_minus_represents _ 3)].
    + rewrite <- !inject_Z_mult. apply inject_Z_nonzero. nia.
  - eapply div_finite.
    + apply mul_finite; [reflexivity|]. apply pow_finite.
      eapply represents_finite, (nat_minus_represents _ 1).
    + apply mul_represents; [apply (nat_minus_represents _ 2)
                            | apply (nat_minus_represents _ 3)].
    + rewrite <- inject_Z_mult. apply inject_Z_nonzero. nia.
Qed.

Lemma calculateKurtosis_finite_witness :
  (forall x, x ∈ parsed [Some "1"; Some "2"; Some "4"; Some "8"] -> whole x)
  /\ 4 <= length (parsed [Some "1"; Some "2"; Some "4"; Some "8"])
  /\ Num.is_finite
       (calculateKurtosis (parsed [Some "1"; Some "2"; Some "4"; Some "8"])
          (mean_of (parsed [Some "1"; Some "2"; Some "4"; Some "8"]))
          (calculateStandardDeviation Reference.runtime
             (parsed [Some "1"; Some "2"; Some "4"; Some "8"]))) = true.
Proof.
  assert (Hwhole : forall x,
             x ∈ parsed [Some "1"; Some "2"; Some "4"; Some "8"] -> whole x).
  { intros x Hx. change (x ∈ [Num.Fin 1; Num.Fin 2; Num.Fin 4; Num.Fin 8]) in Hx.
    whole_numbers Hx. }
  assert (H : 4 <= length (parsed [Some "1"; Some "2"; Some "4"; Some "8"]))
    by (vm_compute; lia).
  split; [exact Hwhole|]. split; [exact H|].
  exact (calculateKurtosis_finite Reference.runtime
           [Some "1"; Some "2"; Some "4"; Some "8"] Hwhole H).
Defined.

(** ** Percentiles *)

Lemma at_index_elem l i : i < length l -> at_index l i ∈ l.
Proof. intros Hi. unfold at_index. apply list_elem_of_In, nth_In, Hi. Qed.

Lemma at_Z_index l z : (0 <= z)%Z -> at_Z l z = at_index l (Z.to_nat z).
Proof. intros Hz. unfold at_Z. now rewrite (proj2 (Z.ltb_ge z 0)). Qed.

Lemma position_bounds n p :
  0 < n -> (0 <= p <= 100)%Q ->
  (0 <= position n p <= inject_Z (Z.of_nat n - 1))%Q.
Proof.
  intros Hn [Hp0 Hp1]. unfold position.
  assert (Hm : (0 <= inject_Z (Z.of_nat n) - 1)%Q).
  { rewrite <- (inject_Z_plus (Z.of_nat n) (-1)) || idtac.
    assert (1 <= inject_Z (Z.of_nat n))%Q by (rewrite <- (Zle_Qle 1); lia). lra. }
  assert (He : (inject_Z (Z.of_nat n - 1) == inject_Z (Z.of_nat n) - 1)%Q).
  { unfold Zminus. rewrite inject_Z_plus, inject_Z_opp. reflexivity. }
  rewrite He. set (m := (inject_Z (Z.of_nat n) - 1)%Q) in *. clearbody m.
  assert (Hs : (p / 100 * m == p * m * (1 # 100))%Q) by field.
  rewrite Hs. split; nra.
Qed.

Lemma position_monotone n p p' :
  0 < n -> (p <= p')%Q -> (position n p <= position n p')%Q.
Proof.
  intros Hn Hp. unfold position.
  assert (Hm : (0 <= inject_Z (Z.of_nat n) - 1)%Q).
  { assert (1 <= inject_Z (Z.of_nat n))%Q by (rewrite <- (Zle_Qle 1); lia). lra. }
  set (m := (inject_Z (Z.of_nat n) - 1)%Q) in *. clearbody m.
  assert (Hs : forall x, (x / 100 * m == x * m * (1 # 100))%Q) by (intros; field).
  rewrite !Hs. nra.
Qed.

Lemma floor_bounds n x :
  (0 <= x <= inject_Z (Z.of_nat n - 1))%Q ->
  (0 <= Qfloor x <= Z.of_nat n - 1)%Z /\ (0 <= Qceiling x <= Z.of_nat n - 1)%Z.
Proof.
  intros [H0 H1]. repeat split.
  - rewrite <- (Qfloor_Z 0). now apply Qfloor_resp_le.
  - rewrite <- (Qfloor_Z (Z.of_nat n - 1)). now apply Qfloor_resp_le.
  - rewrite <- (Qceiling_Z 0). now apply Qceiling_resp_le.
  - rewrite <- (Qceiling_Z (Z.of_nat n - 1)). now apply Qceiling_resp_le.
Qed.

Lemma fraction_bounds x : (0 <= x - inject_Z (Qfloor x) < 1)%Q.
Proof.
  pose proof (Qfloor_le x). pose proof (Qlt_floor x) as Hlt.
  rewrite inject_Z_plus in Hlt. change (inject_Z 1) with 1%Q in Hlt.
  split; lra.
Qed.

(** An integer position is its own floor and ceiling. *)
Lemma whole_position x :
  Qeq_bool (inject_Z (Qfloor x)) x = true -> Qceiling x = Qfloor x.
Proof.
  intros H. apply Qeq_bool_iff in H.
  rewrite <- (Qceiling_Z (Qfloor x)). apply Qceiling_comp. now rewrite H.
Qed.

(** What [percentile] returns on an array of finite numbers: the element at
    the floor of the position, moved towards the element at its ceiling by
    the fraction of the position. *)
Lemma percentile_represents l p :
  all_finite l -> l <> [] -> (0 <= p <= 100)%Q ->
  let x := position (length l) p in
  exists a b,
    represents (at_index l (Z.to_nat (Qfloor x))) a
    /\ represents (at_index l (Z.to_nat (Qceiling x))) b
    /\ represents (percentile l p) (a + (b - a) * (x - inject_Z (Qfloor x))).
Proof.
  intros Hl Hne Hp x.
  assert (Hn : 0 < length l) by (destruct l; [contradiction | simpl; lia]).
  destruct (floor_bounds _ _ (position_bounds _ _ Hn Hp)) as [Hf Hc].
  fold x in Hf, Hc.
  destruct (finite_represents (at_index l (Z.to_nat (Qfloor x)))) as [a Ha];
    [apply Hl, at_index_elem; lia|].
  destruct (finite_represents (at_index l (Z.to_nat (Qceiling x)))) as [b Hb];
    [apply Hl, at_index_elem; lia|].
  exists a, b. split; [exact Ha|]. split; [exact Hb|].
  unfold percentile. fold (position (length l) p). fold x.
  destruct (Qeq_bool (inject_Z (Qfloor x)) x) eqn:E.
  - rewrite at_Z_index by lia.
    eapply represents_proper; [|exact Ha].
    rewrite (whole_position x E) in Hb.
    pose proof (represents_unique _ _ _ Ha Hb) as Hab.
    apply Qeq_bool_iff in E. rewrite Hab, E. ring.
  - rewrite !at_Z_index by lia.
    apply add_represents; [exact Ha|].
    apply mul_represents; [now apply sub_represents | apply fin_represents].
Qed.

Lemma percentile_finite l p :
  all_finite l -> l <> [] -> (0 <= p <= 100)%Q ->
  Num.is_finite (percentile l p) = true.
Proof.
  intros Hl Hne Hp.
  destruct (percentile_represents l p Hl Hne Hp) as [a [b [_ [_ H]]]].
  eapply represents_finite, H.
Qed.

(** ** Outliers *)

Lemma percentile_constant l q p :
  (forall v, v ∈ l -> represents v q) -> l <> [] -> (0 <= p <= 100)%Q ->
  represents (percentile l p) q.
Proof.
  intros Hq Hne Hp.
  assert (Hl : all_finite l)
    by (intros v Hv; eapply represents_finite, Hq, Hv).
  assert (Hn : 0 < length l) by (destruct l; [contradiction | simpl; lia]).
  destruct (floor_bounds _ _ (position_bounds _ _ Hn Hp)) as [Hf Hc].
  destruct (percentile_represents l p Hl Hne Hp) as [a [b [Ha [Hb H]]]].
  eapply represents_proper; [|exact H].
  assert (Ea : (a == q)%Q).
  { eapply represents_unique; [exact Ha|]. apply Hq, at_index_elem. lia. }
  assert (Eb : (b == q)%Q).
  { eapply represents_unique; [exact Hb|]. apply Hq, at_index_elem. lia. }
  rewrite Ea, Eb. ring.
Qed.

Lemma iqr_bounds_represents Q1 Q3 a b :
  represents Q1 a -> represents Q3 b ->
  represents (fst (iqr_bounds Q1 Q3)) (a - (3 # 2) * (b - a))
  /\ represents (snd (iqr_bounds Q1 Q3)) (b + (3 # 2) * (b - a)).
Proof.
  intros Ha Hb. unfold iqr_bounds. cbn [fst snd]. split.
  - apply sub_represents; [exact Ha|].
    apply mul_represents; [apply fin_represents | now apply sub_represents].
  - apply add_represents; [exact Hb|].
    apply mul_represents; [apply fin_represents | now apply sub_represents].
Qed.

Lemma detectOutliers_constant l q :
  (forall v, v ∈ l -> represents v q) -> detectOutliers l = [].
Proof.
  intros Hq. destruct l as [|v0 l']; [reflexivity|].
  set (l := v0 :: l') in *.
  assert (Hne : l <> []) by discriminate.
  unfold detectOutliers.
  assert (H1 := percentile_constant l q 25 Hq Hne ltac:(split; discriminate)).
  assert (H3 := percentile_constant l q 75 Hq Hne ltac:(split; discriminate)).
  destruct (iqr_bounds_represents _ _ _ _ H1 H3) as [Hlo Hhi].
  destruct (iqr_bounds _ _) as [lowerBound upperBound]. simpl in Hlo, Hhi.
  apply filter_none. intros v Hv. apply list_elem_of_In, Hq in Hv.
  unfold outside, Num.gt. apply orb_false_intro.
  - apply (lt_represents_false _ _ _ _ Hv Hlo). lra.
  - apply (lt_represents_false _ _ _ _ Hhi Hv). lra.
Qed.

(** X11.  The capping step leaves alone a column whose numbers are all equal:
    both quartiles are that number, and nothing is outside the bounds. *)
Theorem cap_column_constant cleanedData (s : store * nat) column q :
  (forall v, v ∈ parsed (column_values (fst s) cleanedData column) ->
             represents v q) ->
  cap_column cleanedData s column = s.
Proof.
  intros Hq. unfold cap_column.
  rewrite (detectOutliers_constant _ q Hq). simpl.
  now destruct (Nat.ltb 0 _).
Qed.

Lemma cap_column_constant_witness :
  (forall v, v ∈ parsed (column_values constant_table [0; 1] "v") ->
             represents v 5)
  /\ cap_column [0; 1] (constant_table, 0) "v" = (constant_table, 0).
Proof.
  assert (H : forall v, v ∈ parsed (column_values (fst (constant_table, 0)) [0; 1] "v") ->
                        represents v 5).
  { intros v Hv. change (v ∈ [Num.Fin 5; Num.Fin 5]) in Hv.
    repeat (apply elem_of_cons in Hv as [->|Hv]);
      try apply Fin_represents. inversion Hv. }
  split; [exact H|].
  exact (cap_column_constant [0; 1] (constant_table, 0) "v" 5 H).
Defined.

(** X12.  When the value read for the third quartile is below the value read
    for the first, the lower bound is above the upper bound and every value is
    outside them. *)
Theorem detectOutliers_inverted_quartiles l :
  Forall (fun v => Num.is_finite v = true) l ->
  Num.lt (percentile l 75) (percentile l 25) = true ->
  detectOutliers l = l.
Proof.
  intros Hl Hlt. rewrite Forall_forall in Hl.
  destruct l as [|v0 l']; [reflexivity|].
  set (l := v0 :: l') in *.
  assert (Hne : l <> []) by discriminate.
  unfold detectOutliers.
  destruct (finite_represents _ (percentile_finite l 25 Hl Hne ltac:(split; discriminate)))
    as [a Ha].
  destruct (finite_represents _ (percentile_finite l 75 Hl Hne ltac:(split; discriminate)))
    as [b Hb].
  apply (lt_represents _ _ _ _ Hb Ha) in Hlt.
  destruct (iqr_bounds_represents _ _ _ _ Ha Hb) as [Hlo Hhi].
  destruct (iqr_bounds _ _) as [lowerBound upperBound]. simpl in Hlo, Hhi.
  apply filter_all. intros v Hv. apply list_elem_of_In in Hv.
  destruct (finite_represents v (Hl v Hv)) as [x Hx].
  unfold outside, Num.gt.
  destruct (Qlt_le_dec x (a - (3 # 2) * (b - a))) as [Hlow|Hhigh].
  - apply orb_true_intro. left. now apply (lt_represents _ _ _ _ Hx Hlo).
  - apply orb_true_intro. right. apply (lt_represents _ _ _ _ Hhi Hx). lra.
Qed.

Lemma detectOutliers_inverted_quartiles_witness :
  Forall (fun v => Num.is_finite v = true) descending_values
  /\ Num.lt (percentile descending_values 75) (percentile descending_values 25)
     = true
  /\ detectOutliers descending_values = descending_values.
Proof.
  assert (H1 : Forall (fun v => Num.is_finite v = true) descending_values)
    by (repeat constructor).
  assert (H2 : Num.lt (percentile descending_values 75)
                 (percentile descending_values 25) = true) by reflexivity.
  split; [exact H1|]. split; [exact H2|].
  exact (detectOutliers_inverted_quartiles descending_values H1 H2).
Defined.

(** ** The smallest and the largest value *)

Lemma min_from l : forall acc m,
  all_finite l -> represents acc m ->
  exists r, represents (fold_left Num.min l acc) r /\ (r <= m)%Q
            /\ forall v x, v ∈ l -> represents v x -> (r <= x)%Q.
Proof.
  induction l as [|v l IH]; intros acc m Hl Hacc; simpl.
  - exists m. split; [exact Hacc|]. split; [apply Qle_refl|].
    intros v x Hv. inversion Hv.
  - apply all_finite_cons in Hl as [Hv Hl].
    destruct (finite_represents v Hv) as [x Hx].
    assert (Hmin : exists m', represents (Num.min acc v) m'
                              /\ (m' <= m)%Q /\ (m' <= x)%Q).
    { unfold Num.min.
      destruct Hacc as [m0 [-> Hm0]], Hx as [x0 [-> Hx0]]. simpl.
      destruct (x0 ?= m0)%Q eqn:E.
      - apply Qeq_alt in E. exists m. split; [now exists m0|].
        rewrite <- Hx0, E, Hm0. split; apply Qle_refl.
      - apply Qlt_alt in E. exists x. split; [now exists x0|].
        rewrite <- Hx0, <- Hm0. split; [now apply Qlt_le_weak | apply Qle_refl].
      - apply Qgt_alt in E. exists m. split; [now exists m0|].
        rewrite <- Hx0, <- Hm0. split; [apply Qle_refl | now apply Qlt_le_weak]. }
    destruct Hmin as [m' [Hm' [Hle1 Hle2]]].
    destruct (IH _ m' Hl Hm') as [r [Hr [Hrm Hall]]].
    exists r. split; [exact Hr|]. split; [lra|].
    intros w y Hw Hy. apply elem_of_cons in Hw as [->|Hw].
    + pose proof (represents_unique _ _ _ Hy Hx). lra.
    + now apply (Hall w).
Qed.

Lemma max_from l : forall acc m,
  all_finite l -> represents acc m ->
  exists r, represents (fold_left Num.max l acc) r /\ (m <= r)%Q
            /\ forall v x, v ∈ l -> represents v x -> (x <= r)%Q.
Proof.
  induction l as [|v l IH]; intros acc m Hl Hacc; simpl.
  - exists m. split; [exact Hacc|]. split; [apply Qle_refl|].
    intros v x Hv. inversion Hv.
  - apply all_finite_cons in Hl as [Hv Hl].
    destruct (finite_represents v Hv) as [x Hx].
    assert (Hmax : exists m', represents (Num.max acc v) m'
                              /\ (m <= m')%Q /\ (x <= m')%Q).
    { unfold Num.max.
      destruct Hacc as [m0 [-> Hm0]], Hx as [x0 [-> Hx0]]. simpl.
      destruct (m0 ?= x0)%Q eqn:E.
      - apply Qeq_alt in E. exists m. split; [now exists m0|].
        rewrite <- Hx0, <- E, Hm0. split; apply Qle_refl.
      - apply Qlt_alt in E. exists x. split; [now exists x0|].
        rewrite <- Hx0, <- Hm0. split; [now apply Qlt_le_weak | apply Qle_refl].
      - apply Qgt_alt in E. exists m. split; [now exists m0|].
        rewrite <- Hx0, <- Hm0. split; [apply Qle_refl | now apply Qlt_le_weak]. }
    destruct Hmax as [m' [Hm' [Hle1 Hle2]]].
    destruct (IH _ m' Hl Hm') as [r [Hr [Hrm Hall]]].
    exists r. split; [exact Hr|]. split; [lra|].
    intros w y Hw Hy. apply elem_of_cons in Hw as [->|Hw].
    + pose proof (represents_unique _ _ _ Hy Hx). lra.
    + now apply (Hall w).
Qed.

Lemma min_list_least l :
  all_finite l -> l <> [] ->
  exists r, represents (Num.min_list l) r
            /\ forall v x, v ∈ l -> represents v x -> (r <= x)%Q.
Proof.
  intros Hl Hne. destruct l as [|v l]; [contradiction|].
  unfold Num.min_list. simpl.
  pose proof (all_finite_cons _ _ Hl) as [Hv Hl'].
  destruct (finite_represents v Hv) as [x Hx].
  assert (E : Num.min Num.PInf v = v) by (destruct Hx as [x0 [-> _]]; reflexivity).
  rewrite E. destruct (min_from l v x Hl' Hx) as [r [Hr [Hrx Hall]]].
  exists r. split; [exact Hr|]. intros w y Hw Hy.
  apply elem_of_cons in Hw as [->|Hw].
  - pose proof (represents_unique _ _ _ Hy Hx). lra.
  - now apply (Hall w).
Qed.

Lemma max_list_greatest l :
  all_finite l -> l <> [] ->
  exists r, represents (Num.max_list l) r
            /\ forall v x, v ∈ l -> represents v x -> (x <= r)%Q.
Proof.
  intros Hl Hne. destruct l as [|v l]; [contradiction|].
  unfold Num.max_list. simpl.
  pose proof (all_finite_cons _ _ Hl) as [Hv Hl'].
  destruct (finite_represents v Hv) as [x Hx].
  assert (E : Num.max Num.NInf v = v) by (destruct Hx as [x0 [-> _]]; reflexivity).
  rewrite E. destruct (max_from l v x Hl' Hx) as [r [Hr [Hrx Hall]]].
  exists r. split; [exact Hr|]. intros w y Hw Hy.
  apply elem_of_cons in Hw as [->|Hw].
  - pose proof (represents_unique _ _ _ Hy Hx). lra.
  - now apply (Hall w).
Qed.

Lemma parsed_elem cells c :
  c ∈ cells -> Num.isNaN (Num.parseFloat_cell c) = false ->
  Num.parseFloat_cell c ∈ parsed cells.
Proof.
  intros Hc Hnan. unfold parsed. apply list_elem_of_In, filter_In. split.
  - apply in_map, list_elem_of_In, Hc.
  - now rewrite Hnan.
Qed.

(** The value that the normalisation writes for a cell, before it is
    printed with four decimals, lies between 0 and 1. *)
Lemma normalized_between_0_and_1 (cells : list (option string)) c :
  all_finite (parsed cells) ->
  c ∈ cells ->
  Num.isNaN (Num.parseFloat_cell c) = false ->
  Num.gt (Num.sub (Num.max_list (parsed cells)) (Num.min_list (parsed cells)))
         (Num.Fin 0) = true ->
  exists q,
    represents
      (Num.div (Num.sub (Num.parseFloat_cell c) (Num.min_list (parsed cells)))
         (Num.sub (Num.max_list (parsed cells)) (Num.min_list (parsed cells))))
      q
    /\ (0 <= q <= 1)%Q.
Proof.
  intros Hfinite Hc Hnan Hrange.
  pose proof (parsed_elem cells c Hc Hnan) as Hin.
  assert (Hne : parsed cells <> []) by (intros E; rewrite E in Hin; inversion Hin).
  destruct (min_list_least _ Hfinite Hne) as [lo [Hlo Hleast]].
  destruct (max_list_greatest _ Hfinite Hne) as [hi [Hhi Hmost]].
  destruct (finite_represents _ (Hfinite _ Hin)) as [x Hx].
  pose proof (Hleast _ _ Hin Hx). pose proof (Hmost _ _ Hin Hx).
  unfold Num.gt in Hrange.
  apply (lt_represents _ _ _ _ (Fin_represents 0) (sub_represents _ _ _ _ Hhi Hlo))
    in Hrange.
  exists ((x - lo) / (hi - lo))%Q. split.
  - apply div_represents; [now apply sub_represents | now apply sub_represents | lra].
  - split.
    + apply Qle_shift_div_l; lra.
    + apply Qle_shift_div_r; lra.
Qed.

(** ** Sorted values *)

Lemma sorted_head_least x l :
  Sorted at_most (x :: l) -> all_finite (x :: l) ->
  forall y a b, y ∈ l -> represents x a -> represents y b -> (a <= b)%Q.
Proof.
  revert x. induction l as [|z l IH]; intros x Hs Hl y a b Hy Ha Hb;
    [inversion Hy|].
  apply Sorted_inv in Hs as [Hs Hhd]. apply HdRel_inv in Hhd.
  apply all_finite_cons in Hl as [Hx Hl].
  destruct (finite_represents z) as [c Hc]; [apply Hl; left|].
  assert (Hac : (a <= c)%Q) by (apply (lt_represents_false _ _ _ _ Hc Ha), Hhd).
  apply elem_of_cons in Hy as [->|Hy].
  - pose proof (represents_unique _ _ _ Hb Hc). lra.
  - pose proof (IH z Hs Hl y c b Hy Hc Hb). lra.
Qed.

Lemma sorted_at_index l :
  Sorted at_most l -> all_finite l ->
  forall i j a b, i <= j -> j < length l ->
    represents (at_index l i) a -> represents (at_index l j) b -> (a <= b)%Q.
Proof.
  induction l as [|x l IH]; intros Hs Hl i j a b Hij Hj Ha Hb;
    [simpl in Hj; lia|].
  destruct i as [|i], j as [|j]; try lia.
  - pose proof (represents_unique _ _ _ Ha Hb) as E. rewrite E. apply Qle_refl.
  - apply (sorted_head_least x l Hs Hl (at_index l j) a b); [|exact Ha|exact Hb].
    apply at_index_elem. simpl in Hj. lia.
  - apply Sorted_inv in Hs as [Hs _]. apply all_finite_cons in Hl as [_ Hl].
    apply (IH Hs Hl i j a b); [lia | simpl in Hj; lia | exact Ha | exact Hb].
Qed.

Lemma sort_numbers_finite l : all_finite l -> all_finite (sort_numbers l).
Proof.
  intros Hl v Hv. apply Hl.
  apply list_elem_of_In. apply list_elem_of_In in Hv.
  eapply Permutation_in; [symmetry; apply sort_numbers_permutation | exact Hv].
Qed.

Lemma sort_numbers_length l : length (sort_numbers l) = length l.
Proof. symmetry. apply Permutation_length, sort_numbers_permutation. Qed.

(** On an array in ascending order the percentile does not decrease with
    [p]. *)
Lemma percentile_monotone l p p' :
  Sorted at_most l -> all_finite l -> l <> [] ->
  (0 <= p)%Q -> (p <= p')%Q -> (p' <= 100)%Q ->
  forall a b, represents (percentile l p) a -> represents (percentile l p') b ->
              (a <= b)%Q.
Proof.
  intros Hs Hl Hne Hp0 Hpp Hp1 a b Ha Hb.
  assert (Hn : 0 < length l) by (destruct l; [contradiction | simpl; lia]).
  assert (Hp : (0 <= p <= 100)%Q) by (split; lra).
  assert (Hp' : (0 <= p' <= 100)%Q) by (split; lra).
  pose proof (position_monotone (length l) p p' Hn Hpp) as Hxy.
  destruct (floor_bounds _ _ (position_bounds _ _ Hn Hp)) as [Hfx Hcx].
  destruct (floor_bounds _ _ (position_bounds _ _ Hn Hp')) as [Hfy Hcy].
  destruct (percentile_represents l p Hl Hne Hp) as [a1 [b1 [Ha1 [Hb1 Hx]]]].
  destruct (percentile_represents l p' Hl Hne Hp') as [a2 [b2 [Ha2 [Hb2 Hy]]]].
  cbv zeta in Hx, Hy.
  set (x := position (length l) p) in *. set (y := position (length l) p') in *.
  pose proof (represents_unique _ _ _ Ha Hx) as Ea.
  pose proof (represents_unique _ _ _ Hb Hy) as Eb.
  pose proof (fraction_bounds x) as [Fx0 Fx1].
  pose proof (fraction_bounds y) as [Fy0 Fy1].
  assert (Hfc : forall z, (Qfloor z <= Qceiling z)%Z).
  { intros z. rewrite Zle_Qle.
    eapply Qle_trans; [apply Qfloor_le | apply Qle_ceiling]. }
  pose proof (Hfc x) as Hfcx. pose proof (Hfc y) as Hfcy.
  assert (H1 : (a1 <= b1)%Q).
  { apply (sorted_at_index l Hs Hl (Z.to_nat (Qfloor x)) (Z.to_nat (Qceiling x)));
      [lia | lia | exact Ha1 | exact Hb1]. }
  assert (H2 : (a2 <= b2)%Q).
  { apply (sorted_at_index l Hs Hl (Z.to_nat (Qfloor y)) (Z.to_nat (Qceiling y)));
      [lia | lia | exact Ha2 | exact Hb2]. }
  rewrite Ea, Eb.
  destruct (Z_le_gt_dec (Qceiling x) (Qfloor y)) as [Hsep|Hsame].
  - assert (H3 : (b1 <= a2)%Q).
    { apply (sorted_at_index l Hs Hl (Z.to_nat (Qceiling x)) (Z.to_nat (Qfloor y)));
        [lia | lia | exact Hb1 | exact Ha2]. }
    nra.
  - assert (Hff : (Qfloor x <= Qfloor y)%Z) by now apply Qfloor_resp_le.
    assert (Hcc : (Qceiling x <= Qceiling y)%Z) by now apply Qceiling_resp_le.
    assert (Hc1 : (Qceiling x <= Qfloor x + 1)%Z).
    { pose proof (Qceiling_lt x) as Hlt. pose proof (Qlt_floor x) as Hlt'.
      pose proof (Qlt_trans _ _ _ Hlt Hlt') as H.
      rewrite <- Zlt_Qlt in H. lia. }
    assert (Hc2 : (Qceiling y <= Qfloor y + 1)%Z).
    { pose proof (Qceiling_lt y) as Hlt. pose proof (Qlt_floor y) as Hlt'.
      pose proof (Qlt_trans _ _ _ Hlt Hlt') as H.
      rewrite <- Zlt_Qlt in H. lia. }
    assert (Ef : Qfloor y = Qfloor x) by lia.
    assert (Ec : Qceiling y = Qceiling x) by lia.
    rewrite Ef in Ha2. rewrite Ec in Hb2.
    pose proof (represents_unique _ _ _ Ha1 Ha2) as E1.
    pose proof (represents_unique _ _ _ Hb1 Hb2) as E2.
    rewrite Ef in *. rewrite <- E1, <- E2 in *.
    assert (0 <= (b1 - a1) * (y - x))%Q by nra. 
    nra.
Qed.

Lemma percentile_bracket l p :
  Sorted at_most l -> all_finite l -> l <> [] -> (0 <= p <= 100)%Q ->
  exists lo hi a v b,
    lo ∈ l /\ hi ∈ l /\ represents lo a /\ represents hi b
    /\ represents (percentile l p) v /\ (a <= v <= b)%Q.
Proof.
  intros Hs Hl Hne Hp.
  assert (Hn : 0 < length l) by (destruct l; [contradiction | simpl; lia]).
  destruct (floor_bounds _ _ (position_bounds _ _ Hn Hp)) as [Hf Hc].
  destruct (percentile_represents l p Hl Hne Hp) as [a [b [Ha [Hb Hx]]]].
  cbv zeta in Hx. set (x := position (length l) p) in *.
  pose proof (fraction_bounds x) as [F0 F1].
  assert (Hfc : (Qfloor x <= Qceiling x)%Z).
  { rewrite Zle_Qle. eapply Qle_trans; [apply Qfloor_le | apply Qle_ceiling]. }
  assert (Hab : (a <= b)%Q).
  { apply (sorted_at_index l Hs Hl (Z.to_nat (Qfloor x)) (Z.to_nat (Qceiling x)));
      [lia | lia | exact Ha | exact Hb]. }
  exists (at_index l (Z.to_nat (Qfloor x))), (at_index l (Z.to_nat (Qceiling x))),
    a, (a + (b - a) * (x - inject_Z (Qfloor x)))%Q, b.
  repeat split; try assumption; try (apply at_index_elem; lia); nra.
Qed.

Lemma sort_numbers_elem l v : v ∈ sort_numbers l -> v ∈ l.
Proof.
  intros Hv. apply list_elem_of_In. apply list_elem_of_In in Hv.
  eapply Permutation_in; [symmetry; apply sort_numbers_permutation | exact Hv].
Qed.

(** X13.  The five numbers of the summary of a column whose numbers are whole
    numbers below [2^52] in magnitude are in order: the minimum, the first
    quartile, the median, the third quartile and the maximum. *)
Theorem summary_in_order (cells : list (option string)) :
  (forall x, x ∈ parsed cells -> whole x) ->
  parsed cells <> [] ->
  exists lo q1 median q3 hi,
    represents (Num.min_list (parsed cells)) lo
    /\ represents (percentile (sort_numbers (parsed cells)) 25) q1
    /\ represents (percentile (sort_numbers (parsed cells)) 50) median
    /\ represents (percentile (sort_numbers (parsed cells)) 75) q3
    /\ represents (Num.max_list (parsed cells)) hi
    /\ (lo <= q1)%Q /\ (q1 <= median)%Q /\ (median <= q3)%Q /\ (q3 <= hi)%Q.
Proof.
  intros Hl Hne. apply whole_finite in Hl. set (values := parsed cells) in *.
  set (sorted := sort_numbers values).
  assert (Hs : Sorted at_most sorted) by apply sort_numbers_sorted.
  assert (Hsl : all_finite sorted) by now apply sort_numbers_finite.
  assert (Hsne : sorted <> []).
  { intros E. apply (f_equal (@length _)) in E. unfold sorted in E.
    rewrite sort_numbers_length in E. destruct values; [contradiction | discriminate]. }
  destruct (min_list_least _ Hl Hne) as [lo [Hlo Hleast]].
  destruct (max_list_greatest _ Hl Hne) as [hi [Hhi Hmost]].
  destruct (percentile_bracket sorted 25 Hs Hsl Hsne ltac:(split; discriminate))
    as [x1 [_ [a1 [q1 [_ [Hx1 [_ [Ha1 [_ [Hq1 [Hq1lo _]]]]]]]]]]].
  destruct (percentile_bracket sorted 75 Hs Hsl Hsne ltac:(split; discriminate))
    as [_ [y3 [_ [q3 [b3 [_ [Hy3 [_ [Hb3 [Hq3 [_ Hq3hi]]]]]]]]]]].
  destruct (finite_represents _
              (percentile_finite sorted 50 Hsl Hsne ltac:(split; discriminate)))
    as [median Hmed].
  exists lo, q1, median, q3, hi.
  repeat (split; [assumption|]).
  split; [|split; [|split]].
  - pose proof (Hleast x1 a1 (sort_numbers_elem _ _ Hx1) Ha1). lra.
  - apply (percentile_monotone sorted 25 50 Hs Hsl Hsne); auto; discriminate.
  - apply (percentile_monotone sorted 50 75 Hs Hsl Hsne); auto; discriminate.
  - pose proof (Hmost y3 b3 (sort_numbers_elem _ _ Hy3) Hb3). lra.
Qed.

Lemma summary_in_order_witness :
  (forall x, x ∈ parsed [Some "3"; Some "1"; Some "2"] -> whole x)
  /\ parsed [Some "3"; Some "1"; Some "2"] <> []
  /\ exists lo q1 median q3 hi,
       represents (Num.min_list (parsed [Some "3"; Some "1"; Some "2"])) lo
       /\ represents
            (percentile (sort_numbers (parsed [Some "3"; Some "1"; Some "2"])) 25) q1
       /\ represents
            (percentile (sort_numbers (parsed [Some "3"; Some "1"; Some "2"])) 50)
            median
       /\ represents
            (percentile (sort_numbers (parsed [Some "3"; Some "1"; Some "2"])) 75) q3
       /\ represents (Num.max_list (parsed [Some "3"; Some "1"; Some "2"])) hi
       /\ (lo <= q1)%Q /\ (q1 <= median)%Q /\ (median <= q3)%Q /\ (q3 <= hi)%Q.
Proof.
  assert (Hwhole : forall x, x ∈ parsed [Some "3"; Some "1"; Some "2"] -> whole x).
  { intros x Hx. change (x ∈ [Num.Fin 3; Num.Fin 1; Num.Fin 2]) in Hx.
    whole_numbers Hx. }
  assert (H : parsed [Some "3"; Some "1"; Some "2"] <> []) by (vm_compute; discriminate).
  split; [exact Hwhole|]. split; [exact H|].
  exact (summary_in_order [Some "3"; Some "1"; Some "2"] Hwhole H).
Defined.

(** ** The median of the imputation *)

Lemma median_of_bracket l :
  all_finite l -> l <> [] ->
  exists lo hi a m b,
    lo ∈ l /\ hi ∈ l /\ represents lo a /\ represents hi b
    /\ represents (median_of l) m /\ (a <= m <= b)%Q.
Proof.
  intros Hl Hne.
  assert (Hn : 0 < length l) by (destruct l; [contradiction | simpl; lia]).
  unfold median_of.
  pose proof (Nat.div_lt (length l) 2 Hn ltac:(lia)) as Hhalf.
  destruct (Nat.eqb (length l mod 2) 0) eqn:E.
  - apply Nat.eqb_eq in E.
    assert (Hpos : 1 <= length l / 2).
    { pose proof (Nat.div_mod_eq (length l) 2). lia. }
    rewrite at_Z_index by lia.
    set (i := Z.to_nat (Z.of_nat (length l / 2) - 1)).
    assert (Hi : i < length l) by (unfold i; lia).
    destruct (finite_represents (at_index l i)) as [x Hx];
      [apply Hl, at_index_elem, Hi|].
    destruct (finite_represents (at_index l (length l / 2))) as [y Hy];
      [apply Hl, at_index_elem, Hhalf|].
    assert (Hm : represents
                   (Num.div (Num.add (at_index l i) (at_index l (length l / 2)))
                      (Num.Fin 2))
                   ((x + y) / 2)).
    { apply div_represents; [now apply add_represents | apply Fin_represents|].
      discriminate. }
    assert (Hs : ((x + y) / 2 == (x + y) * (1 # 2))%Q) by field.
    destruct (Qlt_le_dec x y) as [Hxy|Hyx].
    + exists (at_index l i), (at_index l (length l / 2)), x, ((x + y) / 2)%Q, y.
      repeat split; try assumption; try (now apply at_index_elem);
        rewrite Hs; lra.
    + exists (at_index l (length l / 2)), (at_index l i), y, ((x + y) / 2)%Q, x.
      repeat split; try assumption; try (now apply at_index_elem);
        rewrite Hs; lra.
  - destruct (finite_represents (at_index l (length l / 2))) as [y Hy];
      [apply Hl, at_index_elem, Hhalf|].
    exists (at_index l (length l / 2)), (at_index l (length l / 2)), y, y, y.
    repeat split; try assumption; try (now apply at_index_elem); apply Qle_refl.
Qed.

(** ** The type of a column *)

(** [count / n > 0.8] *)
Lemma ratio_above_80 (count n : nat) :
  0 < n ->
  (Num.gt (Num.div (Num.of_nat count) (Num.of_nat n)) (Num.fin (8 # 10)) = true
   <-> 4 * n < 5 * count).
Proof.
  intros Hn. unfold Num.gt.
  rewrite (lt_represents _ _ _ _ (fin_represents (8 # 10))
             (div_represents _ _ _ _ (of_nat_represents count)
                (of_nat_represents n) (of_nat_nonzero n Hn))).
  assert (Hpos : (0 < inject_Z (Z.of_nat n))%Q) by (rewrite <- (Zlt_Qlt 0); lia).
  split.
  - intros H. apply (Qmult_lt_compat_r _ _ _ Hpos) in H.
    assert (E : (inject_Z (Z.of_nat count) / inject_Z (Z.of_nat n)
                 * inject_Z (Z.of_nat n) == inject_Z (Z.of_nat count))%Q).
    { field. intros E0. rewrite E0 in Hpos. discriminate. }
    rewrite E in H. unfold Qlt in H. simpl in H. lia.
  - intros H. apply Qlt_shift_div_l; [exact Hpos|].
    unfold Qlt. simpl. lia.
Qed.

(** X14.  A column is numeric exactly when more than four in five of its
    values that are not empty are read as numbers by [parseFloat], and a date
    when it is not numeric and more than four in five are read by
    [Date.parse]. *)
Theorem detectDataType_thresholds rt (values : list (option string)) :
  (detectDataType rt values = "numeric"
   <-> 4 * length (non_empty values)
       < 5 * count_if reads_as_number (non_empty values))
  /\ (detectDataType rt values = "date"
      <-> 5 * count_if reads_as_number (non_empty values)
          <= 4 * length (non_empty values)
          /\ 4 * length (non_empty values)
             < 5 * count_if (is_date rt) (non_empty values)).
Proof.
  unfold detectDataType. fold (non_empty values).
  fold (count_if reads_as_number (non_empty values)).
  change (count_if (fun s => negb (Num.isNaN (Num.parseFloat s))) (non_empty values))
    with (count_if reads_as_number (non_empty values)).
  set (l := non_empty values).
  assert (Hc1 := count_if_le reads_as_number l).
  assert (Hc2 := count_if_le (is_date rt) l).
  destruct (Nat.eqb (length values) 0) eqn:E0.
  { apply Nat.eqb_eq in E0. destruct values; [|discriminate].
    unfold l, non_empty. simpl. split; split; try discriminate; lia. }
  destruct (Nat.eqb (length l) 0) eqn:E1.
  { apply Nat.eqb_eq in E1. rewrite E1 in *.
    split; split; try discriminate; lia. }
  apply Nat.eqb_neq in E1. assert (Hn : 0 < length l) by lia.
  pose proof (ratio_above_80 (count_if reads_as_number l) (length l) Hn) as R1.
  pose proof (ratio_above_80 (count_if (is_date rt) l) (length l) Hn) as R2.
  destruct (Num.gt (Num.div (Num.of_nat (count_if reads_as_number l)) _) _).
  { apply proj1 in R1. specialize (R1 eq_refl).
    split; split; try discriminate; try lia; auto. }
  assert (N1 : ~ 4 * length l < 5 * count_if reads_as_number l)
    by (intros H; apply R1 in H; discriminate).
  destruct (Num.gt (Num.div (Num.of_nat (count_if (is_date rt) l)) _) _).
  { apply proj1 in R2. specialize (R2 eq_refl).
    split; split; try discriminate; try lia; auto. }
  assert (N2 : ~ 4 * length l < 5 * count_if (is_date rt) l)
    by (intros H; apply R2 in H; discriminate).
  split; split; try discriminate; lia.
Qed.

Lemma count_if_positive {A : Type} (p : A -> bool) (l : list A) :
  0 < count_if p l -> exists x, x ∈ l /\ p x = true.
Proof.
  unfold count_if. induction l as [|x l IH]; simpl; [lia|].
  destruct (p x) eqn:E.
  - intros _. exists x. split; [left | exact E].
  - intros H. destruct (IH H) as [y [Hy Hp]]. exists y. split; [now right | exact Hp].
Qed.

Lemma non_empty_elem values s : s ∈ non_empty values -> Some s ∈ values.
Proof.
  unfold non_empty, strings_of. intros H.
  apply list_elem_of_In, filter_In in H as [H _]. apply list_elem_of_In in H.
  apply list_elem_of_omap in H as [c [Hc E]]. now subst c.
Qed.

Lemma numeric_has_a_number rt (values : list (option string)) :
  detectDataType rt values = "numeric" ->
  0 < count_if reads_as_number (non_empty values).
Proof.
  unfold detectDataType. fold (non_empty values).
  change (count_if (fun s => negb (Num.isNaN (Num.parseFloat s))) (non_empty values))
    with (count_if reads_as_number (non_empty values)).
  destruct (Nat.eqb (length values) 0); [discriminate|].
  destruct (Nat.eqb (length (non_empty values)) 0) eqn:E; [discriminate|].
  apply Nat.eqb_neq in E.
  destruct (Num.gt _ _) eqn:G.
  - intros _. apply ratio_above_80 in G; lia.
  - match goal with |- context [if ?b then _ else _] => destruct b end; discriminate.
Qed.

Lemma numeric_column_has_numbers rt (cells : list (option string)) :
  detectDataType rt (List.filter is_present cells) = "numeric" ->
  parsed cells <> [].
Proof.
  intros Hnum. apply numeric_has_a_number in Hnum.
  destruct (count_if_positive reads_as_number
              (non_empty (List.filter is_present cells))) as [s [Hs Hp]];
    [exact Hnum|].
  apply non_empty_elem, list_elem_of_In, filter_In in Hs as [Hs _].
  apply list_elem_of_In in Hs.
  assert (Hin := parsed_elem cells (Some s) Hs).
  unfold reads_as_number in Hp. apply negb_true_iff in Hp.
  specialize (Hin Hp). intros E. rewrite E in Hin. inversion Hin.
Qed.

(** X15.  The median that fills the missing cells of a numeric column whose
    numbers are whole numbers below [2^52] in magnitude is a finite number,
    and it lies between two numbers of the column. *)
Theorem imputed_median_between rt (st : store) cleanedData column :
  (forall x, x ∈ parsed (column_values st cleanedData column) -> whole x) ->
  detectDataType rt
    (List.filter is_present (column_values st cleanedData column)) = "numeric" ->
  exists lo hi a m b,
    lo ∈ parsed (column_values st cleanedData column)
    /\ hi ∈ parsed (column_values st cleanedData column)
    /\ represents lo a /\ represents hi b
    /\ represents
         (median_of (sort_numbers (parsed (column_values st cleanedData column))))
         m
    /\ (a <= m <= b)%Q.
Proof.
  intros Hl Hnum. apply whole_finite in Hl.
  apply numeric_column_has_numbers in Hnum.
  set (values := parsed (column_values st cleanedData column)) in *.
  destruct (median_of_bracket (sort_numbers values)) as
    [lo [hi [a [m [b [Hlo [Hhi H]]]]]]].
  - now apply sort_numbers_finite.
  - intros E. apply (f_equal (@length _)) in E.
    rewrite sort_numbers_length in E. destruct values; [contradiction | discriminate].
  - exists lo, hi, a, m, b.
    split; [now apply sort_numbers_elem|]. split; [now apply sort_numbers_elem|].
    exact H.
Qed.

Lemma imputed_median_between_witness :
  (forall x, x ∈ parsed (column_values blank_number_table [0; 1; 2] "n") -> whole x)
  /\ detectDataType Reference.runtime
    (List.filter is_present (column_values blank_number_table [0; 1; 2] "n"))
  = "numeric"
  /\ exists lo hi a m b,
       lo ∈ parsed (column_values blank_number_table [0; 1; 2] "n")
       /\ hi ∈ parsed (column_values blank_number_table [0; 1; 2] "n")
       /\ represents lo a /\ represents hi b
       /\ represents
            (median_of
               (sort_numbers (parsed (column_values blank_number_table [0; 1; 2] "n"))))
            m
       /\ (a <= m <= b)%Q.
Proof.
  assert (H : detectDataType Reference.runtime
                (List.filter is_present
                   (column_values blank_number_table [0; 1; 2] "n"))
              = "numeric") by reflexivity.
  assert (Hwhole : forall x,
             x ∈ parsed (column_values blank_number_table [0; 1; 2] "n") -> whole x).
  { intros x Hx. change (x ∈ [Num.Fin 1; Num.Fin 3]) in Hx. whole_numbers Hx. }
  split; [exact Hwhole|]. split; [exact H|].
  exact (imputed_median_between Reference.runtime blank_number_table [0; 1; 2] "n"
           Hwhole H).
Defined.

(** ** Recommendations *)

Lemma push_when_elem {A : Type} (condition : bool) (r x : A) l :
  x ∈ push_when condition r l -> x ∈ l \/ (condition = true /\ x = r).
Proof.
  unfold push_when. destruct condition; [|now left].
  intros H. apply elem_of_app in H as [H|H]; [now left|].
  apply list_elem_of_singleton in H. now right.
Qed.

Lemma fold_recommendations {A : Type} (P : recommendation -> Prop)
    (step : list recommendation -> A -> list recommendation) :
  (forall l x r, r ∈ step l x -> r ∈ l \/ P r) ->
  forall keys l r, r ∈ fold_left step keys l -> r ∈ l \/ P r.
Proof.
  intros Hstep keys.
  induction keys as [|k keys IH]; intros l r Hr; simpl in Hr; [now left|].
  apply IH in Hr as [Hr|Hr]; [|now right]. now apply Hstep in Hr.
Qed.

Lemma missing_values_recommendation_elem a l column r :
  r ∈ missing_values_recommendation a l column ->
  r ∈ l
  \/ (rec_type r = "missing_values"
      /\ exists info, property (missingValues a) column = Some info
           /\ Num.gt (Num.parseFloat (mi_percentage info)) (Num.Fin 20) = true).
Proof.
  unfold missing_values_recommendation.
  destruct (property _ column) as [info|]; [|now left].
  intros H. apply push_when_elem in H as [H|[Hc ->]]; [now left|].
  right. split; [reflexivity|]. now exists info.
Qed.

Lemma outliers_recommendation_elem a l column r :
  r ∈ outliers_recommendation a l column -> r ∈ l \/ rec_type r = "outliers".
Proof.
  unfold outliers_recommendation.
  destruct (property _ column) as [info|]; [|now left].
  intros H. apply push_when_elem in H as [H|[Hc ->]]; [now left | now right].
Qed.

(** Where each recommendation comes from. *)
Lemma generateDataQualityRecommendations_elem a r :
  r ∈ generateDataQualityRecommendations a ->
  (rec_type r = "completeness"
   /\ Num.lt (parseFloat_value (completeness (metrics a))) (Num.Fin 90) = true)
  \/ (rec_type r = "missing_values"
      /\ exists column info,
           property (missingValues a) column = Some info
           /\ Num.gt (Num.parseFloat (mi_percentage info)) (Num.Fin 20) = true)
  \/ rec_type r = "outliers"
  \/ (rec_type r = "duplicates" /\ 0 < duplicates a)
  \/ (rec_type r = "consistency"
      /\ Num.lt (parseFloat_value (consistency (metrics a))) (Num.Fin 95) = true).
Proof.
  unfold generateDataQualityRecommendations. intros H.
  apply push_when_elem in H as [H|[Hc ->]]; [|auto 10].
  apply push_when_elem in H as [H|[Hc ->]];
    [|right; right; right; left; split; [reflexivity | now apply Nat.ltb_lt]].
  apply (fold_recommendations (fun r => rec_type r = "outliers")) in H;
    [|intros l x r0; apply outliers_recommendation_elem].
  destruct H as [H|H]; [|auto].
  apply (fold_recommendations
           (fun r => rec_type r = "missing_values"
                     /\ exists column info,
                          property (missingValues a) column = Some info
                          /\ Num.gt (Num.parseFloat (mi_percentage info))
                               (Num.Fin 20) = true)) in H.
  - destruct H as [H|H]; [|auto].
    apply push_when_elem in H as [H|[Hc ->]]; [inversion H | auto].
  - intros l x r0 Hr0. apply missing_values_recommendation_elem in Hr0
      as [Hr0|[Ht [info Hinfo]]]; [now left|].
    right. split; [exact Ht|]. now exists x, info.
Qed.

Lemma consistency_of_analysis rt first rest :
  Num.lt (parseFloat_value (consistency (metrics (analyzeCSVQuality rt (first :: rest)))))
         (Num.Fin 95) = false.
Proof.
  cbn [analyzeCSVQuality metrics consistency].
  rewrite no_mixed_type, sub_zero.
  destruct (keys first) as [|k ks] eqn:E.
  - reflexivity.
  - rewrite percent_all by (simpl; lia). reflexivity.
Qed.

(** X16.  The recommendation to standardise the data types is never made: the
    consistency of the analysis of a table is never below 95. *)
Theorem consistency_is_never_recommended rt results :
  Forall (fun r => rec_type r <> "consistency") (recommendations rt results).
Proof.
  apply Forall_forall. intros r.
  unfold recommendations. destruct results as [|first rest];
    [intros H; inversion H|].
  intros H Ht. apply generateDataQualityRecommendations_elem in H.
  rewrite Ht in H.
  destruct H as [[H _]|[[H _]|[H|[[H _]|[_ H]]]]]; try discriminate.
  rewrite consistency_of_analysis in H. discriminate.
Qed.

Lemma property_elem {V : Type} (o : list (string * V)) key v :
  property o key = Some v -> exists p, p ∈ o /\ snd p = v.
Proof.
  unfold property. destruct (List.find _ o) as [p|] eqn:E; [|discriminate].
  intros [= <-]. apply find_some in E as [Hin _].
  exists p. split; [now apply list_elem_of_In | reflexivity].
Qed.

Lemma percent_none n : 0 < n -> percent (Num.of_nat 0) (Num.of_nat n) = "0.00".
Proof.
  intros Hn. unfold percent.
  assert (E : Num.div (Num.of_nat 0) (Num.of_nat n) = Num.Fin 0).
  { unfold Num.div, Num.of_nat. rewrite Qzero_false by now apply of_nat_nonzero.
    rewrite (fin_eq _ 0); [reflexivity|].
    simpl. unfold Qdiv. apply Qmult_0_l. }
  rewrite E. reflexivity.
Qed.

Lemma completeness_of_full_table rt first rest :
  (forall column, column ∈ keys first ->
                  missing_count (first :: rest) column = 0) ->
  Num.lt
    (parseFloat_value (completeness (metrics (analyzeCSVQuality rt (first :: rest)))))
    (Num.Fin 90) = false.
Proof.
  intros Hnone. cbn [analyzeCSVQuality metrics completeness].
  rewrite total_missing_zero by exact Hnone.
  rewrite mul_of_nat, sub_zero.
  destruct (length (first :: rest) * length (keys first)) as [|t] eqn:E.
  - reflexivity.
  - rewrite percent_all by lia. reflexivity.
Qed.

(** X17.  For a table in which no cell is missing, the recommendations are
    about outliers and duplicates only. *)
Theorem recommendations_of_a_full_table rt first rest :
  (forall column, column ∈ keys first ->
                  missing_count (first :: rest) column = 0) ->
  Forall (fun r => rec_type r = "outliers" \/ rec_type r = "duplicates")
    (recommendations rt (first :: rest)).
Proof.
  intros Hnone. apply Forall_forall. intros r H. unfold recommendations in H.
  apply generateDataQualityRecommendations_elem in H.
  destruct H as [[_ H]|[[_ H]|[H|[[H _]|[_ H]]]]]; auto.
  - rewrite completeness_of_full_table in H by exact Hnone. discriminate.
  - destruct H as [column [info [Hp Hgt]]].
    apply property_elem in Hp as [p [Hin <-]].
    cbn [analyzeCSVQuality missingValues] in Hin.
    apply list_elem_of_fmap in Hin as [c [-> Hc]]. cbn [snd mi_percentage] in Hgt.
    rewrite Hnone in Hgt by exact Hc.
    rewrite percent_none in Hgt by (simpl; lia). discriminate.
  - rewrite consistency_of_analysis in H. discriminate.
Qed.

Lemma recommendations_of_a_full_table_witness :
  (forall column, column ∈ keys [("k", "p"); ("c", "b")] ->
                  missing_count full_table column = 0)
  /\ Forall (fun r => rec_type r = "outliers" \/ rec_type r = "duplicates")
       (recommendations Reference.runtime full_table).
Proof.
  assert (H : forall column, column ∈ keys [("k", "p"); ("c", "b")] ->
                             missing_count full_table column = 0).
  { intros column Hc. change (column ∈ ["k"; "c"]) in Hc.
    repeat (apply elem_of_cons in Hc as [->|Hc]); try reflexivity. inversion Hc. }
  split; [exact H|].
  exact (recommendations_of_a_full_table Reference.runtime
           [("k", "p"); ("c", "b")] [[("k", "q"); ("c", "b")]] H).
Defined.

(** ** The metrics stored with a cleaned table *)

Lemma count_cells_row column data : forall m v,
  let c := fold_left
             (fun counters (r : row) =>
                let '(missingCells, validCells) := counters in
                if negb (is_present (get r column))
                then (S missingCells, validCells)
                else (missingCells, S validCells))
             data (m, v) in
  fst c + snd c = m + v + length data.
Proof.
  induction data as [|r data IH]; intros m v; simpl; [lia|].
  destruct (negb (is_present (get r column))); rewrite IH; simpl; lia.
Qed.

Lemma count_cells_total data headers : forall m v,
  let c := fold_left
             (fun counters column =>
                fold_left
                  (fun counters (r : row) =>
                     let '(missingCells, validCells) := counters in
                     if negb (is_present (get r column))
                     then (S missingCells, validCells)
                     else (missingCells, S validCells))
                  data counters)
             headers (m, v) in
  fst c + snd c = m + v + length data * length headers.
Proof.
  induction headers as [|column headers IH]; intros m v; simpl; [lia|].
  pose proof (count_cells_row column data m v) as Hrow. cbv zeta in Hrow.
  destruct (fold_left _ data (m, v)) as [m' v']. simpl in Hrow.
  rewrite IH. lia.
Qed.

Lemma sub_of_nat t m v :
  m + v = t -> Num.sub (Num.of_nat t) (Num.of_nat m) = Num.of_nat v.
Proof.
  intros <-. unfold Num.sub, Num.of_nat.
  change (Num.neg (Num.Fin (inject_Z (Z.of_nat m))))
    with (Num.Fin (Qred (- inject_Z (Z.of_nat m)))).
  cbn [Num.add].
  rewrite (fin_eq _ (inject_Z (Z.of_nat v))).
  - unfold Num.fin. now rewrite Qred_inject_Z.
  - rewrite Qred_correct, Nat2Z.inj_add, inject_Z_plus. ring.
Qed.

(** X18.  The validity stored with a cleaned table is its completeness: the
    cells that are counted as valid are those that are not counted as missing. *)
Theorem stored_validity_is_completeness (data : list row) (headers : list string) :
  validity (calculateQualityMetrics data headers)
  = completeness (calculateQualityMetrics data headers).
Proof.
  unfold calculateQualityMetrics.
  pose proof (count_cells_total data headers 0 0) as Htotal. cbv zeta in Htotal.
  fold (count_cells data headers) in Htotal.
  destruct (count_cells data headers) as [missingCells validCells].
  cbn [validity completeness]. simpl in Htotal.
  rewrite mul_of_nat. now rewrite (sub_of_nat _ missingCells validCells).
Qed.

(** ** Text *)

Lemma chars_of_chars l : Str.chars (Str.of_chars l) = l.
Proof. apply list_ascii_of_string_of_list_ascii. Qed.

Lemma of_chars_chars s : Str.of_chars (Str.chars s) = s.
Proof. apply string_of_list_ascii_of_string. Qed.

Lemma drop_spaces_starts_black l : starts_black (Str.drop_spaces l).
Proof.
  induction l as [|c l IH]; simpl; [exact I|].
  destruct (Str.is_white_space c) eqn:E; [exact IH | exact E].
Qed.

Lemma drop_spaces_id l : starts_black l -> Str.drop_spaces l = l.
Proof. destruct l as [|c l]; simpl; [reflexivity|]. now intros ->. Qed.

Lemma drop_spaces_suffix l : exists p, l = p ++ Str.drop_spaces l.
Proof.
  induction l as [|c l [p IH]]; simpl; [now exists []|].
  destruct (Str.is_white_space c).
  - exists (c :: p). simpl. now f_equal.
  - now exists [].
Qed.

(** White space at the end of a list is dropped from its reverse. *)
Lemma drop_spaces_keeps_last l c :
  Str.is_white_space c = false ->
  exists p, Str.drop_spaces (l ++ [c]) = p ++ [c].
Proof.
  intros Hc. induction l as [|d l [p IH]]; simpl.
  - rewrite Hc. now exists [].
  - destruct (Str.is_white_space d); [now exists p|].
    now exists (d :: l).
Qed.

Lemma trim_chars_idempotent l :
  let t := rev (Str.drop_spaces (rev (Str.drop_spaces l))) in
  rev (Str.drop_spaces (rev (Str.drop_spaces t))) = t.
Proof.
  intros t.
  assert (Hend : starts_black (rev t)).
  { unfold t. rewrite rev_involutive. apply drop_spaces_starts_black. }
  assert (Hstart : starts_black t).
  { unfold t. pose proof (drop_spaces_starts_black l) as Hl.
    destruct (Str.drop_spaces l) as [|c l'] eqn:E; [exact I|].
    simpl in Hl. simpl rev.
    destruct (drop_spaces_keeps_last (rev l') c Hl) as [p Hp].
    rewrite Hp, rev_app_distr. simpl. exact Hl. }
  rewrite (drop_spaces_id t Hstart), (drop_spaces_id (rev t) Hend).
  apply rev_involutive.
Qed.

Lemma trim_idempotent s : Str.trim (Str.trim s) = Str.trim s.
Proof.
  unfold Str.trim. rewrite chars_of_chars. f_equal. apply trim_chars_idempotent.
Qed.

Lemma lower_char_white_space c :
  Str.is_white_space (Str.lower_char c) = Str.is_white_space c.
Proof.
  destruct c as [[] [] [] [] [] [] [] []]; reflexivity.
Qed.

Lemma lower_char_idempotent c :
  Str.lower_char (Str.lower_char c) = Str.lower_char c.
Proof.
  destruct c as [[] [] [] [] [] [] [] []]; reflexivity.
Qed.

Lemma drop_spaces_lower l :
  Str.drop_spaces (map Str.lower_char l) = map Str.lower_char (Str.drop_spaces l).
Proof.
  induction l as [|c l IH]; simpl; [reflexivity|].
  rewrite lower_char_white_space. now destruct (Str.is_white_space c).
Qed.

Lemma trim_toLowerCase s :
  Str.trim (Str.toLowerCase s) = Str.toLowerCase (Str.trim s).
Proof.
  unfold Str.trim, Str.toLowerCase. rewrite !chars_of_chars. f_equal.
  rewrite drop_spaces_lower, <- map_rev, drop_spaces_lower, map_rev.
  reflexivity.
Qed.

Lemma toLowerCase_idempotent s :
  Str.toLowerCase (Str.toLowerCase s) = Str.toLowerCase s.
Proof.
  unfold Str.toLowerCase. rewrite chars_of_chars, map_map. f_equal.
  apply map_ext. intros c. apply lower_char_idempotent.
Qed.

Lemma standardized_again v :
  Str.toLowerCase (Str.trim (Str.toLowerCase (Str.trim v)))
  = Str.toLowerCase (Str.trim v).
Proof.
  now rewrite trim_toLowerCase, trim_idempotent, toLowerCase_idempotent.
Qed.

Lemma set_set (r : row) column v w :
  set (set r column v) column w = set r column w.
Proof.
  induction r as [|[k u] r IH]; simpl.
  - now rewrite String.eqb_refl.
  - destruct (String.eqb k column) eqn:E; simpl; rewrite E; [reflexivity|].
    now rewrite IH.
Qed.

(** X19.  Standardising the text of a row a second time changes nothing. *)
Theorem standardize_row_idempotent column (r : row) :
  fst (standardize_row column (fst (standardize_row column r)))
  = fst (standardize_row column r).
Proof.
  destruct (get r column) as [v|] eqn:E.
  - destruct (String.eqb v "") eqn:T.
    + assert (H : standardize_row column r = (r, 0))
        by (unfold standardize_row, truthy; now rewrite E, T).
      rewrite H. cbn [fst]. now rewrite H.
    + assert (H : standardize_row column r
                  = (set r column (Str.toLowerCase (Str.trim v)), 0))
        by (unfold standardize_row, truthy; now rewrite E, T).
      rewrite H. cbn [fst]. unfold standardize_row. rewrite get_set.
      destruct (truthy _); [|reflexivity]. cbn [fst].
      now rewrite set_set, standardized_again.
  - assert (H : standardize_row column r = (r, 0))
      by (unfold standardize_row; now rewrite E).
    rewrite H. cbn [fst]. now rewrite H.
Qed.

(** ** Telephone numbers *)

Lemma drop_spaces_incl l c : c ∈ Str.drop_spaces l -> c ∈ l.
Proof.
  destruct (drop_spaces_suffix l) as [p Hp]. intros Hc.
  rewrite Hp. apply elem_of_app. now right.
Qed.

Lemma trim_incl s c : c ∈ Str.chars (Str.trim s) -> c ∈ Str.chars s.
Proof.
  unfold Str.trim. rewrite chars_of_chars. intros Hc.
  apply list_elem_of_In, in_rev, list_elem_of_In, drop_spaces_incl in Hc.
  apply list_elem_of_In, in_rev, list_elem_of_In, drop_spaces_incl in Hc.
  exact Hc.
Qed.

Lemma keep_incl class s c : c ∈ Str.chars (Str.keep class s) -> c ∈ Str.chars s.
Proof.
  unfold Str.keep. rewrite chars_of_chars. intros Hc.
  apply list_elem_of_In, filter_In in Hc as [Hc _]. now apply list_elem_of_In.
Qed.

Lemma keep_class class s :
  forallb class (Str.chars (Str.keep class s)) = true.
Proof.
  unfold Str.keep. rewrite chars_of_chars. apply forallb_forall.
  intros c Hc. now apply filter_In in Hc.
Qed.

Lemma lower_char_phone c : phone_char c = true -> Str.lower_char c = c.
Proof.
  destruct c as [[] [] [] [] [] [] [] []]; (reflexivity || discriminate).
Qed.

Lemma toLowerCase_phone s :
  forallb phone_char (Str.chars s) = true -> Str.toLowerCase s = s.
Proof.
  intros H. unfold Str.toLowerCase.
  rewrite <- (of_chars_chars s) at 2. f_equal.
  rewrite <- (map_id (Str.chars s)) at 2. apply map_ext_in.
  intros c Hc. apply lower_char_phone.
  now apply (proj1 (forallb_forall _ _) H).
Qed.

Lemma forallb_incl {A : Type} (p : A -> bool) (l l' : list A) :
  (forall x, x ∈ l' -> x ∈ l) -> forallb p l = true -> forallb p l' = true.
Proof.
  intros Hincl H. apply forallb_forall. intros x Hx.
  apply (proj1 (forallb_forall _ _) H), list_elem_of_In, Hincl, list_elem_of_In, Hx.
Qed.

(** X20.  After the last step, a cell of a column whose name contains [phone]
    holds only digits and the signs [+], [-], [(] and [)]. *)
Theorem validate_row_phone rt column (r : row) value :
  Str.includes (Str.toLowerCase column) "phone" = true ->
  get r column = Some value ->
  exists value',
    get (fst (validate_row rt column r)) column = Some value'
    /\ forallb phone_char (Str.chars value') = true.
Proof.
  intros Hphone Hget. unfold validate_row. rewrite Hget, Hphone.
  destruct (truthy (Some value)) eqn:T.
  2:{ cbn [fst]. exists value. split; [exact Hget|].
      unfold truthy in T. apply negb_false_iff, String.eqb_eq in T. now subst. }
  destruct (String.eqb (Str.keep phone_char value) value) eqn:Eclean; cbn [negb].
  - apply String.eqb_eq in Eclean.
    assert (Hall : forallb phone_char (Str.chars value) = true)
      by (rewrite <- Eclean; apply keep_class).
    destruct (Str.includes (Str.toLowerCase column) "email").
    + cbn [fst]. rewrite get_set, (toLowerCase_phone value Hall). eauto.
    + destruct (Num.isNaN (Num.parseFloat value) && not_Date_parse rt value);
        [|cbn [fst]; eauto].
      destruct (String.eqb _ value); cbn [negb fst]; [eauto|].
      rewrite get_set. eexists. split; [reflexivity|].
      apply (forallb_incl _ (Str.chars value)); [|exact Hall].
      intros c Hc. eapply keep_incl, trim_incl, Hc.
  - cbn [fst]. rewrite get_set. eexists. split; [reflexivity|].
    apply keep_class.
Qed.

Lemma validate_row_phone_witness :
  Str.includes (Str.toLowerCase "phone") "phone" = true
  /\ get phone_row "phone" = Some "(555) 123-4567"
  /\ exists value',
       get (fst (validate_row Reference.runtime "phone" phone_row)) "phone"
       = Some value'
       /\ forallb phone_char (Str.chars value') = true.
Proof.
  assert (H1 : Str.includes (Str.toLowerCase "phone") "phone" = true) by reflexivity.
  assert (H2 : get phone_row "phone" = Some "(555) 123-4567") by reflexivity.
  split; [exact H1|]. split; [exact H2|].
  exact (validate_row_phone Reference.runtime "phone" phone_row
           "(555) 123-4567" H1 H2).
Defined.

(** ** The rows that are kept *)

Lemma firsts_fresh {A K : Type} `{EqDecision K} (f : A -> K) l : forall p x,
  x ∈ firsts f p l -> forall y, y ∈ p -> f y <> f x.
Proof.
  induction l as [|z l IH]; intros p x Hx y Hy; simpl in Hx; [inversion Hx|].
  destruct (existsb (fun y => bool_decide (f y = f z)) p) eqn:E.
  - apply (IH (p ++ [z]) x Hx y). apply elem_of_app. now left.
  - apply elem_of_cons in Hx as [->|Hx].
    + intros Heq.
      assert (Hex : existsb (fun y => bool_decide (f y = f z)) p = true)
        by (apply existsb_key; eauto).
      congruence.
    + apply (IH (p ++ [z]) x Hx y). apply elem_of_app. now left.
Qed.

Lemma firsts_distinct {A K : Type} `{EqDecision K} (f : A -> K) l : forall p,
  NoDup (map f (firsts f p l)).
Proof.
  induction l as [|z l IH]; intros p; simpl; [constructor|].
  destruct (existsb _ p); [apply IH|].
  cbn [map]. apply NoDup_cons. split; [|apply IH].
  intros Hin. apply list_elem_of_fmap in Hin as [x [Heq Hx]].
  apply (firsts_fresh f l (p ++ [z]) x Hx z); [|congruence].
  apply elem_of_app. right. apply list_elem_of_singleton. reflexivity.
Qed.

(** X21.  After the first step of the cleaner no two rows of [cleanedData] are
    equal. *)
Theorem remove_duplicates_distinct (results : list row) :
  NoDup (rows_of results (remove_duplicates results (seq 0 (length results)))).
Proof.
  unfold remove_duplicates. rewrite uniqBy_firsts.
  pose proof (firsts_distinct (JSON_stringify results) (seq 0 (length results)) [])
    as Hnd.
  set (kept := firsts (JSON_stringify results) [] (seq 0 (length results))) in *.
  assert (Hvalid : forall ref, ref ∈ kept -> ref < length results).
  { intros ref Href. apply firsts_incl, list_elem_of_In, in_seq in Href. lia. }
  clearbody kept. unfold rows_of, JSON_stringify in *.
  induction kept as [|ref kept IH]; [constructor|].
  destruct (lookup_lt_is_Some_2 results ref (Hvalid ref ltac:(left))) as [r Hr].
  cbn [omap list_omap map] in *. rewrite Hr in *. cbn [option_bind] in *.
  apply NoDup_cons in Hnd as [Hout Hnd].
  apply NoDup_cons. split.
  - intros Hin. apply Hout. apply list_elem_of_omap in Hin as [ref' [Href' Hr']].
    apply list_elem_of_fmap. exists ref'. split; [now rewrite Hr'|exact Href'].
  - apply IH; [exact Hnd|]. intros x Hx. apply Hvalid. now right.
Qed.

(** ** Printing a number and reading it again *)

Lemma digit_value_digit c :
  Str.is_digit c = true ->
  Num.digit_value 10 c = Some (Z.of_nat (Str.code c - 48)).
Proof.
  intros Hc. unfold Num.digit_value. rewrite Hc.
  unfold Str.is_digit, Str.between in Hc.
  apply andb_true_iff in Hc as [H1 H2].
  apply Nat.leb_le in H1, H2.
  assert (Hlt : Nat.ltb (Str.code c - 48) 10 = true) by (apply Nat.ltb_lt; lia).
  now rewrite Hlt.
Qed.

Lemma digits_value l : forall rest acc len,
  forallb Str.is_digit l = true ->
  match rest with
  | [] => True
  | c :: _ => Num.digit_value 10 c = None
  end ->
  Num.digits 10 (l ++ rest) acc len = (value_of l acc, len + length l, rest)%nat.
Proof.
  induction l as [|c l IH]; intros rest acc len Hl Hrest.
  - simpl. rewrite Nat.add_0_r. destruct rest as [|c rest]; [reflexivity|].
    simpl. now rewrite Hrest.
  - simpl in Hl. apply andb_true_iff in Hl as [Hc Hl].
    cbn [app Num.digits]. rewrite (digit_value_digit c Hc).
    rewrite (IH rest _ _ Hl Hrest). cbn [value_of fold_left length].
    replace (S len + length l)%nat with (len + S (length l))%nat by lia.
    reflexivity.
Qed.

Lemma value_of_app a b acc : value_of (a ++ b) acc = value_of b (value_of a acc).
Proof. unfold value_of. apply fold_left_app. Qed.

Lemma value_of_shift l : forall acc,
  value_of l acc = (acc * 10 ^ Z.of_nat (length l) + value_of l 0)%Z.
Proof.
  induction l as [|c l IH]; intros acc.
  - simpl. lia.
  - cbn [value_of fold_left length]. fold (value_of l).
    rewrite (IH (10 * acc + _)%Z), (IH (10 * 0 + _)%Z).
    rewrite Nat2Z.inj_succ, Z.pow_succ_r by lia. ring.
Qed.

Lemma value_of_zeros m : value_of (repeat "0"%char m) 0 = 0%Z.
Proof. induction m as [|m IH]; [reflexivity|]. simpl. exact IH. Qed.

Lemma uint_digits u :
  forallb Str.is_digit (Str.chars (NilEmpty.string_of_uint u)) = true.
Proof. induction u; simpl; auto. Qed.

Lemma uint_value_acc u : forall acc,
  value_of (Str.chars (NilEmpty.string_of_uint u)) (Z.pos acc)
  = Z.pos (Pos.of_uint_acc u acc).
Proof.
  induction u; intros acc; cbn [NilEmpty.string_of_uint Str.chars
    list_ascii_of_string value_of fold_left Pos.of_uint_acc];
    [reflexivity|..];
    fold (Str.chars (NilEmpty.string_of_uint u));
    fold (value_of (Str.chars (NilEmpty.string_of_uint u)));
    rewrite <- IHu; f_equal; vm_compute Str.code; lia.
Qed.

Lemma uint_value u :
  value_of (Str.chars (NilEmpty.string_of_uint u)) 0 = Z.of_N (Pos.of_uint u).
Proof.
  induction u; cbn [NilEmpty.string_of_uint Str.chars
    list_ascii_of_string value_of fold_left Pos.of_uint];
    [reflexivity|..];
    fold (Str.chars (NilEmpty.string_of_uint u));
    fold (value_of (Str.chars (NilEmpty.string_of_uint u)));
    first [exact IHu | apply (uint_value_acc u)].
Qed.

Lemma string_of_Z_digits n :
  (0 <= n)%Z ->
  forallb Str.is_digit (Str.chars (Str.string_of_Z n)) = true
  /\ value_of (Str.chars (Str.string_of_Z n)) 0 = n
  /\ Str.chars (Str.string_of_Z n) <> [].
Proof.
  intros Hn. destruct n as [|p|p]; [repeat split; discriminate| |lia].
  unfold Str.string_of_Z. cbn [Z.to_int NilZero.string_of_int].
  pose proof (DecimalPos.Unsigned.of_to p) as Hp.
  destruct (Pos.to_uint p) eqn:E; [discriminate|..];
    cbv beta iota delta [NilZero.string_of_uint];
    (split; [apply uint_digits|]; split;
     [rewrite uint_value, Hp; reflexivity | discriminate]).
Qed.

Lemma digit_not_space c : Str.is_digit c = true -> Str.is_white_space c = false.
Proof. destruct c as [[] [] [] [] [] [] [] []]; (reflexivity || discriminate). Qed.

Lemma digit_not_sign c l :
  Str.is_digit c = true -> Num.signed (c :: l) = (false, c :: l).
Proof. destruct c as [[] [] [] [] [] [] [] []]; (reflexivity || discriminate). Qed.

Lemma digit_not_Infinity c l :
  Str.is_digit c = true -> Str.is_prefix (Str.chars "Infinity") (c :: l) = false.
Proof. destruct c as [[] [] [] [] [] [] [] []]; (reflexivity || discriminate). Qed.

(** The text that [toFixed] prints, with at least one decimal: a sign, the
    digits of the integer part, a point and the decimals. *)
Lemma parseFloat_fixed (negative : bool) ip fp :
  ip <> [] -> forallb Str.is_digit ip = true -> forallb Str.is_digit fp = true ->
  Num.parseFloat
    (Str.of_chars ((if negative then ["-"%char] else []) ++ ip ++ "."%char :: fp))
  = Num.fin
      (let v := ((inject_Z (value_of ip 0)
                  + inject_Z (value_of fp 0)
                    / inject_Z (10 ^ Z.of_nat (length fp))) * Num.pow10 0)%Q in
       if negative then (- v)%Q else v).
Proof.
  intros Hne Hip Hfp. unfold Num.parseFloat. rewrite chars_of_chars.
  destruct ip as [|c ip']; [contradiction|].
  assert (Hc : Str.is_digit c = true) by (simpl in Hip; now apply andb_true_iff in Hip).
  assert (Hsigned :
            Num.signed
              (Str.drop_spaces
                 ((if negative then ["-"%char] else []) ++ (c :: ip') ++ "."%char :: fp))
            = (negative, (c :: ip') ++ "."%char :: fp)).
  { destruct negative; cbn [app].
    - reflexivity.
    - cbn [Str.drop_spaces]. rewrite (digit_not_space c Hc).
      apply digit_not_sign, Hc. }
  rewrite Hsigned. cbn [app]. rewrite (digit_not_Infinity c _ Hc).
  change (c :: ip' ++ "."%char :: fp) with ((c :: ip') ++ "."%char :: fp).
  unfold Num.decimal_literal.
  rewrite (digits_value (c :: ip') ("."%char :: fp) 0 0 Hip eq_refl).
  rewrite <- (app_nil_r fp) at 1.
  rewrite (digits_value fp [] 0 0 Hfp I).
  cbn [Nat.add length Nat.eqb andb Num.exponent]. 
  destruct negative; reflexivity.
Qed.

Lemma of_chars_app a b :
  Str.of_chars (a ++ b) = (Str.of_chars a ++ Str.of_chars b)%string.
Proof. induction a as [|c a IH]; simpl; [reflexivity | now rewrite IH]. Qed.

Lemma forallb_repeat_zero m : forallb Str.is_digit (repeat "0"%char m) = true.
Proof. induction m as [|m IH]; [reflexivity | exact IH]. Qed.

(** The digits of [toFixed]: [n] printed with at least [k + 1] digits, cut
    before the last [k]. *)
Lemma fixed_digits k n :
  (0 <= n)%Z ->
  let ds0 := Str.chars (Str.string_of_Z n) in
  let ds := repeat "0"%char (S k - length ds0) ++ ds0 in
  let ip := firstn (length ds - k) ds in
  let fp := skipn (length ds - k) ds in
  ip <> [] /\ forallb Str.is_digit ip = true /\ forallb Str.is_digit fp = true
  /\ length fp = k
  /\ (value_of ip 0 * 10 ^ Z.of_nat k + value_of fp 0 = n)%Z.
Proof.
  intros Hn ds0 ds ip fp.
  destruct (string_of_Z_digits n Hn) as [Hd [Hv Hne]]. fold ds0 in Hd, Hv, Hne.
  assert (Hlen : k < length ds).
  { unfold ds. rewrite length_app, repeat_length. lia. }
  assert (Hds : forallb Str.is_digit ds = true).
  { unfold ds. rewrite forallb_app, forallb_repeat_zero, Hd. reflexivity. }
  assert (Hval : value_of ds 0 = n).
  { unfold ds. now rewrite value_of_app, value_of_zeros. }
  assert (Hsplit : ds = ip ++ fp) by (symmetry; apply firstn_skipn).
  assert (Hfp : length fp = k) by (unfold fp; rewrite length_skipn; lia).
  rewrite Hsplit, forallb_app in Hds. apply andb_true_iff in Hds as [Hip Hfpd].
  repeat split; try assumption.
  - intros E. apply (f_equal (@length _)) in E. unfold ip in E.
    rewrite length_firstn in E. simpl in E. lia.
  - rewrite <- Hval, Hsplit, value_of_app, (value_of_shift fp (value_of ip 0)), Hfp.
    reflexivity.
Qed.

Lemma Q_toFixed_shape k q :
  1 <= k ->
  exists ip fp,
    Num.Q_toFixed k q
    = Str.of_chars ((if Num.Qneg q then ["-"%char] else []) ++ ip ++ "."%char :: fp)
    /\ ip <> [] /\ forallb Str.is_digit ip = true
    /\ forallb Str.is_digit fp = true /\ length fp = k
    /\ (value_of ip 0 * 10 ^ Z.of_nat k + value_of fp 0
        = Qfloor (Qabs q * inject_Z (10 ^ Z.of_nat k) + (1 # 2)))%Z.
Proof.
  intros Hk. set (n := Qfloor (Qabs q * inject_Z (10 ^ Z.of_nat k) + (1 # 2))).
  assert (Hn : (0 <= n)%Z).
  { unfold n. rewrite <- (Qfloor_Z 0). apply Qfloor_resp_le.
    assert (0 <= Qabs q)%Q by apply Qabs_nonneg.
    assert (0 <= inject_Z (10 ^ Z.of_nat k))%Q
      by (rewrite <- (Zle_Qle 0); apply Z.pow_nonneg; lia).
    change (inject_Z 0) with 0%Q. nra. }
  pose proof (fixed_digits k n Hn) as H. cbv zeta in H.
  destruct H as [Hne [Hip [Hfp [Hlen Hval]]]].
  eexists. eexists. split; [|repeat split; eassumption].
  unfold Num.Q_toFixed. fold n. destruct k as [|k']; [lia|].
  rewrite !of_chars_app. destruct (Num.Qneg q); reflexivity.
Qed.

Lemma Qneg_nonnegative q : (0 <= q)%Q -> Num.Qneg q = false.
Proof.
  intros Hq. unfold Num.Qneg. apply Z.ltb_ge.
  unfold Qle in Hq. simpl in Hq. lia.
Qed.

(** Reading what [toFixed] printed gives the number rounded to [k]
    decimals. *)
Lemma parseFloat_toFixed k x q :
  1 <= k -> represents x q -> (0 <= q)%Q ->
  represents (Num.parseFloat (Num.toFixed k x))
    (inject_Z (Qfloor (q * inject_Z (10 ^ Z.of_nat k) + (1 # 2)))
     / inject_Z (10 ^ Z.of_nat k)).
Proof.
  intros Hk [q' [-> Hq']] Hq. cbn [Num.toFixed].
  destruct (Q_toFixed_shape k q' Hk) as [ip [fp [E [Hne [Hip [Hfp [Hlen Hval]]]]]]].
  rewrite E, Qneg_nonnegative by (now rewrite Hq').
  rewrite (parseFloat_fixed false ip fp Hne Hip Hfp). cbv zeta.
  eapply represents_proper; [|apply fin_represents].
  rewrite Hlen.
  assert (Hfloor : Qfloor (Qabs q' * inject_Z (10 ^ Z.of_nat k) + (1 # 2))
                   = Qfloor (q * inject_Z (10 ^ Z.of_nat k) + (1 # 2))).
  { apply Qfloor_comp. rewrite Hq'. rewrite Qabs_pos by exact Hq. reflexivity. }
  rewrite <- Hfloor, <- Hval, inject_Z_plus, inject_Z_mult.
  assert (Hpow : ~ (inject_Z (10 ^ Z.of_nat k) == 0)%Q).
  { apply inject_Z_nonzero. apply Z.pow_nonzero; lia. }
  change (Num.pow10 0) with 1%Q. field. exact Hpow.
Qed.

Lemma Qfloor_half z : Qfloor (inject_Z z + (1 # 2)) = z.
Proof.
  pose proof (Qfloor_le (inject_Z z + (1 # 2))) as H1.
  pose proof (Qlt_floor (inject_Z z + (1 # 2))) as H2.
  set (f := Qfloor (inject_Z z + (1 # 2))) in *.
  assert (L1 : (inject_Z f < inject_Z (z + 1))%Q)
    by (rewrite inject_Z_plus; change (inject_Z 1) with 1%Q; lra).
  assert (L2 : (inject_Z z < inject_Z (f + 1))%Q) by lra.
  rewrite <- Zlt_Qlt in L1, L2. lia.
Qed.

Lemma rounded_bounds k q (lo hi : Z) :
  (inject_Z lo <= q <= inject_Z hi)%Q ->
  (inject_Z lo
   <= inject_Z (Qfloor (q * inject_Z (10 ^ Z.of_nat k) + (1 # 2)))
      / inject_Z (10 ^ Z.of_nat k)
   <= inject_Z hi)%Q.
Proof.
  intros [Hlo Hhi].
  set (p := (10 ^ Z.of_nat k)%Z).
  assert (Hp : (0 < p)%Z) by (apply Z.pow_pos_nonneg; lia).
  assert (Hpq : (0 < inject_Z p)%Q) by (rewrite <- (Zlt_Qlt 0); exact Hp).
  assert (H1 : (lo * p <= Qfloor (q * inject_Z p + (1 # 2)))%Z).
  { rewrite <- (Qfloor_Z (lo * p)). apply Qfloor_resp_le.
    rewrite inject_Z_mult. nra. }
  assert (H2 : (Qfloor (q * inject_Z p + (1 # 2)) <= hi * p)%Z).
  { rewrite <- (Qfloor_half (hi * p)). apply Qfloor_resp_le.
    rewrite inject_Z_mult. nra. }
  split.
  - apply Qle_shift_div_l; [exact Hpq|]. rewrite <- inject_Z_mult, <- Zle_Qle. exact H1.
  - apply Qle_shift_div_r; [exact Hpq|]. rewrite <- inject_Z_mult, <- Zle_Qle. exact H2.
Qed.

(** What the text printed by [toFixed] for a number between two integers
    reads as. *)
Lemma parseFloat_toFixed_bounds k x q (lo hi : Z) :
  1 <= k -> represents x q -> (0 <= lo)%Z -> (inject_Z lo <= q <= inject_Z hi)%Q ->
  exists q', represents (Num.parseFloat (Num.toFixed k x)) q'
             /\ (inject_Z lo <= q' <= inject_Z hi)%Q.
Proof.
  intros Hk Hx Hlo Hq. eexists. split.
  - apply (parseFloat_toFixed k x q Hk Hx).
    assert (0 <= inject_Z lo)%Q by (rewrite <- (Zle_Qle 0); exact Hlo).
    destruct Hq. lra.
  - now apply rounded_bounds.
Qed.



(** ** The overall score of the analysis *)

Lemma percent_bounds (a b : nat) :
  a <= b -> 0 < b ->
  exists q, represents (Num.parseFloat (percent (Num.of_nat a) (Num.of_nat b))) q
            /\ (0 <= q <= 100)%Q.
Proof.
  intros Hab Hb. unfold percent.
  destruct (ratio_bounds a b 1 Hb ltac:(lia) ltac:(lia)) as [H0 H1].
  change (inject_Z (Z.of_nat 1)) with 1%Q in H0, H1.
  rewrite Qmult_1_r in H0, H1.
  apply (parseFloat_toFixed_bounds 2 _
           (inject_Z (Z.of_nat a) / inject_Z (Z.of_nat b) * 100) 0 100);
    [lia | | lia |].
  - apply mul_represents; [|apply Fin_represents].
    apply div_represents; [apply of_nat_represents | apply of_nat_represents|].
    now apply of_nat_nonzero.
  - change (inject_Z 0) with 0%Q. change (inject_Z 100) with 100%Q. split; nra.
Qed.

Lemma total_missing_le (results : list row) rows headers : forall n,
  fold_left (fun n (p : string * missingInfo) => n + mi_count (snd p))
    (map (fun column =>
            let missingCount := missing_count results column in
            (column,
             {| mi_count := missingCount;
                mi_percentage := percent (Num.of_nat missingCount) rows |}))
       headers) n
  <= n + length results * length headers.
Proof.
  induction headers as [|column headers IH]; intros n; simpl; [lia|].
  eapply Nat.le_trans; [apply IH|].
  pose proof (count_if_le (fun r => is_missing (get r column)) results) as H.
  unfold missing_count. lia.
Qed.

Lemma firsts_length {A K : Type} `{EqDecision K} (f : A -> K) l : forall p,
  length (firsts f p l) <= length l.
Proof.
  induction l as [|x l IH]; intros p; simpl; [lia|].
  destruct (existsb _ p); simpl; specialize (IH (p ++ [x])); lia.
Qed.

Lemma max_zero_bounds x q :
  represents x q -> (q <= 100)%Q ->
  exists q', represents (Num.max (Num.Fin 0) x) q' /\ (0 <= q' <= 100)%Q.
Proof.
  intros [q0 [-> Hq0]] Hle. unfold Num.max. simpl.
  destruct (0 ?= q0)%Q eqn:Hcmp.
  - exists 0%Q. split; [apply Fin_represents | split; [apply Qle_refl | discriminate]].
  - exists q0. split; [apply Fin_represents|].
    apply Qlt_alt in Hcmp. rewrite Hq0 in Hcmp |- *.
    split; [now apply Qlt_le_weak | exact Hle].
  - exists 0%Q. split; [apply Fin_represents | split; [apply Qle_refl | discriminate]].
Qed.

(** X23.  The overall score of the analysis of a table with a row and a
    column, read as a number, lies between 25 and 100: the consistency that
    enters it is always 100. *)
Theorem overallScore_between_25_and_100 rt (first : row) (rest : list row) :
  keys first <> [] ->
  exists text q,
    overallScore (metrics (analyzeCSVQuality rt (first :: rest))) = VString text
    /\ represents (Num.parseFloat text) q /\ (25 <= q <= 100)%Q.
Proof.
  intros Hkeys. cbn [analyzeCSVQuality metrics overallScore].
  set (results := first :: rest). set (headers := keys first).
  assert (Hrows : 0 < length results) by (simpl; lia).
  assert (Hcols : 0 < length headers)
    by (unfold headers; destruct (keys first); [contradiction | simpl; lia]).
  (* completeness *)
  pose proof (total_missing_le results (Num.of_nat (length results)) headers 0)
    as Hmissing.
  set (missing := fold_left _ _ 0) in *. rewrite Nat.add_0_l in Hmissing.
  rewrite mul_of_nat.
  rewrite (sub_of_nat (length results * length headers) missing
             (length results * length headers - missing)) by lia.
  destruct (percent_bounds (length results * length headers - missing)
              (length results * length headers)) as [c [Hc Hcb]]; [lia | nia|].
  (* consistency *)
  rewrite no_mixed_type, sub_zero, (percent_all (length headers) Hcols).
  (* validity *)
  destruct (validity_score_represents rt results
              (map (fun column => (column, detectDataType rt (present_values results column)))
                 headers) headers) as [v0 [Hv0 Hv0b]].
  destruct (max_zero_bounds _ _ Hv0 Hv0b) as [v1 [Hv1 Hv1b]].
  destruct (parseFloat_toFixed_bounds 2 _ v1 0 100 ltac:(lia) Hv1 ltac:(lia) Hv1b)
    as [v [Hv Hvb]].
  (* uniqueness *)
  assert (Hu : length (Lodash.uniqBy (fun r : row => r) results) <= length results)
    by (rewrite uniqBy_firsts; apply firsts_length).
  destruct (percent_bounds _ _ Hu Hrows) as [u [Huq Hub]].
  (* the mean of the four *)
  set (sum := Num.sum _).
  assert (Hsum : represents sum (0 + c + 100 + v + u)).
  { unfold sum, Num.sum. cbn [fold_left].
    repeat apply add_represents; try assumption; apply Fin_represents. }
  assert (Hmean : represents (Num.div sum (Num.of_nat 4)) ((0 + c + 100 + v + u) / 4)).
  { apply div_represents; [exact Hsum | apply (of_nat_represents 4) | discriminate]. }
  assert (Hs : ((0 + c + 100 + v + u) / 4 == (c + 100 + v + u) * (1 # 4))%Q) by field.
  change (inject_Z 0) with 0%Q in *. change (inject_Z 100) with 100%Q in *.
  destruct (parseFloat_toFixed_bounds 2 _ _ 25 100 ltac:(lia) Hmean ltac:(lia))
    as [q [Hq Hqb]].
  { change (inject_Z 25) with 25%Q. change (inject_Z 100) with 100%Q.
    rewrite Hs. split; lra. }
  eexists. exists q. split; [reflexivity|]. split; [exact Hq | exact Hqb].
Qed.

Lemma overallScore_between_25_and_100_witness :
  keys [("x", "Alice")] <> []
  /\ exists text q,
       overallScore (metrics (analyzeCSVQuality Reference.runtime upper_case_table))
       = VString text
       /\ represents (Num.parseFloat text) q /\ (25 <= q <= 100)%Q.
Proof.
  assert (H : keys [("x", "Alice")] <> []) by discriminate.
  split; [exact H|].
  exact (overallScore_between_25_and_100 Reference.runtime [("x", "Alice")] [] H).
Defined.

Lemma insert_index_elem {V : Type} i (p : string * V) l x :
  x ∈ Lodash.insert_index i p l <-> x = (i, p) \/ x ∈ l.
Proof.
  induction l as [|[j q] l IH]; simpl.
  - rewrite list_elem_of_singleton. split; [now left|].
    intros [H|H]; [exact H | inversion H].
  - destruct (N.leb i j).
    + apply elem_of_cons.
    + rewrite !elem_of_cons, IH. tauto.
Qed.

Lemma own_properties_complete {V : Type} (o : list (string * V)) p :
  p ∈ o -> p ∈ Lodash.own_properties o.
Proof.
  intros Hp. unfold Lodash.own_properties. apply elem_of_app.
  destruct (Lodash.array_index (fst p)) as [i|] eqn:E.
  - left. apply list_elem_of_fmap. exists (i, p). split; [reflexivity|].
    assert (Hgen : forall acc,
               (i, p) ∈ acc \/ p ∈ o ->
               (i, p) ∈ fold_left
                          (fun acc p =>
                             match Lodash.array_index (fst p) with
                             | Some i => Lodash.insert_index i p acc
                             | None => acc
                             end) o acc).
    { clear Hp. induction o as [|x o IH]; intros acc [H|H]; simpl.
      - exact H.
      - inversion H.
      - apply IH. left. destruct (Lodash.array_index (fst x)); [|exact H].
        apply insert_index_elem. now right.
      - apply IH. apply elem_of_cons in H as [<-|H]; [|now right].
        left. rewrite E. apply insert_index_elem. now left. }
    apply Hgen. now right.
  - right. apply list_elem_of_In, filter_In. split; [now apply list_elem_of_In|].
    now rewrite E.
Qed.

(** ** The mode of the imputation *)

Lemma own_properties_sound {V : Type} (o : list (string * V)) p :
  p ∈ Lodash.own_properties o -> p ∈ o.
Proof.
  unfold Lodash.own_properties. intros Hp. apply elem_of_app in Hp as [Hp|Hp].
  - apply list_elem_of_fmap in Hp as [[i q] [-> Hq]]. cbn [snd].
    assert (Hgen : forall acc,
               (i, q) ∈ fold_left
                          (fun acc p =>
                             match Lodash.array_index (fst p) with
                             | Some i => Lodash.insert_index i p acc
                             | None => acc
                             end) o acc ->
               (i, q) ∈ acc \/ q ∈ o).
    { clear Hq. induction o as [|x o IH]; intros acc H; simpl in H; [now left|].
      apply IH in H as [H|H]; [|right; now right].
      destruct (Lodash.array_index (fst x)) as [j|]; [|now left].
      apply insert_index_elem in H as [[= -> ->]|H]; [right; left | now left]. }
    apply Hgen in Hq as [Hq|Hq]; [inversion Hq | exact Hq].
  - apply list_elem_of_In, filter_In in Hp as [Hp _]. now apply list_elem_of_In.
Qed.

Lemma maxBy_from_greatest pairs : forall current,
  Lodash.maxBy_from current pairs ∈ current :: pairs
  /\ forall p, p ∈ current :: pairs ->
               snd p <= snd (Lodash.maxBy_from current pairs).
Proof.
  induction pairs as [|q pairs IH]; intros current; cbn [Lodash.maxBy_from].
  - split; [left|]. intros p Hp. apply list_elem_of_singleton in Hp. now subst.
  - destruct (Nat.ltb (snd current) (snd q)) eqn:E.
    + apply Nat.ltb_lt in E. destruct (IH q) as [Hin Hmax]. split.
      * now right.
      * intros p Hp. apply elem_of_cons in Hp as [->|Hp]; [|now apply Hmax].
        specialize (Hmax q ltac:(left)). lia.
    + apply Nat.ltb_ge in E. destruct (IH current) as [Hin Hmax]. split.
      * apply elem_of_cons in Hin as [Hin|Hin]; [rewrite Hin; left | right; now right].
      * intros p Hp. apply elem_of_cons in Hp as [->|Hp]; [apply Hmax; left|].
        apply elem_of_cons in Hp as [->|Hp]; [|apply Hmax; now right].
        specialize (Hmax current ltac:(left)). lia.
Qed.

(** X25.  The value that fills the missing cells of a categorical column is
    one of the values counted, with the number of its occurrences, and no
    value occurs more often. *)
Theorem mode_of_most_frequent (values : list string) mode :
  mode_of values = Some mode ->
  fst mode ∈ values
  /\ snd mode = occurrences (fst mode) values
  /\ forall v, occurrences v values <= snd mode.
Proof.
  unfold mode_of, Lodash.toPairs, Lodash.maxBy. intros Hmode.
  destruct (countBy_table values) as [_ [Hkeys Hcounts]].
  destruct (Lodash.own_properties (Lodash.countBy values)) as [|p pairs] eqn:E;
    [discriminate|].
  injection Hmode as <-.
  destruct (maxBy_from_greatest pairs p) as [Hin Hmax].
  rewrite <- E in Hin. apply own_properties_sound in Hin.
  split; [|split].
  - apply Hkeys, list_elem_of_fmap. eexists. split; [reflexivity | exact Hin].
  - now apply Hcounts.
  - intros v. destruct (decide (v ∈ values)) as [Hv|Hv].
    + apply Hkeys, list_elem_of_fmap in Hv as [q [-> Hq]].
      rewrite <- (Hcounts q Hq). apply Hmax. rewrite <- E.
      now apply own_properties_complete.
    + rewrite occurrences_zero by exact Hv. lia.
Qed.

Lemma mode_of_most_frequent_witness :
  mode_of ["b"; "b"; "7"] = Some ("b", 2)
  /\ fst ("b", 2) ∈ ["b"; "b"; "7"]
  /\ snd ("b", 2) = occurrences (fst ("b", 2)) ["b"; "b"; "7"]
  /\ forall v, occurrences v ["b"; "b"; "7"] <= snd ("b", 2).
Proof.
  assert (H : mode_of ["b"; "b"; "7"] = Some ("b", 2)) by reflexivity.
  split; [exact H|].
  exact (mode_of_most_frequent ["b"; "b"; "7"] ("b", 2) H).
Defined.

(** ** Special characters *)

(** X26.  After the last step, in a column whose name contains neither [email]
    nor [phone], a cell that is read neither as a number nor as a date holds
    only letters, digits, [_], white space, [-], [.] and [,], and no white
    space at either end. *)
Theorem validate_row_text rt column (r : row) value :
  Str.includes (Str.toLowerCase column) "email" = false ->
  Str.includes (Str.toLowerCase column) "phone" = false ->
  get r column = Some value ->
  Num.isNaN (Num.parseFloat value) && not_Date_parse rt value = true ->
  exists value',
    get (fst (validate_row rt column r)) column = Some value'
    /\ forallb text_char (Str.chars value') = true
    /\ Str.trim value' = value'.
Proof.
  intros Hemail Hphone Hget Htext.
  exists (Str.trim (Str.keep text_char value)).
  split; [|split].
  - unfold validate_row. rewrite Hget, Hemail, Hphone, Htext.
    destruct (truthy (Some value)) eqn:T.
    + destruct (String.eqb (Str.trim (Str.keep text_char value)) value) eqn:E;
        cbn [negb fst].
      * apply String.eqb_eq in E. now rewrite E.
      * apply get_set.
    + cbn [fst]. unfold truthy in T. apply negb_false_iff, String.eqb_eq in T.
      subst value. exact Hget.
  - apply (forallb_incl _ (Str.chars (Str.keep text_char value)));
      [intros c; apply trim_incl | apply keep_class].
  - apply trim_idempotent.
Qed.

Lemma validate_row_text_witness :
  Str.includes (Str.toLowerCase "name") "email" = false
  /\ Str.includes (Str.toLowerCase "name") "phone" = false
  /\ get name_row "name" = Some " Alice! "
  /\ Num.isNaN (Num.parseFloat " Alice! ")
     && not_Date_parse Reference.runtime " Alice! " = true
  /\ exists value',
       get (fst (validate_row Reference.runtime "name" name_row)) "name"
       = Some value'
       /\ forallb text_char (Str.chars value') = true
       /\ Str.trim value' = value'.
Proof.
  assert (H1 : Str.includes (Str.toLowerCase "name") "email" = false) by reflexivity.
  assert (H2 : Str.includes (Str.toLowerCase "name") "phone" = false) by reflexivity.
  assert (H3 : get name_row "name" = Some " Alice! ") by reflexivity.
  assert (H4 : Num.isNaN (Num.parseFloat " Alice! ")
               && not_Date_parse Reference.runtime " Alice! " = true) by reflexivity.
  repeat (split; [assumption|]).
  exact (validate_row_text Reference.runtime "name" name_row " Alice! " H1 H2 H3 H4).
Defined.

(** ** Outliers of a constant column in the analysis *)

Lemma sum_constant q l : forall acc a,
  (forall v, v ∈ l -> represents v q) -> represents acc a ->
  represents (fold_left Num.add l acc) (a + inject_Z (Z.of_nat (length l)) * q).
Proof.
  induction l as [|v l IH]; intros acc a Hq Hacc.
  - simpl. eapply represents_proper; [|exact Hacc]. ring.
  - cbn [fold_left length]. eapply represents_proper;
      [|apply (IH (Num.add acc v) (a + q)%Q)].
    + rewrite Nat2Z.inj_succ. unfold Z.succ. rewrite inject_Z_plus.
      change (inject_Z 1) with 1%Q. ring.
    + intros w Hw. apply Hq. now right.
    + apply add_represents; [exact Hacc | apply Hq; left].
Qed.

Lemma mean_of_constant q l :
  l <> [] -> (forall v, v ∈ l -> represents v q) -> represents (mean_of l) q.
Proof.
  intros Hne Hq. unfold mean_of, Num.sum.
  assert (Hn : 0 < length l) by (destruct l; [contradiction | simpl; lia]).
  eapply represents_proper;
    [|apply div_represents;
      [apply (sum_constant q l _ 0 Hq (Fin_represents 0))
      | apply of_nat_represents | now apply of_nat_nonzero]].
  field. now apply of_nat_nonzero.
Qed.

Lemma zscore_of_the_mean v mean std q :
  represents v q -> represents mean q -> Num.is_finite std = true ->
  Num.gt (Num.abs (Num.div (Num.sub v mean) std)) (Num.fin (5 # 2)) = false.
Proof.
  intros Hv Hm Hs.
  pose proof (sub_represents _ _ _ _ Hv Hm) as [d [Hd Hd0]].
  assert (Hzero : (d == 0)%Q) by (rewrite Hd0; ring).
  rewrite Hd. destruct std as [s| | |]; try discriminate.
  unfold Num.div. destruct (Num.Qzero s) eqn:E.
  - unfold Num.signed_inf. now rewrite (Qzero_true d Hzero).
  - unfold Num.gt. cbn [Num.abs].
    apply (lt_represents_false _ _ _ _ (fin_represents (5 # 2))
             (fin_represents (Qabs (Qred (d / s))))).
    rewrite Qred_correct, Hzero. unfold Qdiv. rewrite Qmult_0_l. discriminate.
Qed.

(** X27.  In the analysis a column whose numbers are all the same whole
    number below [2^52] in magnitude has no outlier, by the quartiles or by
    the z-score. *)
Theorem detectAdvancedOutliers_constant rt (values : list Num.number) (z : Z) :
  (Z.abs z < 2 ^ 52)%Z ->
  (forall v, v ∈ values -> v = Num.Fin (inject_Z z)) ->
  detectAdvancedOutliers rt values = ([], []).
Proof.
  intros _ Hz.
  assert (Hq : forall v, v ∈ values -> represents v (inject_Z z))
    by (intros v Hv; rewrite (Hz v Hv); apply Fin_represents).
  clear Hz. set (q := inject_Z z) in *. clearbody q.
  destruct values as [|v0 values']; [reflexivity|].
  set (values := v0 :: values') in *.
  assert (Hne : values <> []) by discriminate.
  assert (Hl : all_finite values)
    by (intros v Hv; eapply represents_finite, Hq, Hv).
  unfold detectAdvancedOutliers.
  set (sorted := sort_numbers values).
  assert (Hsq : forall v, v ∈ sorted -> represents v q)
    by (intros v Hv; now apply Hq, sort_numbers_elem).
  assert (Hsne : sorted <> []).
  { intros E. apply (f_equal (@length _)) in E. unfold sorted in E.
    rewrite sort_numbers_length in E. discriminate. }
  assert (H1 := percentile_constant sorted q 25 Hsq Hsne ltac:(split; discriminate)).
  assert (H3 := percentile_constant sorted q 75 Hsq Hsne ltac:(split; discriminate)).
  destruct (iqr_bounds_represents _ _ _ _ H1 H3) as [Hlo Hhi].
  destruct (iqr_bounds _ _) as [lowerBound upperBound]. simpl in Hlo, Hhi.
  f_equal.
  - apply filter_none. intros v Hv. apply list_elem_of_In, Hq in Hv.
    unfold outside, Num.gt. apply orb_false_intro.
    + apply (lt_represents_false _ _ _ _ Hv Hlo). lra.
    + apply (lt_represents_false _ _ _ _ Hhi Hv). lra.
  - apply filter_none. intros v Hv. apply list_elem_of_In, Hq in Hv.
    apply (zscore_of_the_mean v _ _ q Hv).
    + now apply mean_of_constant.
    + now apply calculateStandardDeviation_finite.
Qed.

Lemma detectAdvancedOutliers_constant_witness :
  (Z.abs 5 < 2 ^ 52)%Z
  /\ (forall v, v ∈ [Num.Fin 5; Num.Fin 5; Num.Fin 5] -> v = Num.Fin (inject_Z 5))
  /\ detectAdvancedOutliers Reference.runtime [Num.Fin 5; Num.Fin 5; Num.Fin 5]
     = ([], []).
Proof.
  assert (Hz : (Z.abs 5 < 2 ^ 52)%Z) by (vm_compute; reflexivity).
  assert (H : forall v, v ∈ [Num.Fin 5; Num.Fin 5; Num.Fin 5] ->
                        v = Num.Fin (inject_Z 5)).
  { intros v Hv.
    repeat (apply elem_of_cons in Hv as [->|Hv]); try reflexivity.
    inversion Hv. }
  split; [exact Hz|]. split; [exact H|].
  exact (detectAdvancedOutliers_constant Reference.runtime
           [Num.Fin 5; Num.Fin 5; Num.Fin 5] 5 Hz H).
Defined.

(** ** The conversion of numbers *)

Lemma append_empty s : (s ++ "")%string = s.
Proof.
  induction s as [|c s IH]; [reflexivity|].
  change (String c (s ++ "")%string = String c s). now f_equal.
Qed.

Lemma toString_whole q :
  (0 <= q)%Q -> Pos.eqb (Qden (Qred q)) 1 = true ->
  Num.Q_toString q = Str.string_of_Z (Qnum (Qred q)).
Proof.
  intros Hq Hden. apply Pos.eqb_eq in Hden. unfold Num.Q_toString.
  assert (Hred : (0 <= Qred q)%Q) by now rewrite Qred_correct.
  rewrite (Qneg_nonnegative _ Hred), Hden.
  assert (Hnum : (0 <= Qnum (Qred q))%Z).
  { unfold Qle in Hred. simpl in Hred. lia. }
  rewrite Z.abs_eq by exact Hnum.
  rewrite Z.mod_1_r, Z.div_1_r. cbn [Num.decimals Z.eqb].
  change ("" ++ ?s ++ "")%string with (s ++ "")%string. apply append_empty.
Qed.

(** X28.  In a column that is not a date, a cell whose text is read as a
    whole number from 0 to below [2^52] holds after the conversion the decimal
    digits of this number, and the conversion is counted. *)
Theorem convert_row_number rt column (r : row) value (z : Z) :
  Str.includes (Str.toLowerCase column) "date" = false ->
  Str.includes (Str.toLowerCase column) "time" = false ->
  get r column = Some value ->
  truthy (Some value) = true ->
  negb (Num.isNaN (Num.Number (Str.trim value)))
  && negb (String.eqb (Str.trim value) "") = true ->
  Num.parseFloat (Str.trim value) = Num.Fin (inject_Z z) ->
  (0 <= z < 2 ^ 52)%Z ->
  convert_row rt column r = (set r column (Str.string_of_Z z), 1).
Proof.
  intros Hdate Htime Hget Htruthy Hnumber Hparse [Hpos _].
  pose proof (Qred_inject_Z z) as Hred.
  unfold convert_row. rewrite Hget, Htruthy, Hdate, Htime, Hnumber. cbn [orb].
  rewrite Hparse. cbn [Num.isInteger]. rewrite Hred. cbn [Qden inject_Z Pos.eqb].
  cbn [Num.toString].
  rewrite toString_whole;
    [now rewrite Hred
    | change (inject_Z 0 <= inject_Z z)%Q; now rewrite <- Zle_Qle
    | now rewrite Hred].
Qed.

Lemma convert_row_number_witness :
  Str.includes (Str.toLowerCase "price") "date" = false
  /\ Str.includes (Str.toLowerCase "price") "time" = false
  /\ get [("price", "007")] "price" = Some "007"
  /\ truthy (Some "007") = true
  /\ negb (Num.isNaN (Num.Number (Str.trim "007")))
     && negb (String.eqb (Str.trim "007") "") = true
  /\ Num.parseFloat (Str.trim "007") = Num.Fin (inject_Z 7)
  /\ (0 <= 7 < 2 ^ 52)%Z
  /\ convert_row Reference.runtime "price" [("price", "007")]
     = ([("price", "7")], 1).
Proof.
  assert (H1 : Str.includes (Str.toLowerCase "price") "date" = false) by reflexivity.
  assert (H2 : Str.includes (Str.toLowerCase "price") "time" = false) by reflexivity.
  assert (H3 : get [("price", "007")] "price" = Some "007") by reflexivity.
  assert (H4 : truthy (Some "007") = true) by reflexivity.
  assert (H5 : negb (Num.isNaN (Num.Number (Str.trim "007")))
               && negb (String.eqb (Str.trim "007") "") = true) by reflexivity.
  assert (H6 : Num.parseFloat (Str.trim "007") = Num.Fin (inject_Z 7)) by reflexivity.
  assert (H7 : (0 <= 7 < 2 ^ 52)%Z) by lia.
  repeat (split; [assumption|]).
  exact (convert_row_number Reference.runtime "price" [("price", "007")] "007" 7
           H1 H2 H3 H4 H5 H6 H7).
Defined.

(** ** Symmetry of the correlation *)

Module CorrelationSymmetry.
Import Reals Lra.
Import Correlation.
Local Open Scope R_scope.

Lemma pairs_of_exchange data col1 col2 :
  pairs_of data col2 col1 = map exchange (pairs_of data col1 col2).
Proof.
  unfold pairs_of. induction data as [|r data IH]; [reflexivity|].
  cbn [omap list_omap]. rewrite IH. unfold pair_of.
  destruct (parseFloatR (get r col1)), (parseFloatR (get r col2)); reflexivity.
Qed.

Lemma sum_exchange (f g : R * R -> R) pairs :
  (forall pair, f (exchange pair) = g pair) ->
  forall acc,
    fold_left (fun sum pair => sum + f pair) (map exchange pairs) acc
    = fold_left (fun sum pair => sum + g pair) pairs acc.
Proof.
  intros Hfg. induction pairs as [|pair pairs IH]; intros acc; [reflexivity|].
  cbn [map fold_left]. now rewrite Hfg, IH.
Qed.

Lemma mean1_of_exchange pairs : mean1_of (map exchange pairs) = mean2_of pairs.
Proof.
  unfold mean1_of, mean2_of. rewrite length_map.
  now rewrite (sum_exchange fst snd).
Qed.

Lemma mean2_of_exchange pairs : mean2_of (map exchange pairs) = mean1_of pairs.
Proof.
  unfold mean1_of, mean2_of. rewrite length_map.
  now rewrite (sum_exchange snd fst).
Qed.

Lemma accumulate_exchange mean1 mean2 pairs :
  accumulate mean2 mean1 (map exchange pairs)
  = let '(numerator, sum1, sum2) := accumulate mean1 mean2 pairs in
    (numerator, sum2, sum1).
Proof.
  unfold accumulate.
  assert (Hgen : forall n s1 s2,
    fold_left
      (fun acc pair =>
         let '(numerator, sum1, sum2) := acc in
         let diff1 := fst pair - mean2 in
         let diff2 := snd pair - mean1 in
         (numerator + diff1 * diff2, sum1 + diff1 * diff1, sum2 + diff2 * diff2))
      (map exchange pairs) (n, s2, s1)
    = let '(numerator, sum1, sum2) :=
        fold_left
          (fun acc pair =>
             let '(numerator, sum1, sum2) := acc in
             let diff1 := fst pair - mean1 in
             let diff2 := snd pair - mean2 in
             (numerator + diff1 * diff2, sum1 + diff1 * diff1,
              sum2 + diff2 * diff2))
          pairs (n, s1, s2) in
      (numerator, sum2, sum1)).
  { induction pairs as [|[a b] pairs IH]; intros n s1 s2; [reflexivity|].
    cbn [map fold_left exchange fst snd].
    rewrite (Rmult_comm (b - mean2) (a - mean1)). apply IH. }
  apply Hgen.
Qed.

Lemma pearson_exchange pairs : pearson (map exchange pairs) = pearson pairs.
Proof.
  unfold pearson. rewrite length_map.
  destruct (Nat.ltb (length pairs) 2); [reflexivity|].
  rewrite mean1_of_exchange, mean2_of_exchange, accumulate_exchange.
  destruct (accumulate (mean1_of pairs) (mean2_of pairs) pairs) as [[n s1] s2].
  now rewrite (Rmult_comm s2 s1).
Qed.

(** X29.  The correlation of two columns does not depend on the order in which
    they are given. *)
Theorem calculateCorrelation_symmetric data col1 col2 :
  calculateCorrelation data col2 col1 = calculateCorrelation data col1 col2.
Proof.
  unfold calculateCorrelation. rewrite pairs_of_exchange. apply pearson_exchange.
Qed.

End CorrelationSymmetry.

(** * Cleaning a settled table

    What remains of the stability of cleaning: on a table of settled texts
    the steps after the imputation find nothing to rewrite, so that the
    cleaned table can be followed through a second cleaning. *)

(** ** Settled texts *)

Lemma settled_chars s :
  settled s = true ->
  exists first rest last front,
    Str.chars s = first :: rest
    /\ rev (Str.chars s) = last :: front
    /\ Str.between 97 122 first = true
    /\ forallb (fun c => text_char c && negb (Str.between 65 90 c))
         (Str.chars s) = true
    /\ Str.is_white_space last = false
    /\ s <> "null" /\ s <> "yes" /\ s <> "no".
Proof.
  unfold settled. intros H.
  destruct (Str.chars s) as [|first rest] eqn:Hc; [discriminate|].
  destruct (rev (first :: rest)) as [|last front] eqn:Hr; [discriminate|].
  apply andb_true_iff in H as [H Hwords].
  apply andb_true_iff in H as [H Hlast].
  apply andb_true_iff in H as [Hfirst Hall].
  exists first, rest, last, front.
  repeat split; auto.
  - now apply negb_true_iff in Hlast.
  - intros ->. discriminate.
  - intros ->. discriminate.
  - intros ->. discriminate.
Qed.

Lemma lower_letter_black c :
  Str.between 97 122 c = true -> Str.is_white_space c = false.
Proof. destruct c as [[] [] [] [] [] [] [] []]; (reflexivity || discriminate). Qed.

Lemma settled_trim s : settled s = true -> Str.trim s = s.
Proof.
  intros H. destruct (settled_chars s H)
    as (first & rest & last & front & Hc & Hr & Hfirst & _ & Hlast & _).
  unfold Str.trim. rewrite Hc.
  rewrite (drop_spaces_id (first :: rest)) by (simpl; now apply lower_letter_black).
  rewrite <- Hc, Hr, (drop_spaces_id (last :: front)) by exact Hlast.
  rewrite <- Hr, rev_involutive. apply of_chars_chars.
Qed.

Lemma settled_toLowerCase s : settled s = true -> Str.toLowerCase s = s.
Proof.
  intros H. destruct (settled_chars s H)
    as (first & rest & last & front & _ & _ & _ & Hall & _).
  unfold Str.toLowerCase. rewrite <- (of_chars_chars s) at 2. f_equal.
  rewrite <- (map_id (Str.chars s)) at 2. apply map_ext_in.
  intros c Hc. apply (proj1 (forallb_forall _ _) Hall) in Hc.
  apply andb_true_iff in Hc as [_ Hc]. apply negb_true_iff in Hc.
  unfold Str.lower_char. now rewrite Hc.
Qed.

Lemma settled_keep s : settled s = true -> Str.keep text_char s = s.
Proof.
  intros H. destruct (settled_chars s H)
    as (first & rest & last & front & _ & _ & _ & Hall & _).
  unfold Str.keep. rewrite <- (of_chars_chars s) at 2. f_equal.
  apply filter_all. intros c Hc.
  apply (proj1 (forallb_forall _ _) Hall) in Hc.
  now apply andb_true_iff in Hc as [Hc _].
Qed.

Lemma settled_not_empty s : settled s = true -> s <> "".
Proof. intros H ->. discriminate. Qed.

Lemma letter_parseFloat first rest :
  Str.between 97 122 first = true ->
  Num.parseFloat (Str.of_chars (first :: rest)) = Num.NaN.
Proof.
  intros Hfirst. unfold Num.parseFloat. rewrite chars_of_chars.
  destruct first as [[] [] [] [] [] [] [] []]; try discriminate; reflexivity.
Qed.

Lemma settled_parseFloat s : settled s = true -> Num.parseFloat s = Num.NaN.
Proof.
  intros H. destruct (settled_chars s H)
    as (first & rest & last & front & Hc & _ & Hfirst & _).
  rewrite <- (of_chars_chars s), Hc. now apply letter_parseFloat.
Qed.

Lemma letter_Number first rest :
  Str.between 97 122 first = true ->
  Str.trim (Str.of_chars (first :: rest)) = Str.of_chars (first :: rest) ->
  Num.Number (Str.of_chars (first :: rest)) = Num.NaN.
Proof.
  intros Hfirst Htrim. unfold Num.Number. rewrite Htrim, chars_of_chars.
  destruct first as [[] [] [] [] [] [] [] []]; try discriminate; reflexivity.
Qed.

Lemma settled_Number s : settled s = true -> Num.Number s = Num.NaN.
Proof.
  intros H. pose proof (settled_trim s H) as Htrim.
  destruct (settled_chars s H)
    as (first & rest & last & front & Hc & _ & Hfirst & _).
  rewrite <- (of_chars_chars s), Hc in Htrim |- *. now apply letter_Number.
Qed.

Lemma settled_is_missing s : settled s = true -> is_missing (Some s) = false.
Proof.
  intros H. unfold is_missing.
  rewrite (settled_trim s H), (settled_toLowerCase s H).
  destruct (settled_chars s H) as (_ & _ & _ & _ & _ & _ & _ & _ & _ & Hn & _).
  destruct (String.eqb_spec s "") as [->|_]; [discriminate|].
  destruct (String.eqb_spec s "null") as [E|_]; [contradiction | reflexivity].
Qed.

Lemma settled_is_present s : settled s = true -> is_present (Some s) = true.
Proof.
  intros H. unfold is_present. rewrite (settled_trim s H).
  destruct (String.eqb_spec s "") as [->|_]; [discriminate | reflexivity].
Qed.

Lemma settled_boolean s :
  settled s = true -> is_boolean_word s = true ->
  (if is_true_word s then "true" else "false") = s.
Proof.
  intros H. destruct (settled_chars s H)
    as (first & rest & last & front & Hc & _ & Hfirst & _ & _ & _ & Hyes & Hno).
  unfold is_boolean_word, is_true_word. cbn [existsb].
  destruct (String.eqb_spec s "true") as [->|_]; [reflexivity|].
  destruct (String.eqb_spec s "false") as [->|_]; [reflexivity|].
  destruct (String.eqb_spec s "yes") as [E|_]; [contradiction|].
  destruct (String.eqb_spec s "no") as [E|_]; [contradiction|].
  destruct (String.eqb_spec s "1") as [->|_]; [discriminate|].
  destruct (String.eqb_spec s "0") as [->|_]; [discriminate|].
  discriminate.
Qed.

(** Writing in a cell the value it holds leaves the row as it is. *)
Lemma set_held (r : row) column v : get r column = Some v -> set r column v = r.
Proof.
  induction r as [|[k w] r IH]; simpl; [discriminate|].
  destruct (String.eqb k column); [now intros [= ->]|].
  intros H. f_equal. now apply IH.
Qed.

(** The rows of a settled table pass the steps 3, 6 and 7 unchanged. *)
Lemma standardize_row_settled rt column r v :
  get r column = Some v -> v = "" \/ good rt v ->
  fst (standardize_row column r) = r.
Proof.
  intros Hget [->|[Hs _]]; unfold standardize_row; rewrite Hget; [reflexivity|].
  unfold truthy. destruct (String.eqb_spec v "") as [->|_]; [reflexivity|].
  cbn [negb fst]. rewrite (settled_trim v Hs), (settled_toLowerCase v Hs).
  now apply set_held.
Qed.

Lemma convert_row_settled rt column r v :
  get r column = Some v -> v = "" \/ good rt v ->
  fst (convert_row rt column r) = r.
Proof.
  intros Hget [->|[Hs Hd]]; unfold convert_row; rewrite Hget; [reflexivity|].
  unfold truthy. destruct (String.eqb_spec v "") as [->|_]; [reflexivity|].
  cbn [negb]. rewrite (settled_trim v Hs), Hd, (settled_Number v Hs).
  rewrite (settled_toLowerCase v Hs). cbn [Num.isNaN negb andb].
  destruct (_ || _); [reflexivity|].
  destruct (is_boolean_word v) eqn:Hb; [|reflexivity].
  cbn [fst]. rewrite (settled_boolean v Hs Hb). now apply set_held.
Qed.

Lemma validate_row_settled rt column r v :
  Str.includes (Str.toLowerCase column) "phone" = false ->
  get r column = Some v -> v = "" \/ good rt v ->
  fst (validate_row rt column r) = r.
Proof.
  intros Hphone Hget [->|[Hs Hd]]; unfold validate_row; rewrite Hget;
    [reflexivity|].
  unfold truthy. destruct (String.eqb_spec v "") as [->|_]; [reflexivity|].
  cbn [negb]. rewrite Hphone, (settled_parseFloat v Hs), (settled_keep v Hs).
  rewrite (settled_trim v Hs), (settled_toLowerCase v Hs), String.eqb_refl.
  cbn [Num.isNaN negb andb]. 
  destruct (not_Date_parse rt v); cbn [fst snd];
    destruct (Str.includes _ "email"); cbn [fst]; try reflexivity;
    now apply set_held.
Qed.

(** ** The steps after the imputation *)

Lemma forEach_row_fixed refs (body : row -> row * nat) (st : store) :
  (forall ref r, ref ∈ refs -> st !! ref = Some r -> fst (body r) = r) ->
  forall n, fst (forEach_row refs body (st, n)) = st.
Proof.
  unfold forEach_row.
  induction refs as [|ref refs IH]; intros Hfixed n; simpl; [reflexivity|].
  assert (Hrest : forall ref' r, ref' ∈ refs -> st !! ref' = Some r ->
                                 fst (body r) = r)
    by (intros ref' r Hin; apply Hfixed; now right).
  destruct (st !! ref) as [r|] eqn:Hr; [|now apply IH].
  pose proof (Hfixed ref r ltac:(left) Hr) as Hbody.
  destruct (body r) as [r' k]. cbn [fst] in Hbody. subst r'.
  rewrite list_insert_id by exact Hr. now apply IH.
Qed.

Lemma fold_columns_fixed (step : store * nat -> string -> store * nat)
    headers (st : store) :
  (forall column n, column ∈ headers -> fst (step (st, n) column) = st) ->
  forall n, fst (fold_left step headers (st, n)) = st.
Proof.
  induction headers as [|column headers IH]; intros Hfixed n; simpl;
    [reflexivity|].
  pose proof (Hfixed column n ltac:(left)) as Hstep.
  destruct (step (st, n) column) as [st' n']. cbn [fst] in Hstep. subst st'.
  apply IH. intros c m Hc. apply Hfixed. now right.
Qed.

Lemma settled_cell_row rt refs headers (st : store) ref column r :
  settled_cells rt refs headers st -> ref ∈ refs -> column ∈ headers ->
  st !! ref = Some r ->
  exists v, get r column = Some v /\ (v = "" \/ good rt v).
Proof.
  intros Hcells Href Hcolumn Hr.
  destruct (Hcells ref column Href Hcolumn) as [v [Hv Hgood]].
  unfold cell in Hv. rewrite Hr in Hv. eauto.
Qed.

Lemma settled_parsed rt refs headers (st : store) column :
  settled_cells rt refs headers st -> column ∈ headers ->
  parsed (column_values st refs column) = [].
Proof.
  intros Hcells Hcolumn. unfold parsed, column_values.
  apply filter_none. intros x Hx.
  apply in_map_iff in Hx as [c [<- Hc]].
  apply in_map_iff in Hc as [ref [<- Href]].
  destruct (Hcells ref column (proj2 (list_elem_of_In _ _) Href) Hcolumn)
    as [v [-> [->|[Hs _]]]]; [reflexivity|].
  cbn [Num.parseFloat_cell]. now rewrite (settled_parseFloat v Hs).
Qed.

Section SettledSteps.

Variable rt : Runtime.
Variable refs : list nat.
Variable headers : list string.
Variable st : store.
Hypothesis Hcells : settled_cells rt refs headers st.
Hypothesis Hphone :
  forall column, column ∈ headers ->
                 Str.includes (Str.toLowerCase column) "phone" = false.

Lemma standardize_settled n :
  fst (fold_left (standardize_column rt refs) headers (st, n)) = st.
Proof.
  apply fold_columns_fixed. intros column m Hcolumn.
  unfold standardize_column. destruct (String.eqb _ _); [|reflexivity].
  apply forEach_row_fixed. intros ref r Href Hr.
  destruct (settled_cell_row rt refs headers st ref column r Hcells Href Hcolumn Hr)
    as [v [Hv Hgood]].
  now apply (standardize_row_settled rt column r v).
Qed.

Lemma cap_settled n : fst (fold_left (cap_column refs) headers (st, n)) = st.
Proof.
  apply fold_columns_fixed. intros column m Hcolumn.
  unfold cap_column. cbn [fst].
  now rewrite (settled_parsed rt refs headers st column Hcells Hcolumn).
Qed.

Lemma normalize_settled opts n :
  fst (fold_left (normalize_column opts refs) headers (st, n)) = st.
Proof.
  apply fold_columns_fixed. intros column m Hcolumn.
  unfold normalize_column. cbn [fst].
  now rewrite (settled_parsed rt refs headers st column Hcells Hcolumn).
Qed.

Lemma convert_settled n :
  fst (fold_left (fun s column => forEach_row refs (convert_row rt column) s)
         headers (st, n)) = st.
Proof.
  apply (fold_columns_fixed
           (fun s column => forEach_row refs (convert_row rt column) s)).
  intros column m Hcolumn.
  apply forEach_row_fixed. intros ref r Href Hr.
  destruct (settled_cell_row rt refs headers st ref column r Hcells Href Hcolumn Hr)
    as [v [Hv Hgood]].
  now apply (convert_row_settled rt column r v).
Qed.

Lemma validate_settled n :
  fst (fold_left (fun s column => forEach_row refs (validate_row rt column) s)
         headers (st, n)) = st.
Proof.
  apply (fold_columns_fixed
           (fun s column => forEach_row refs (validate_row rt column) s)).
  intros column m Hcolumn.
  apply forEach_row_fixed. intros ref r Href Hr.
  destruct (settled_cell_row rt refs headers st ref column r Hcells Href Hcolumn Hr)
    as [v [Hv Hgood]].
  apply (validate_row_settled rt column r v); auto.
Qed.

End SettledSteps.

(** ** The imputation of settled cells *)

Lemma maxBy_elem pairs p : Lodash.maxBy pairs = Some p -> p ∈ pairs.
Proof.
  destruct pairs as [|q pairs]; [discriminate|]. intros [= <-].
  apply maxBy_from_greatest.
Qed.

(** The mode is one of the values, and there is one as soon as there is a
    value. *)
Lemma mode_of_elem values :
  values <> [] -> exists mode, mode_of values = Some mode /\ fst mode ∈ values.
Proof.
  intros Hne. unfold mode_of, Lodash.toPairs.
  destruct (countBy_table values) as [_ [Hkeys _]].
  destruct values as [|v values]; [contradiction|].
  assert (Hv : v ∈ map fst (Lodash.countBy (v :: values))) by (apply Hkeys; left).
  apply list_elem_of_fmap in Hv as [p [_ Hp]].
  apply own_properties_complete in Hp.
  destruct (Lodash.own_properties (Lodash.countBy (v :: values))) as [|q pairs] eqn:E;
    [inversion Hp|].
  exists (Lodash.maxBy_from q pairs). split; [reflexivity|].
  apply Hkeys, list_elem_of_fmap. exists (Lodash.maxBy_from q pairs).
  split; [reflexivity|]. apply own_properties_sound. rewrite E.
  apply maxBy_from_greatest.
Qed.

(** Values that are good, at least one: the column is categorical. *)
Lemma detectDataType_good rt (values : list string) :
  values <> [] -> (forall v, v ∈ values -> good rt v) ->
  detectDataType rt (map Some values) = "categorical".
Proof.
  intros Hne Hgood. unfold detectDataType.
  assert (Hstrings : strings_of (map Some values) = values).
  { unfold strings_of. induction values as [|v l IH]; [reflexivity|].
    cbn [map omap list_omap]. f_equal. destruct l as [|w l]; [reflexivity|].
    apply IH; [discriminate|]. intros x Hx. apply Hgood. now right. }
  rewrite Hstrings, length_map.
  assert (Hfilter : List.filter (fun s => negb (String.eqb s "")) values = values).
  { apply filter_all. intros v Hv.
    apply list_elem_of_In, Hgood in Hv as [Hs _].
    destruct (String.eqb_spec v "") as [->|_]; [discriminate | reflexivity]. }
  rewrite Hfilter.
  assert (Hlen : 0 < length values) by (destruct values; [contradiction | simpl; lia]).
  destruct (Nat.eqb_spec (length values) 0) as [E|_]; [lia|].
  rewrite (count_if_nowhere (fun s => negb (Num.isNaN (Num.parseFloat s)))).
  2:{ intros v Hv. apply Hgood in Hv as [Hs _].
      now rewrite (settled_parseFloat v Hs). }
  rewrite (count_if_nowhere (is_date rt)).
  2:{ intros v Hv. apply Hgood in Hv as [_ Hd]. unfold is_date. now rewrite Hd. }
  destruct (Num.gt _ _) eqn:Hgt; [|reflexivity].
  apply (ratio_above_80 0 (length values) Hlen) in Hgt. lia.
Qed.

Section SettledImputation.

Variable rt : Runtime.
Variable refs : list nat.
Variable headers : list string.

Lemma settled_missing (st : store) ref column v :
  cell st ref column = Some v -> v = "" \/ good rt v ->
  is_missing (cell st ref column) = bool_decide (v = "").
Proof.
  intros Hv [->|[Hs _]]; rewrite Hv; [reflexivity|].
  rewrite (settled_is_missing v Hs). symmetry. apply bool_decide_eq_false_2.
  now apply settled_not_empty.
Qed.

Lemma settled_present (st : store) column :
  settled_cells rt refs headers st -> column ∈ headers ->
  exists values,
    List.filter is_present (column_values st refs column) = map Some values
    /\ (forall v, v ∈ values <->
                  exists ref, ref ∈ refs /\ cell st ref column = Some v /\ v <> "")
    /\ (forall v, v ∈ values -> good rt v).
Proof.
  intros Hcells Hcolumn. unfold column_values.
  assert (Hsub : forall ref, ref ∈ refs -> ref ∈ refs) by auto.
  revert Hsub. generalize refs at 1 3 4 as l.
  induction l as [|ref l IH]; intros Hsub.
  - exists []. split; [reflexivity|]. split.
    + intros v. split; [intros H; inversion H|].
      intros [ref [Href _]]. inversion Href.
    + intros v H. inversion H.
  - destruct IH as [values [Hfilter [Hvalues Hgood]]];
      [intros x Hx; apply Hsub; now right|].
    destruct (Hcells ref column (Hsub ref ltac:(left)) Hcolumn) as [v [Hv Hkind]].
    cbn [map List.filter]. rewrite Hv, Hfilter.
    destruct Hkind as [->|[Hs Hd]].
    + exists values. split; [reflexivity|]. split; [|exact Hgood].
      intros w. rewrite Hvalues. split.
      * intros [x [Hx Hw]]. exists x. split; [now right | exact Hw].
      * intros [x [Hx [Hw Hne]]]. apply elem_of_cons in Hx as [->|Hx].
        -- rewrite Hv in Hw. injection Hw as <-. contradiction.
        -- exists x. auto.
    + rewrite (settled_is_present v Hs). exists (v :: values).
      split; [reflexivity|]. split.
      * intros w. rewrite elem_of_cons, Hvalues. split.
        -- intros [->|[x [Hx Hw]]].
           ++ exists ref. split; [left|]. split; [exact Hv|].
              now apply settled_not_empty.
           ++ exists x. split; [now right | exact Hw].
        -- intros [x [Hx [Hw Hne]]]. apply elem_of_cons in Hx as [->|Hx].
           ++ left. rewrite Hv in Hw. now injection Hw.
           ++ right. exists x. auto.
      * intros w Hw. apply elem_of_cons in Hw as [->|Hw]; [now split | auto].
Qed.

(** The imputation of a column of settled cells: the cells of the column
    are then all empty or all good, the good cells keep their value, and
    the other columns are not touched. *)
Lemma impute_column_settled (st : store) n column :
  settled_cells rt refs headers st -> column ∈ headers ->
  let s' := impute_column rt refs (st, n) column in
  uniform rt refs column (fst s')
  /\ (forall ref v, ref ∈ refs -> cell st ref column = Some v -> good rt v ->
                    cell (fst s') ref column = Some v)
  /\ (forall ref column', column' <> column ->
                          cell (fst s') ref column' = cell st ref column').
Proof.
  intros Hcells Hcolumn s'.
  split; [|split].
  3:{ intros ref column' Hne.
      now apply (impute_column_other_column rt refs (st, n) column column' ref). }
  - unfold s', impute_column. cbn [fst].
    destruct (missing_indices st refs column) as [|i rest] eqn:Hmissing.
    + right. intros ref Href.
      destruct (Hcells ref column Href Hcolumn) as [v [Hv Hkind]].
      exists v. split; [exact Hv|]. destruct Hkind as [->|Hgood]; [|exact Hgood].
      exfalso. apply list_elem_of_lookup_1 in Href as [index Hindex].
      assert (Hin : index ∈ missing_indices st refs column).
      { apply (missing_indices_elem st refs column index ref Hindex).
        now rewrite <- is_missing_token, Hv. }
      rewrite Hmissing in Hin. inversion Hin.
    + cbn [length Nat.ltb Nat.leb]. rewrite <- Hmissing.
      destruct (settled_present st column Hcells Hcolumn)
        as [values [Hfilter [Hvalues Hgood]]].
      rewrite Hfilter.
      destruct values as [|v0 values].
      * left. cbn [map]. unfold detectDataType. cbn [length Nat.eqb].
        cbn [String.eqb Ascii.eqb Bool.eqb fst]. intros ref Href.
        destruct (Hcells ref column Href Hcolumn) as [v [Hv Hkind]].
        rewrite Hv. f_equal.
        destruct (String.eqb_spec v "") as [->|Hne]; [reflexivity|].
        exfalso. assert (Hin : v ∈ []) by (apply Hvalues; eauto). inversion Hin.
      * rewrite (detectDataType_good rt (v0 :: values) ltac:(discriminate) Hgood).
        cbn [String.eqb Ascii.eqb Bool.eqb].
        assert (Hstrings : strings_of (map Some (v0 :: values)) = v0 :: values).
        { unfold strings_of. clear. induction (v0 :: values) as [|v l IH];
            [reflexivity|]. cbn [map omap list_omap]. now rewrite IH. }
        rewrite Hstrings.
        destruct (mode_of_elem (v0 :: values)) as [mode [Hmode Hin]];
          [discriminate|].
        rewrite Hmode. right. intros ref Href.
        destruct (Hcells ref column Href Hcolumn) as [v [Hv Hkind]].
        pose proof Href as Hlookup.
        apply list_elem_of_lookup_1 in Hlookup as [index Hindex].
        assert (Hvalid : forall ref', ref' ∈ refs -> ref' < length st).
        { intros ref' Href'.
          destruct (Hcells ref' column Href' Hcolumn) as [w [Hw _]].
          unfold cell in Hw. destruct (st !! ref') eqn:E; [|discriminate].
          eapply lookup_lt_Some, E. }
        destruct (fill_imputed st refs column n (fst mode) Hvalid) as [Hfill _].
        rewrite (Hfill index ref Hindex), <- is_missing_token.
        rewrite (settled_missing st ref column v Hv Hkind).
        destruct Hkind as [->|Hg].
        -- rewrite bool_decide_eq_true_2 by reflexivity.
           exists (fst mode). split; [reflexivity | now apply Hgood].
        -- rewrite bool_decide_eq_false_2 by (apply settled_not_empty, Hg).
           exists v. now split.
  - intros ref v Href Hv Hg. unfold s', impute_column. cbn [fst].
    assert (Hvalid : forall ref', ref' ∈ refs -> ref' < length st).
    { intros ref' Href'.
      destruct (Hcells ref' column Href' Hcolumn) as [w [Hw _]].
      unfold cell in Hw. destruct (st !! ref') eqn:E; [|discriminate].
      eapply lookup_lt_Some, E. }
    pose proof Href as Hlookup.
    apply list_elem_of_lookup_1 in Hlookup as [index Hindex].
    assert (Hkept : forall w,
               cell (fst (fill refs column w (missing_indices st refs column) (st, n)))
                 ref column = Some v).
    { intros w. destruct (fill_imputed st refs column n w Hvalid) as [Hfill _].
      rewrite (Hfill index ref Hindex), <- is_missing_token, Hv.
      destruct Hg as [Hs _]. now rewrite (settled_is_missing v Hs). }
    repeat match goal with
           | |- context [if ?b then _ else _] => destruct b
           | |- context [match ?o with Some _ => _ | None => _ end] => destruct o
           end; first [exact Hv | apply Hkept].
Qed.

Lemma uniform_kept (st st' : store) column :
  (forall ref, cell st' ref column = cell st ref column) ->
  uniform rt refs column st -> uniform rt refs column st'.
Proof.
  intros Hsame [Hempty|Hgood]; [left | right]; intros ref Href; rewrite Hsame; auto.
Qed.

Lemma impute_column_settled_cells (st : store) n column :
  settled_cells rt refs headers st -> column ∈ headers ->
  settled_cells rt refs headers (fst (impute_column rt refs (st, n) column)).
Proof.
  intros Hcells Hcolumn ref column' Href Hcolumn'.
  destruct (impute_column_settled st n column Hcells Hcolumn)
    as [Huniform [_ Hother]].
  destruct (decide (column' = column)) as [->|Hne].
  - destruct Huniform as [Hempty|Hgood].
    + exists "". split; [now apply Hempty | now left].
    + destruct (Hgood ref Href) as [v [Hv Hg]]. exists v. split; [exact Hv | now right].
  - rewrite (Hother ref column' Hne). now apply Hcells.
Qed.

(** After the imputation of the columns of a settled table, the cells of
    every column are all empty or all good, and every good cell has
    kept its value. *)
Lemma impute_settled l : forall (st : store) n,
  (forall column, column ∈ l -> column ∈ headers) ->
  settled_cells rt refs headers st ->
  let s' := fold_left (impute_column rt refs) l (st, n) in
  settled_cells rt refs headers (fst s')
  /\ (forall column, column ∈ headers ->
        uniform rt refs column st \/ column ∈ l -> uniform rt refs column (fst s'))
  /\ (forall ref column v, ref ∈ refs -> column ∈ headers ->
        cell st ref column = Some v -> good rt v ->
        cell (fst s') ref column = Some v).
Proof.
  induction l as [|column l IH]; intros st n Hl Hcells; cbn [fold_left].
  - split; [exact Hcells|]. split; [|auto].
    intros column _ [H|H]; [exact H | inversion H].
  - assert (Hcolumn : column ∈ headers) by (apply Hl; left).
    assert (Hrest : forall c, c ∈ l -> c ∈ headers)
      by (intros c Hc; apply Hl; now right).
    destruct (impute_column_settled st n column Hcells Hcolumn)
      as [Huniform [Hkept Hother]].
    pose proof (impute_column_settled_cells st n column Hcells Hcolumn) as Hcells'.
    destruct (impute_column rt refs (st, n) column) as [st1 n1] eqn:E.
    cbn [fst] in *.
    destruct (IH st1 n1 Hrest Hcells') as [Hcells'' [Huniform' Hkept']].
    split; [exact Hcells''|]. split.
    + intros c Hc Hcase. apply (Huniform' c Hc).
      destruct (decide (c = column)) as [->|Hne]; [now left|].
      destruct Hcase as [H|H].
      * left. apply (uniform_kept st st1 c); [|exact H].
        intros ref. now apply Hother.
      * right. apply elem_of_cons in H as [->|H]; [contradiction | exact H].
    + intros ref c v Href Hc Hv Hg. apply (Hkept' ref c v Href Hc); [|exact Hg].
      destruct (decide (c = column)) as [->|Hne].
      * now apply Hkept.
      * now rewrite (Hother ref c Hne).
Qed.

End SettledImputation.

(** ** The cleaned table *)

Lemma kept_rows_valid (results : list row) ref :
  ref ∈ kept_rows results -> ref < length results.
Proof. apply remove_duplicates_valid. Qed.

(** Every row of the table is equal to a row that is kept. *)
Lemma kept_representative (results : list row) i :
  i < length results ->
  exists j, j ∈ kept_rows results /\ results !! j = results !! i.
Proof.
  induction i as [i IH] using lt_wf_ind. intros Hi.
  destruct (is_duplicate_at results i) eqn:Hdup.
  - unfold is_duplicate_at in Hdup.
    apply existsb_exists in Hdup as [j [Hj Heq]].
    apply in_seq in Hj. apply bool_decide_eq_true in Heq.
    destruct (IH j) as [k [Hk Hrow]]; [lia | lia |].
    exists k. split; [exact Hk | congruence].
  - exists i. split; [|reflexivity].
    unfold kept_rows. rewrite remove_duplicates_firsts.
    apply list_elem_of_In, filter_In. split; [apply in_seq; lia|].
    now rewrite Hdup.
Qed.

Lemma kept_rows_first (r : row) (rest : list row) :
  exists refs, kept_rows (r :: rest) = 0 :: refs.
Proof.
  unfold kept_rows. rewrite remove_duplicates_firsts.
  cbn [length seq List.filter]. eexists. reflexivity.
Qed.

(** The rows that are kept are pairwise distinct. *)
Lemma kept_rows_distinct (results : list row) :
  NoDup (rows_of results (kept_rows results)).
Proof.
  unfold kept_rows, remove_duplicates. rewrite uniqBy_firsts.
  pose proof (firsts_distinct (JSON_stringify results) (seq 0 (length results)) [])
    as Hnd.
  set (kept := firsts (JSON_stringify results) [] (seq 0 (length results))) in *.
  assert (Hvalid : forall ref, ref ∈ kept -> ref < length results).
  { intros ref Href. apply firsts_incl, list_elem_of_In, in_seq in Href. lia. }
  clearbody kept. unfold rows_of, JSON_stringify in *.
  induction kept as [|ref kept IH]; [constructor|].
  destruct (lookup_lt_is_Some_2 results ref (Hvalid ref ltac:(left))) as [r Hr].
  cbn [omap list_omap map] in *. rewrite Hr in *. cbn [option_bind] in *.
  apply NoDup_cons in Hnd as [Hout Hnd].
  apply NoDup_cons. split.
  - intros Hin. apply Hout. apply list_elem_of_omap in Hin as [ref' [Href' Hr']].
    apply list_elem_of_fmap. exists ref'. split; [now rewrite Hr'|exact Href'].
  - apply IH; [exact Hnd|]. intros x Hx. apply Hvalid. now right.
Qed.

Lemma rows_of_elem (st : store) refs r :
  r ∈ rows_of st refs <-> exists ref, ref ∈ refs /\ st !! ref = Some r.
Proof. unfold rows_of. apply list_elem_of_omap. Qed.

(** A column whose cells are all empty, or all good, is not imputed. *)
Lemma impute_column_uniform rt (table : list row) refs column n :
  (forall ref, ref ∈ refs -> ref < length table) ->
  (forall r, r ∈ table -> get r column = Some "")
  \/ (forall r, r ∈ table -> exists v, get r column = Some v /\ good rt v) ->
  impute_column rt refs (table, n) column = (table, n).
Proof.
  intros Hvalid Hcase.
  assert (Hrow : forall ref, ref ∈ refs ->
                   exists r, table !! ref = Some r /\ r ∈ table).
  { intros ref Href.
    destruct (lookup_lt_is_Some_2 table ref (Hvalid ref Href)) as [r Hr].
    exists r. split; [exact Hr|]. eapply list_elem_of_lookup_2, Hr. }
  unfold impute_column. cbn [fst].
  destruct Hcase as [Hempty|Hgood].
  - assert (Hnone : List.filter is_present (column_values table refs column) = []).
    { apply filter_none. intros c Hc. unfold column_values in Hc.
      apply in_map_iff in Hc as [ref [<- Href]].
      destruct (Hrow ref (proj2 (list_elem_of_In _ _) Href)) as [r [Hr Hin]].
      unfold cell. rewrite Hr, (Hempty r Hin). reflexivity. }
    rewrite Hnone. now destruct (Nat.ltb _ _).
  - assert (Hnone : missing_indices table refs column = []).
    { unfold missing_indices. apply filter_none. intros index _.
      destruct (refs !! index) as [ref|] eqn:Hindex; [|reflexivity].
      destruct (Hrow ref (list_elem_of_lookup_2 _ _ _ Hindex)) as [r [Hr Hin]].
      destruct (Hgood r Hin) as [v [Hv [Hs _]]].
      unfold cell. rewrite Hr, Hv. now apply settled_is_missing. }
    now rewrite Hnone.
Qed.

Lemma impute_uniform rt (table : list row) refs headers :
  (forall ref, ref ∈ refs -> ref < length table) ->
  (forall column, column ∈ headers ->
     (forall r, r ∈ table -> get r column = Some "")
     \/ (forall r, r ∈ table -> exists v, get r column = Some v /\ good rt v)) ->
  forall n, fold_left (impute_column rt refs) headers (table, n) = (table, n).
Proof.
  intros Hvalid. induction headers as [|column headers IH]; intros Hcase n;
    cbn [fold_left]; [reflexivity|].
  rewrite impute_column_uniform; [|exact Hvalid | apply Hcase; left].
  apply IH. intros c Hc. apply Hcase. now right.
Qed.

Section SettledTable.

Variable rt : Runtime.
Variable results : list row.
Variable opts : options.
Hypothesis Hsettled : settled_table rt results.

Lemma settled_table_cells :
  settled_cells rt (kept_rows results) (headers_of results) results.
Proof.
  intros ref column Href Hcolumn.
  destruct (lookup_lt_is_Some_2 results ref (kept_rows_valid results ref Href))
    as [r Hr].
  destruct Hsettled as [_ Hcells].
  destruct (Hcells r column (list_elem_of_lookup_2 _ _ _ Hr) Hcolumn)
    as [v [Hv Hkind]].
  exists v. split; [|exact Hkind]. unfold cell. now rewrite Hr.
Qed.

Lemma settled_table_columns :
  has_columns (headers_of results) (map keys results).
Proof.
  intros k column Hk Hcolumn.
  apply list_elem_of_fmap in Hk as [r [-> Hr]].
  destruct Hsettled as [_ Hcells].
  destruct (Hcells r column Hr Hcolumn) as [v [Hv _]].
  eapply get_Some_keys, Hv.
Qed.

Lemma imputed_settled :
  settled_cells rt (kept_rows results) (headers_of results)
    (fst (after_imputation rt results))
  /\ (forall column,
         column ∈ headers_of results ->
         uniform rt (kept_rows results) column (fst (after_imputation rt results)))
  /\ (forall ref column v,
         ref ∈ kept_rows results -> column ∈ headers_of results ->
         cell results ref column = Some v -> good rt v ->
         cell (fst (after_imputation rt results)) ref column = Some v).
Proof.
  destruct (impute_settled rt (kept_rows results) (headers_of results)
              (headers_of results) results 0 (fun _ H => H) settled_table_cells)
    as [Hcells [Huniform Hkept]].
  split; [exact Hcells|]. split; [|exact Hkept].
  intros column Hcolumn. apply Huniform; auto.
Qed.

Lemma imputed_keys :
  map keys (fst (after_imputation rt results)) = map keys results.
Proof.
  apply (fold_columns_keys (headers_of results)
           (impute_column rt (kept_rows results))
           (fun s column =>
              impute_column_keys rt (kept_rows results) (headers_of results)
                s column)
           (headers_of results) ((results : store), 0) (fun _ H => H)).
  exact settled_table_columns.
Qed.

(** Cleaning a settled table is its imputation: the later steps find
    nothing to rewrite. *)
Lemma cleaned_settled :
  cleaned_store (cleanCSVData rt results opts)
  = fst (after_imputation rt results)
  /\ data (cleanCSVData rt results opts)
     = rows_of (fst (after_imputation rt results)) (kept_rows results).
Proof.
  destruct (cleanCSVData_stages rt results opts) as [Hstore [Hrefs _]].
  destruct imputed_settled as [Hcells _].
  destruct Hsettled as [Hphone _].
  set (st2 := fst (after_imputation rt results)) in *.
  assert (H3 : fst (after_standardization rt results) = st2)
    by apply (standardize_settled rt _ _ st2 Hcells).
  assert (H4 : fst (after_capping rt results) = st2).
  { unfold after_capping. rewrite H3. apply (cap_settled rt _ _ st2 Hcells). }
  assert (H5 : fst (after_normalization rt results opts) = st2).
  { unfold after_normalization. rewrite H4.
    apply (normalize_settled rt _ _ st2 Hcells). }
  assert (H6 : fst (after_conversion rt results opts) = st2).
  { unfold after_conversion. rewrite H5.
    apply (convert_settled rt _ _ st2 Hcells). }
  assert (H7 : fst (after_validation rt results opts) = st2).
  { unfold after_validation. rewrite H6.
    apply (validate_settled rt _ _ st2 Hcells Hphone). }
  split; [congruence|]. unfold data. now rewrite Hstore, Hrefs, H7.
Qed.

Lemma cleaned_uniform column :
  column ∈ headers_of results ->
  (forall r, r ∈ data (cleanCSVData rt results opts) -> get r column = Some "")
  \/ (forall r, r ∈ data (cleanCSVData rt results opts) ->
                exists v, get r column = Some v /\ good rt v).
Proof.
  intros Hcolumn. destruct cleaned_settled as [_ ->].
  destruct imputed_settled as [_ [Huniform _]].
  destruct (Huniform column Hcolumn) as [Hempty|Hgood]; [left | right];
    intros r Hr; apply rows_of_elem in Hr as [ref [Href Hrow]].
  - specialize (Hempty ref Href). unfold cell in Hempty.
    now rewrite Hrow in Hempty.
  - specialize (Hgood ref Href). unfold cell in Hgood.
    now rewrite Hrow in Hgood.
Qed.

End SettledTable.

Lemma cleaned_headers_settled rt results opts :
  settled_table rt results ->
  headers_of (data (cleanCSVData rt results opts)) = headers_of results.
Proof.
  intros Hsettled.
  destruct (cleaned_settled rt results opts Hsettled) as [_ ->].
  pose proof (imputed_keys rt results Hsettled) as Hkeys.
  destruct results as [|r rest]; [reflexivity|].
  destruct (kept_rows_first r rest) as [l ->].
  destruct (fst (after_imputation rt (r :: rest))) as [|r' st];
    [discriminate|].
  cbn [map] in Hkeys. injection Hkeys as Hk _.
  unfold rows_of. cbn [omap list_omap lookup list_lookup option_bind].
  exact Hk.
Qed.


(** The imputation can make two rows equal: with an empty cell in the
    table, cleaning the cleaned table can remove a duplicate. *)
Lemma imputation_makes_duplicates :
  data (cleanCSVData Reference.runtime repeated_table defaults)
  = [[("city", "paris"); ("colour", "red")];
     [("city", "paris"); ("colour", "red")];
     [("city", "rome"); ("colour", "red")]]
  /\ duplicatesRemoved
       (report (cleanCSVData Reference.runtime
                  (data (cleanCSVData Reference.runtime repeated_table defaults))
                  defaults)) = 1.
Proof. vm_compute. split; reflexivity. Qed.

Ltac settle_table :=
  split;
  [ intros column Hcolumn; cbn [headers_of keys map fst] in Hcolumn;
    repeat (apply elem_of_cons in Hcolumn as [->|Hcolumn]);
    first [reflexivity | inversion Hcolumn]
  | intros r column Hr Hcolumn; cbn [headers_of keys map fst] in Hcolumn;
    repeat (apply elem_of_cons in Hr as [->|Hr]); try (now inversion Hr);
    repeat (apply elem_of_cons in Hcolumn as [->|Hcolumn]);
    try (now inversion Hcolumn);
    (eexists; split; [reflexivity|];
     first [left; reflexivity | right; split; reflexivity]) ].

